(** * Angular Material / CDK: a shallow embedding of selected component logic

    Each module below embeds one source unit of the repository as pure
    functions over an explicit state, and proves the properties stated
    about it. Effects (event emission, DOM calls, thrown errors) are made
    explicit as logs, traces and result types. *)

From stdpp Require Import base list strings gmap pretty.
From Stdlib Require Import ZArith Lia.

Set Default Proof Using "Type".
#[local] Set Warnings "-clear-no-such-hyp".

(** ** JavaScript idioms shared by the modules *)

(** [a || b] on values that are either an object or null/undefined. *)
Definition or_else {A : Type} (a b : option A) : option A :=
  match a with
  | Some x => Some x
  | None => b
  end.

(** [a || b] on strings: the empty string is falsy. *)
Definition str_or (a : option string) (b : string) : string :=
  match a with
  | Some s => if decide (s = "") then b else s
  | None => b
  end.

(** * cdk/accordion/accordion-item.ts

    Source: src/cdk/accordion/accordion-item.ts. *)
Module Accordion.

(** The part of [CdkAccordion] an item reads: its id and its [multi] flag. *)
Record CdkAccordion := mkAccordion {
  acc_id : string;
  multi : bool
}.

(** [accordion] is a reference into the store of accordions, so that every
    item of one accordion sees the same (mutable) [multi] flag. *)
Record CdkAccordionItem := mkItem {
  id : string;
  accordion : option nat;
  _expanded : bool;
  _disabled : bool
}.

(** The calls of [emit] on the outputs of the items, of [notify] on the
    dispatcher and of [markForCheck], in the order they are made. *)
Inductive Event :=
| ExpandedChange (item : string) (value : bool)
| Opened (item : string)
| Closed (item : string)
| Destroyed (item : string)
| Notified (item : string) (name : string)
| MarkForCheck (item : string).

(** [_listeners] is the listener list of the shared
    [UniqueSelectionDispatcher]; [_subscribers] the observers of the
    accordions' [_openCloseAllActions] subjects. Both hold item references
    in registration order. *)
Record World := mkWorld {
  nextId : nat;
  accordions : list CdkAccordion;
  items : list CdkAccordionItem;
  _listeners : list nat;
  _subscribers : list nat;
  emitted : list Event
}.

Definition empty_world : World := mkWorld 0 [] [] [] [] [].

Definition with_expanded (v : bool) (it : CdkAccordionItem) : CdkAccordionItem :=
  mkItem (id it) (accordion it) v (_disabled it).

Definition with_disabled (v : bool) (it : CdkAccordionItem) : CdkAccordionItem :=
  mkItem (id it) (accordion it) (_expanded it) v.

Definition with_multi (v : bool) (a : CdkAccordion) : CdkAccordion :=
  mkAccordion (acc_id a) v.

Definition put_item (i : nat) (it : CdkAccordionItem) (w : World) : World :=
  mkWorld (nextId w) (accordions w) (<[i := it]> (items w))
          (_listeners w) (_subscribers w) (emitted w).

Definition emit (es : list Event) (w : World) : World :=
  mkWorld (nextId w) (accordions w) (items w)
          (_listeners w) (_subscribers w) (emitted w ++ es).

(** [this.accordion] dereferenced. *)
Definition accordion_of (w : World) (it : CdkAccordionItem) : option CdkAccordion :=
  a ← accordion it; accordions w !! a.

(** The setter of [expanded] called with [false]: the [else] branch of
    the setter, which does not reach the dispatcher. *)
Definition set_expanded_false (i : nat) (w : World) : World :=
  match items w !! i with
  | Some it =>
      if _expanded it then
        emit [ExpandedChange (id it) false; Closed (id it); MarkForCheck (id it)]
             (put_item i (with_expanded false it) w)
      else w
  | None => w
  end.

(** The callback every item registers with the dispatcher in its
    constructor. *)
Definition listener (i : nat) (sel_id accordionId : string) (w : World) : World :=
  match items w !! i with
  | Some it =>
      match accordion_of w it with
      | Some a =>
          if negb (multi a) && bool_decide (acc_id a = accordionId)
             && negb (bool_decide (id it = sel_id))
          then set_expanded_false i w
          else w
      | None => w
      end
  | None => w
  end.

(** Modelled from the spec: [UniqueSelectionDispatcher.notify] of
    cdk/collections, which is not among the sources; it notifies with an
    item's id and the accordion id, handing both to every registered
    listener in turn. *)
Definition notify (sel_id name : string) (w : World) : World :=
  foldl (fun w' i => listener i sel_id name w') (emit [Notified sel_id name] w)
        (_listeners w).

(** The setter of [expanded]. *)
Definition set_expanded (i : nat) (expanded : bool) (w : World) : World :=
  match items w !! i with
  | Some it =>
      if expanded then
        if _expanded it then w
        else
          let w1 := emit [ExpandedChange (id it) true; Opened (id it)]
                         (put_item i (with_expanded true it) w) in
          let accordionId :=
            match accordion_of w1 it with
            | Some a => acc_id a
            | None => id it
            end in
          emit [MarkForCheck (id it)] (notify (id it) accordionId w1)
      else set_expanded_false i w
  | None => w
  end.

Definition set_disabled (i : nat) (disabled : bool) (w : World) : World :=
  match items w !! i with
  | Some it => put_item i (with_disabled disabled it) w
  | None => w
  end.

Definition toggle (i : nat) (w : World) : World :=
  match items w !! i with
  | Some it => if _disabled it then w else set_expanded i (negb (_expanded it)) w
  | None => w
  end.

Definition close (i : nat) (w : World) : World :=
  match items w !! i with
  | Some it => if _disabled it then w else set_expanded i false w
  | None => w
  end.

Definition open (i : nat) (w : World) : World :=
  match items w !! i with
  | Some it => if _disabled it then w else set_expanded i true w
  | None => w
  end.

(** The observer installed by [_subscribeToOpenCloseAllActions]. *)
Definition openCloseAll_observer (i : nat) (expanded : bool) (w : World) : World :=
  match items w !! i with
  | Some it => if _disabled it then w else set_expanded i expanded w
  | None => w
  end.

(** [accordion._openCloseAllActions.next(expanded)]: every subscribed item
    of accordion [a] observes the value. *)
Definition openCloseAllActions_next (a : nat) (expanded : bool) (w : World) : World :=
  foldl (fun w' i =>
           match items w' !! i with
           | Some it =>
               if bool_decide (accordion it = Some a)
               then openCloseAll_observer i expanded w' else w'
           | None => w'
           end) w (_subscribers w).

Definition item_id (n : nat) : string := "cdk-accordion-child-" +:+ pretty n.

(** The constructor: draws the id from [nextId], registers the listener and,
    when hosted in an accordion, subscribes to its open/close-all actions. *)
Definition new_item (acc : option nat) (w : World) : World :=
  let i := length (items w) in
  mkWorld (S (nextId w)) (accordions w)
          (items w ++ [mkItem (item_id (nextId w)) acc false false])
          (_listeners w ++ [i])
          (match acc with
           | Some _ => _subscribers w ++ [i]
           | None => _subscribers w
           end)
          (emitted w).

Definition ngOnDestroy (i : nat) (w : World) : World :=
  match items w !! i with
  | Some it =>
      mkWorld (nextId w) (accordions w) (items w)
              (filter (fun k => k ≠ i) (_listeners w))
              (filter (fun k => k ≠ i) (_subscribers w))
              (emitted w ++ [Destroyed (id it)])
  | None => w
  end.

Definition new_accordion (a : CdkAccordion) (w : World) : World :=
  mkWorld (nextId w) (accordions w ++ [a]) (items w)
          (_listeners w) (_subscribers w) (emitted w).

Definition set_multi (a : nat) (v : bool) (w : World) : World :=
  match accordions w !! a with
  | Some acc =>
      mkWorld (nextId w) (<[a := with_multi v acc]> (accordions w)) (items w)
              (_listeners w) (_subscribers w) (emitted w)
  | None => w
  end.

(** Everything a test or a template can do to the accordion items. *)
Inductive step : World -> World -> Prop :=
| step_new_accordion a w : step w (new_accordion a w)
| step_set_multi a v w : step w (set_multi a v w)
| step_new_item acc w :
    (forall a, acc = Some a -> a < length (accordions w)) ->
    step w (new_item acc w)
| step_set_expanded i v w : step w (set_expanded i v w)
| step_set_disabled i v w : step w (set_disabled i v w)
| step_toggle i w : step w (toggle i w)
| step_open i w : step w (open i w)
| step_close i w : step w (close i w)
| step_open_close_all a v w : step w (openCloseAllActions_next a v w)
| step_destroy i w : step w (ngOnDestroy i w).

Inductive reachable : World -> Prop :=
| reach_init : reachable empty_world
| reach_step w w' : reachable w -> step w w' -> reachable w'.

(** Items [i] of accordion [a] that are still registered with the dispatcher. *)
Definition live_item_of (w : World) (a i : nat) (it : CdkAccordionItem) : Prop :=
  items w !! i = Some it /\ accordion it = Some a /\ i ∈ _listeners w.

(** What the dispatcher's listener of an item decides on. *)
Definition closes (w : World) (it : CdkAccordionItem) (sel_id name : string) : bool :=
  match accordion_of w it with
  | Some a =>
      negb (multi a) && bool_decide (acc_id a = name)
      && negb (bool_decide (id it = sel_id))
  | None => false
  end.

(** The part of the world that assignments to [expanded] never touch. *)
Definition static (w : World) :=
  (nextId w, accordions w, _listeners w, _subscribers w,
   (fun it => (id it, accordion it, _disabled it)) <$> items w).

(** Ids are handed out by the module-level counter [nextId]. *)
Definition wf (w : World) : Prop :=
  nextId w = length (items w) /\
  forall i it, items w !! i = Some it -> id it = item_id i.

(** The accordion id an expanding item hands to the dispatcher. *)
Definition accordionId_of (w : World) (it : CdkAccordionItem) : string :=
  match accordion_of w it with
  | Some a => acc_id a
  | None => id it
  end.

Definition two_item_world : World :=
  set_expanded 0 true
    (new_item (Some 0) (new_item (Some 0)
       (new_accordion (mkAccordion "cdk-accordion-0" false) empty_world))).

(** Two items of a multi accordion, the first one expanded. *)
Definition multi_world : World :=
  set_expanded 0 true
    (new_item (Some 0) (new_item (Some 0)
       (new_accordion (mkAccordion "cdk-accordion-0" true) empty_world))).

(** An item outside any accordion, expanded, and an item of an accordion. *)
Definition standalone_world : World :=
  set_expanded 0 true (new_item (Some 0) (new_item None
    (new_accordion (mkAccordion "cdk-accordion-0" false) empty_world))).

End Accordion.

(** * cdk/tree/control/nested-tree-control.ts

    Source: unnamed/part_003, the class [NestedTreeControl]. *)
Module Tree.

(** A data node and what [getChildren] yields for it: an array of nodes, or
    [None] for [undefined]/[null]. Children delivered through an Observable
    are outside this model. *)
#[local] Unset Elimination Schemes.
Inductive DataNode (A : Type) : Type :=
| Node (value : A) (children : option (list (DataNode A))).
#[local] Set Elimination Schemes.
Arguments Node {A} value children.

Section NestedTreeControl.
Context {A K : Type} `{Countable K}.

Abbreviation T := (DataNode A).

(** [_trackByValue] of the base tree control: [trackBy] when one was given,
    the node itself otherwise. *)
Variable _trackByValue : T -> K.

Definition getChildren (dataNode : T) : option (list T) :=
  match dataNode with
  | Node _ children => children
  end.

(** [descendants.push(dataNode)], then the recursive [forEach] over the
    children array; anything that is not an array adds nothing. *)
Fixpoint _getDescendants (descendants : list T) (dataNode : T) {struct dataNode} : list T :=
  match dataNode with
  | Node _ (Some childrenNodes) =>
      fold_left (fun acc child => _getDescendants acc child) childrenNodes
                (descendants ++ [dataNode])
  | Node _ None => descendants ++ [dataNode]
  end.

(** [descendants.splice(1)]: everything from index 1 on. *)
Definition getDescendants (dataNode : T) : list T :=
  drop 1 (_getDescendants [] dataNode).

(** Modelled from the spec: the [SelectionModel] of cdk/collections that
    holds the expansion state is not among the sources; its selected set is
    kept as a finite set, [clear] empties it and [select] adds the values. *)
Definition clear (selection : gset K) : gset K := ∅.

Definition select (values : list K) (selection : gset K) : gset K :=
  foldl (fun sel v => sel ∪ {[v]}) selection values.

Record NestedTreeControl := mkControl {
  dataNodes : list T;
  expansionModel : gset K
}.

Definition expandAll (tc : NestedTreeControl) : NestedTreeControl :=
  let cleared := clear (expansionModel tc) in
  let allNodes :=
    fold_left (fun accumulator dataNode =>
                 accumulator ++ getDescendants dataNode ++ [dataNode])
              (dataNodes tc) [] in
  mkControl (dataNodes tc) (select (_trackByValue <$> allNodes) cleared).

(** The children of a node as a list. *)
Definition kids (n : T) : list T := default [] (getChildren n).

(** Depth-first preorder of the subtree rooted at a node: the node, then
    the preorders of its children from left to right. *)
Fixpoint preorder (n : T) : list T :=
  match n with
  | Node _ (Some cs) => n :: flat_map preorder cs
  | Node _ None => [n]
  end.

(** The strict descendants of a node in depth-first preorder. *)
Definition strict_descendants (n : T) : list T := flat_map preorder (kids n).

(** [m] lies strictly below [n]. *)
Inductive descendant_of : T -> T -> Prop :=
| desc_child m n : m ∈ kids n -> descendant_of m n
| desc_below m c n : c ∈ kids n -> descendant_of m c -> descendant_of m n.

Fixpoint node_count (n : T) : nat :=
  match n with
  | Node _ (Some cs) => S (list_sum (map node_count cs))
  | Node _ None => 1
  end.

End NestedTreeControl.

Definition leaf (v : nat) : DataNode nat := Node v (Some []).

Definition sample_tree : DataNode nat :=
  Node 1 (Some [Node 2 (Some [leaf 3; Node 4 None]); leaf 5]).

Definition node_value (n : DataNode nat) : nat :=
  match n with
  | Node v _ => v
  end.

End Tree.

(** * cdk/schematics/ng-update/migrations/input-names.ts

    Source: unnamed/part_002, the class [InputNamesMigration]. *)
Module Migration.

(** An entry of the [inputNames] upgrade data (the [limitedTo] part is only
    read by [visitTemplate]). *)
Record InputNameUpgradeData := mkName {
  replace : string;
  replaceWith : string
}.

Record ResolvedResource := mkResource {
  filePath : string;
  start : nat;
  content : string
}.

(** The calls made on the update recorder of a file, in order. *)
Inductive Edit :=
| Remove (file : string) (index width : nat)
| InsertRight (file : string) (index : nat) (text : string).

(** [pat] occurs in [text] at offset [off]. *)
Definition occurs_at (text pat : string) (off : nat) : Prop :=
  exists pre post, text = pre +:+ pat +:+ post /\ String.length pre = off.

(** [this.fileSystem.edit(filePath).remove(start, width).insertRight(start, newName)] *)
Definition _replaceInputName (file : string) (index width : nat) (newName : string)
  : list Edit :=
  [Remove file index width; InsertRight file index newName].

Definition selector (name : string) : string := "[" +:+ name +:+ "]".

Section InputNamesMigration.

(** [findAllSubstringIndices] of ng-update/typescript/literal.ts, which is
    not among the sources. *)
Variable findAllSubstringIndices : string -> string -> list nat.

Definition visitStylesheet (data : list InputNameUpgradeData)
    (stylesheet : ResolvedResource) : list Edit :=
  flat_map (fun name =>
    let currentSelector := selector (replace name) in
    let updatedSelector := selector (replaceWith name) in
    flat_map (fun index =>
                _replaceInputName (filePath stylesheet) index
                                  (String.length currentSelector) updatedSelector)
             (map (fun offset => start stylesheet + offset)
                  (findAllSubstringIndices (content stylesheet) currentSelector)))
    data.

(** What the migration relies on: the search yields the offsets of the
    occurrences of the search string, all of them and nothing else. *)
Definition finds_all_occurrences : Prop :=
  forall input search i,
    i ∈ findAllSubstringIndices input search <-> occurs_at input search i.

(** The search yields no offset twice. *)
Definition finds_each_once : Prop :=
  forall input search, NoDup (findAllSubstringIndices input search).

End InputNamesMigration.

(** Modelled from the spec: a [findAllSubstringIndices] that yields the
    offset of every occurrence of the search string in the input, in
    increasing order. [off] is the offset of [input] in the whole text. *)
Fixpoint substring_indices_from (off : nat) (input search : string) : list nat :=
  (if String.prefix search input then [off] else []) ++
  match input with
  | EmptyString => []
  | String _ rest => substring_indices_from (S off) rest search
  end.

Definition substring_indices (input search : string) : list nat :=
  substring_indices_from 0 input search.

(** The replacement of one occurrence of the selector of [name] at [off]. *)
Definition replacement (stylesheet : ResolvedResource) (name : InputNameUpgradeData)
    (off : nat) : list Edit :=
  [Remove (filePath stylesheet) (start stylesheet + off)
          (String.length (selector (replace name)));
   InsertRight (filePath stylesheet) (start stylesheet + off)
               (selector (replaceWith name))].

Definition tabs_stylesheet : ResolvedResource :=
  mkResource "tabs.css" 10 "md-tab[align] { } [align]".

End Migration.

(** * cdk/testing/testbed/fake-events/type-in-element.ts

    Source: src/cdk/testing/testbed/fake-events/type-in-element.ts. *)
Module Typing.

(** Strings are sequences of code units below 256. *)
Definition code (c : Ascii.ascii) : nat := Ascii.nat_of_ascii c.

(** [c.toLowerCase()] on one code unit. *)
Definition lower (c : Ascii.ascii) : Ascii.ascii :=
  let n := code c in
  if (65 <=? n) && (n <=? 90) then Ascii.ascii_of_nat (n + 32)
  else if (192 <=? n) && (n <=? 222) && negb (n =? 215) then Ascii.ascii_of_nat (n + 32)
  else c.

Fixpoint toLowerCase (s : string) : string :=
  match s with
  | EmptyString => EmptyString
  | String c rest => String (lower c) (toLowerCase rest)
  end.

(** [c.toUpperCase().charCodeAt(0)] on one code unit. *)
Definition upper_code (c : Ascii.ascii) : nat :=
  let n := code c in
  if (97 <=? n) && (n <=? 122) then n - 32
  else if n =? 181 then 924
  else if n =? 223 then 83
  else if (224 <=? n) && (n <=? 254) && negb (n =? 247) then n - 32
  else if n =? 255 then 376
  else n.

Record ModifierKeys := mkModifiers {
  control : bool;
  alt : bool;
  shift : bool;
  meta : bool
}.

Definition no_modifiers : ModifierKeys := mkModifiers false false false false.

Record Key := mkKey {
  keyCode : option nat;
  key : option string
}.

(** One element of the rest parameter [modifiersAndKeys]. An object with
    neither [keyCode] nor [key] in first position is taken as the modifiers. *)
Inductive Arg :=
| ArgString (s : string)
| ArgKey (k : Key)
| ArgModifiers (m : ModifierKeys).

Record Element := mkElement {
  nodeName : string;
  type_attribute : option string
}.

Inductive Action :=
| TriggerFocus
| AssignValue (v : string)
| AppendValue (c : string)
| KeyboardEvent (type : string) (code : option nat) (k : option string)
                (modifiers : ModifierKeys)
| FakeEvent (type : string).

Global Instance ModifierKeys_eq_dec : EqDecision ModifierKeys.
Proof. solve_decision. Defined.
Global Instance Key_eq_dec : EqDecision Key.
Proof. solve_decision. Defined.
Global Instance Action_eq_dec : EqDecision Action.
Proof. solve_decision. Defined.

Definition incrementalInputTypes : list string :=
  ["text"; "email"; "hidden"; "password"; "search"; "tel"; "url"].

Definition isTextInput (element : Element) : bool :=
  let nodeName := toLowerCase (nodeName element) in
  bool_decide (nodeName = "input") || bool_decide (nodeName = "textarea").

(** [k.split('').map(c => ({keyCode: c.toUpperCase().charCodeAt(0), key: c}))] *)
Fixpoint split_keys (k : string) : list Key :=
  match k with
  | EmptyString => []
  | String c rest => mkKey (Some (upper_code c)) (Some (String c EmptyString)) :: split_keys rest
  end.

Definition arg_keys (k : Arg) : list Key :=
  match k with
  | ArgString s => split_keys s
  | ArgKey k => [k]
  | ArgModifiers _ => [mkKey None None]
  end.

(** A value in a boolean position: [undefined] and the empty string are falsy. *)
Definition truthy (s : option string) : bool :=
  match s with
  | Some s => negb (bool_decide (s = ""))
  | None => false
  end.

Section TypeInElement.

(** [PERIOD] of cdk/keycodes. *)
Variable PERIOD : nat.

Definition enterValueIncrementally (inputType : string) (keys : list Key) : bool :=
  if bool_decide (inputType = "number") && (0 <? length keys)
  then forallb (fun k => negb (bool_decide (key k = Some "."))
                         && negb (bool_decide (keyCode k = Some PERIOD))) keys
  else bool_decide (inputType ∈ incrementalInputTypes).

(** One round of the loop over the keys; [trace] holds what happened so far. *)
Definition type_key (isInput incrementally : bool) (modifiers : ModifierKeys)
    (trace : list Action) (k : Key) : list Action :=
  let trace := trace ++ [KeyboardEvent "keydown" (keyCode k) (key k) modifiers] in
  let trace := trace ++ [KeyboardEvent "keypress" (keyCode k) (key k) modifiers] in
  let trace :=
    if isInput && truthy (key k)
       && bool_decide (String.length (default "" (key k)) = 1)
    then if incrementally
         then (trace ++ [AppendValue (default "" (key k))]) ++ [FakeEvent "input"]
         else trace
    else trace in
  trace ++ [KeyboardEvent "keyup" (keyCode k) (key k) modifiers].

(** The body of [typeInElement] once modifiers and keys are told apart. *)
Definition typeKeys (element : Element) (modifiers : ModifierKeys) (rest : list Arg)
  : list Action :=
  let isInput := isTextInput element in
  let inputType := str_or (type_attribute element) "text" in
  let keys := fold_left (fun arr k => arr ++ k) (map arg_keys rest) [] in
  let incrementally := enterValueIncrementally inputType keys in
  let trace := [TriggerFocus] in
  let trace :=
    if negb incrementally
    then trace ++ [AssignValue (fold_left (fun value k => value +:+ str_or (key k) "") keys "")]
    else trace in
  let trace := fold_left (type_key isInput incrementally modifiers) keys trace in
  if negb incrementally then trace ++ [FakeEvent "input"] else trace.

(** [typeInElement]: without any argument, reading [first.keyCode] throws. *)
Definition typeInElement (element : Element) (modifiersAndKeys : list Arg)
  : option (list Action) :=
  match modifiersAndKeys with
  | [] => None
  | ArgModifiers m :: rest => Some (typeKeys element m rest)
  | ArgKey (mkKey None None) :: rest => Some (typeKeys element no_modifiers rest)
  | _ => Some (typeKeys element no_modifiers modifiersAndKeys)
  end.

(** The keys sent, in order. *)
Definition keys_of (rest : list Arg) : list Key := flat_map arg_keys rest.

(** A key that stands for one character. *)
Definition single_character (k : Key) : bool :=
  match key k with
  | Some s => bool_decide (String.length s = 1)
  | None => false
  end.

(** The '.' key: by its character or by its key code. *)
Definition period_key (k : Key) : Prop :=
  key k = Some "." \/ keyCode k = Some PERIOD.

(** The value spelled by the keys. *)
Definition typed_value (keys : list Key) : string :=
  foldr (fun k value => default "" (key k) +:+ value) "" keys.

(** Entering the value key by key; [appends] tells whether the characters
    are appended to the element. *)
Definition incremental_entry (appends : bool) (modifiers : ModifierKeys)
    (keys : list Key) : list Action :=
  TriggerFocus ::
  flat_map (fun k =>
    [KeyboardEvent "keydown" (keyCode k) (key k) modifiers;
     KeyboardEvent "keypress" (keyCode k) (key k) modifiers] ++
    (if appends && single_character k
     then [AppendValue (default "" (key k)); FakeEvent "input"] else []) ++
    [KeyboardEvent "keyup" (keyCode k) (key k) modifiers]) keys.

(** Assigning the whole value ahead of the key events. *)
Definition whole_value_entry (modifiers : ModifierKeys) (keys : list Key) : list Action :=
  TriggerFocus :: AssignValue (typed_value keys) ::
  flat_map (fun k =>
    [KeyboardEvent "keydown" (keyCode k) (key k) modifiers;
     KeyboardEvent "keypress" (keyCode k) (key k) modifiers;
     KeyboardEvent "keyup" (keyCode k) (key k) modifiers]) keys ++
  [FakeEvent "input"].

Definition incremental_condition (inputType : string) (keys : list Key) : Prop :=
  inputType ∈ incrementalInputTypes \/
  (inputType = "number" /\ keys ≠ [] /\ Forall (fun k => ~ period_key k) keys).

Global Instance incremental_condition_dec inputType keys :
  Decision (incremental_condition inputType keys).
Proof. unfold incremental_condition, period_key. apply _. Defined.

(** The behaviour as stated: the type attribute defaults to 'text' only when
    absent, and every single-character key is appended. *)
Definition stated_behaviour (element : Element) (modifiers : ModifierKeys)
    (keys : list Key) : list Action :=
  if decide (incremental_condition (default "text" (type_attribute element)) keys)
  then incremental_entry true modifiers keys
  else whole_value_entry modifiers keys.

(** The behaviour of the code: an absent or empty type attribute counts as
    'text', and characters are appended to input and textarea elements only. *)
Definition entry_behaviour (element : Element) (modifiers : ModifierKeys)
    (keys : list Key) : list Action :=
  if decide (incremental_condition (str_or (type_attribute element) "text") keys)
  then incremental_entry (isTextInput element) modifiers keys
  else whole_value_entry modifiers keys.

End TypeInElement.

Definition div_element : Element := mkElement "DIV" None.
Definition number_input : Element := mkElement "INPUT" (Some "number").
Definition untyped_input : Element := mkElement "INPUT" (Some "").

End Typing.

(** * cdk/overlay/fullscreen-overlay-container.ts

    Source: the class [FullscreenOverlayContainer], second unit of
    src/material/tooltip/testing/tooltip-harness.ts. *)
Module Fullscreen.

Definition Element := nat.

(** The document: the fullscreen properties of the vendors, the body, the
    child lists of the DOM nodes and the event types on which the
    container's listener is registered. *)
Record Document := mkDocument {
  fullscreenEnabled : bool;
  webkitFullscreenEnabled : bool;
  mozFullScreenEnabled : bool;
  msFullscreenEnabled : bool;
  fullscreenElement : option Element;
  webkitFullscreenElement : option Element;
  mozFullScreenElement : option Element;
  msFullscreenElement : option Element;
  body : Element;
  childNodes : gmap Element (list Element);
  listeners : list string
}.

Record FullscreenOverlayContainer := mkContainer {
  _document : Document;
  _containerElement : option Element;
  _fullScreenEventName : option string;
  _fullScreenListener : bool
}.

Definition with_childNodes (nodes : gmap Element (list Element)) (d : Document) : Document :=
  mkDocument (fullscreenEnabled d) (webkitFullscreenEnabled d) (mozFullScreenEnabled d)
             (msFullscreenEnabled d) (fullscreenElement d) (webkitFullscreenElement d)
             (mozFullScreenElement d) (msFullscreenElement d) (body d) nodes (listeners d).

Definition with_listeners (ls : list string) (d : Document) : Document :=
  mkDocument (fullscreenEnabled d) (webkitFullscreenEnabled d) (mozFullScreenEnabled d)
             (msFullscreenEnabled d) (fullscreenElement d) (webkitFullscreenElement d)
             (mozFullScreenElement d) (msFullscreenElement d) (body d) (childNodes d) ls.

(** The browser entering or leaving fullscreen. *)
Definition with_fullscreen (std webkit moz ms : option Element) (d : Document) : Document :=
  mkDocument (fullscreenEnabled d) (webkitFullscreenEnabled d) (mozFullScreenEnabled d)
             (msFullscreenEnabled d) std webkit moz ms (body d) (childNodes d) (listeners d).

Definition children_of (d : Document) (parent : Element) : list Element :=
  default [] (childNodes d !! parent).

(** [child.remove()]: the node leaves the child list it is in. *)
Definition removeChild (child : Element) (d : Document) : Document :=
  with_childNodes (filter (fun e => e ≠ child) <$> childNodes d) d.

(** The exceptions of the DOM that the container can meet. *)
Inductive DOMException := HierarchyRequestError.

(** A node and the nodes below it, down to the given depth. *)
Fixpoint inclusive_descendants (depth : nat) (d : Document) (node : Element)
  : list Element :=
  node :: match depth with
          | 0 => []
          | S depth' => flat_map (inclusive_descendants depth' d) (children_of d node)
          end.

(** [node.contains(other)]: [other] is [node] or lies below it. No path of
    a tree is longer than the number of nodes that have children. *)
Definition contains (d : Document) (node other : Element) : bool :=
  bool_decide (other ∈ inclusive_descendants (size (childNodes d)) d node).

(** [child] is a child node of [parent]. *)
Definition child_of (d : Document) (parent child : Element) : Prop :=
  child ∈ children_of d parent.

(** [other] is [node] or a descendant of it: going from parent to child
    leads from [node] to [other]. *)
Definition inclusive_descendant (d : Document) (node other : Element) : Prop :=
  rtc (child_of d) node other.

(** A way down the tree from a node to a node, with the list of the nodes
    it leaves through a child. *)
Inductive walk (d : Document) : Element -> list Element -> Element -> Prop :=
| walk_nil x : walk d x [] x
| walk_cons x y l z : child_of d x y -> walk d y l z -> walk d x (x :: l) z.

(** The node is taken out of the child list it is in and put at the end of
    the children of [parent]. *)
Definition moved_to (parent child : Element) (d : Document) : Document :=
  let detached := filter (fun e => e ≠ child) <$> childNodes d in
  with_childNodes (<[parent := default [] (detached !! parent) ++ [child]]> detached) d.

(** [parent.appendChild(child)]: the node is moved to the end of the
    children of [parent], unless it is [parent] or contains it; then the
    call throws a HierarchyRequestError and moves nothing. *)
Definition appendChild (parent child : Element) (d : Document)
  : DOMException + Document :=
  if contains d child parent then inl HierarchyRequestError
  else inr (moved_to parent child d).

Definition set_document (d : Document) (oc : FullscreenOverlayContainer)
  : FullscreenOverlayContainer :=
  mkContainer d (_containerElement oc) (_fullScreenEventName oc) (_fullScreenListener oc).

Definition getFullscreenElement (d : Document) : option Element :=
  or_else (or_else (or_else (or_else (fullscreenElement d) (webkitFullscreenElement d))
                            (mozFullScreenElement d))
                   (msFullscreenElement d))
          None.

Definition _adjustParentForFullscreenChange (oc : FullscreenOverlayContainer)
  : DOMException + FullscreenOverlayContainer :=
  match _containerElement oc with
  | None => inr oc
  | Some container =>
      let fullscreenElement := getFullscreenElement (_document oc) in
      let parent := default (body (_document oc)) fullscreenElement in
      match appendChild parent container (_document oc) with
      | inl e => inl e
      | inr d => inr (set_document d oc)
      end
  end.

Definition _getEventName (oc : FullscreenOverlayContainer)
  : option string * FullscreenOverlayContainer :=
  match _fullScreenEventName oc with
  | Some name => (Some name, oc)
  | None =>
      let d := _document oc in
      let name :=
        if fullscreenEnabled d then Some "fullscreenchange"
        else if webkitFullscreenEnabled d then Some "webkitfullscreenchange"
        else if mozFullScreenEnabled d then Some "mozfullscreenchange"
        else if msFullscreenEnabled d then Some "MSFullscreenChange"
        else None in
      (name, mkContainer d (_containerElement oc) name (_fullScreenListener oc))
  end.

(** [removeEventListener]: the registration of the listener for the event
    type, if there is one, is dropped. *)
Fixpoint remove_listener (name : string) (ls : list string) : list string :=
  match ls with
  | [] => []
  | l :: rest => if decide (l = name) then rest else l :: remove_listener name rest
  end.

Definition _addFullscreenChangeListener (oc : FullscreenOverlayContainer)
  : FullscreenOverlayContainer :=
  let '(eventName, oc) := _getEventName oc in
  match eventName with
  | Some name =>
      let d := _document oc in
      let ls := if _fullScreenListener oc then remove_listener name (listeners d)
                else listeners d in
      mkContainer (with_listeners (ls ++ [name]) d) (_containerElement oc)
                  (_fullScreenEventName oc) true
  | None => oc
  end.

(** The nodes the document knows: the body, the fullscreen elements, and
    the nodes of the child lists. *)
Definition nodes (d : Document) : list Element :=
  body d ::
  option_list (fullscreenElement d) ++ option_list (webkitFullscreenElement d) ++
  option_list (mozFullScreenElement d) ++ option_list (msFullscreenElement d) ++
  flat_map (fun entry => fst entry :: snd entry) (map_to_list (childNodes d)).

(** [document.createElement]: a node that is none of the nodes there are. *)
Definition createElement (d : Document) : Element := S (max_list (nodes d)).

(** What a call leaves behind: the state, and the exception when it threw. *)
Inductive Outcome :=
| Completed (oc : FullscreenOverlayContainer)
| Threw (e : DOMException) (oc : FullscreenOverlayContainer).

Definition state_of (o : Outcome) : FullscreenOverlayContainer :=
  match o with
  | Completed oc => oc
  | Threw _ oc => oc
  end.

(** Modelled from the spec: the base class [OverlayContainer] is not among
    the sources; its [_createContainer] creates the overlay container
    element, appends it to document.body and keeps it in
    [_containerElement]. *)
Definition super_createContainer (oc : FullscreenOverlayContainer)
  : DOMException + FullscreenOverlayContainer :=
  let container := createElement (_document oc) in
  match appendChild (body (_document oc)) container (_document oc) with
  | inl e => inl e
  | inr d => inr (mkContainer d (Some container) (_fullScreenEventName oc)
                              (_fullScreenListener oc))
  end.

(** An exception ends the method where it is thrown. *)
Definition _createContainer (oc : FullscreenOverlayContainer) : Outcome :=
  match super_createContainer oc with
  | inl e => Threw e oc
  | inr oc1 =>
      match _adjustParentForFullscreenChange oc1 with
      | inl e => Threw e oc1
      | inr oc2 => Completed (_addFullscreenChangeListener oc2)
      end
  end.

(** Modelled from the spec: [OverlayContainer.ngOnDestroy], not among the
    sources, takes the overlay container element out of the DOM. *)
Definition super_ngOnDestroy (oc : FullscreenOverlayContainer) : FullscreenOverlayContainer :=
  match _containerElement oc with
  | Some container => set_document (removeChild container (_document oc)) oc
  | None => oc
  end.

Definition ngOnDestroy (oc : FullscreenOverlayContainer) : FullscreenOverlayContainer :=
  let oc := super_ngOnDestroy oc in
  match _fullScreenEventName oc with
  | Some name =>
      if _fullScreenListener oc
      then set_document (with_listeners (remove_listener name (listeners (_document oc)))
                                        (_document oc)) oc
      else oc
  | None => oc
  end.

(** The registered listener, [() => this._adjustParentForFullscreenChange()],
    as the event dispatch runs it: an exception of a listener is reported
    and the dispatch goes on. *)
Definition run_listener (oc : FullscreenOverlayContainer) : FullscreenOverlayContainer :=
  match _adjustParentForFullscreenChange oc with
  | inr oc' => oc'
  | inl _ => oc
  end.

(** The document dispatches an event of type [name]: the container's
    listener runs once per registration. *)
Definition dispatchEvent (name : string) (oc : FullscreenOverlayContainer)
  : FullscreenOverlayContainer :=
  foldl (fun oc' _ => run_listener oc') oc
        (filter (fun l => l = name) (listeners (_document oc))).

(** A script of the page calls [parent.appendChild(child)]. *)
Definition script_appendChild (parent child : Element) (oc : FullscreenOverlayContainer)
  : FullscreenOverlayContainer :=
  match appendChild parent child (_document oc) with
  | inr d => set_document d oc
  | inl _ => oc
  end.

(** The first of the properties that is set, in the order given. *)
Fixpoint first_set (candidates : list (option Element)) : option Element :=
  match candidates with
  | [] => None
  | Some e :: _ => Some e
  | None :: rest => first_set rest
  end.

Definition initial (d : Document) : FullscreenOverlayContainer :=
  mkContainer (with_listeners [] d) None None false.

Inductive step : FullscreenOverlayContainer -> FullscreenOverlayContainer -> Prop :=
| step_create oc : step oc (state_of (_createContainer oc))
| step_fullscreen std webkit moz ms oc :
    step oc (set_document (with_fullscreen std webkit moz ms (_document oc)) oc)
| step_event name oc : step oc (dispatchEvent name oc)
| step_destroy oc : step oc (ngOnDestroy oc)
| step_script parent child oc : step oc (script_appendChild parent child oc).

Inductive reachable : FullscreenOverlayContainer -> Prop :=
| reach_initial d : reachable (initial d)
| reach_step oc oc' : reachable oc -> step oc oc' -> reachable oc'.

(** [container] is the last child of [parent] and a child of no other node. *)
Definition appended_to (d : Document) (parent container : Element) : Prop :=
  last (children_of d parent) = Some container /\
  forall other, other ≠ parent -> container ∉ children_of d other.

(** What the listener leaves alone. *)
Definition same_setting (oc oc' : FullscreenOverlayContainer) : Prop :=
  _containerElement oc' = _containerElement oc /\
  listeners (_document oc') = listeners (_document oc) /\
  body (_document oc') = body (_document oc) /\
  getFullscreenElement (_document oc') = getFullscreenElement (_document oc).

(** While the listener is registered the container element exists. *)
Definition container_present (oc : FullscreenOverlayContainer) : Prop :=
  listeners (_document oc) = [] \/ is_Some (_containerElement oc).

Definition sample_document : Document :=
  mkDocument true false false false None None None None 0 {[ 0 := [1; 2] ]} [].

(** A container created in [sample_document], where it is node 3, after the
    browser went fullscreen on node 2 through the webkit API. *)
Definition sample_container : FullscreenOverlayContainer :=
  let oc := state_of (_createContainer (initial sample_document)) in
  set_document (with_fullscreen None (Some 2) None None (_document oc)) oc.

(** The behaviour as the specification states it: after the event the
    container is the last child of the fullscreen element, or of the body
    when there is none. *)
Definition reparented (name : string) (oc : FullscreenOverlayContainer) : Prop :=
  exists container,
    _containerElement oc = Some container /\
    appended_to (_document (dispatchEvent name oc))
                (default (body (_document oc)) (getFullscreenElement (_document oc)))
                container.

(** A container created in [sample_document], into which a script has put
    the pane 4, and the pane has gone fullscreen. *)
Definition pane_in_fullscreen : FullscreenOverlayContainer :=
  let oc := state_of (_createContainer (initial sample_document)) in
  let oc := script_appendChild 3 4 oc in
  set_document (with_fullscreen (Some 4) None None None (_document oc)) oc.

End Fullscreen.

(** * material/snack-bar/snack-bar-container.ts

    Source: src/material/snack-bar/snack-bar-container.ts. *)
Module SnackBar.

Inductive Portal :=
| ComponentPortal (component : nat)
| TemplatePortal (template : nat)
| DomPortal (element : nat).

(** [panelClass?: string | string[]] *)
Inductive PanelClass :=
| NoPanelClass
| OneClass (cssClass : string)
| ManyClasses (cssClasses : list string).

Record MatSnackBarConfig := mkConfig {
  panelClass : PanelClass;
  horizontalPosition : string;
  verticalPosition : string
}.

(** The container with the two objects it acts on: the class list of its
    host element and the portal held by its portal outlet. *)
Record MatSnackBarContainer := mkSnackBar {
  snackBarConfig : MatSnackBarConfig;
  classList : list string;
  _attachedPortal : option Portal
}.

(** The exceptions of [DOMTokenList.add]. *)
Inductive DOMException := SyntaxError | InvalidCharacterError.

Inductive Outcome (A : Type) :=
| Returned (value : A)
| Thrown (message : string)
| ThrownDOMException (e : DOMException).
Arguments Returned {A} value.
Arguments Thrown {A} message.
Arguments ThrownDOMException {A} e.

(** Methods of the container: they end by returning or by throwing, and
    leave a container behind in both cases. *)
Definition Method (A : Type) : Type :=
  MatSnackBarContainer -> Outcome A * MatSnackBarContainer.

Definition ret {A : Type} (a : A) : Method A := fun c => (Returned a, c).

Definition throw {A : Type} (message : string) : Method A := fun c => (Thrown message, c).

Definition bind {A B : Type} (m : Method A) (k : A -> Method B) : Method B :=
  fun c =>
    match m c with
    | (Returned a, c') => k a c'
    | (Thrown message, c') => (Thrown message, c')
    | (ThrownDOMException e, c') => (ThrownDOMException e, c')
    end.

Notation "m >>> k" := (bind m (fun _ => k)) (at level 65, right associativity).

(** ASCII whitespace: tab, line feed, form feed, carriage return, space. *)
Definition is_ascii_whitespace (c : Ascii.ascii) : bool :=
  let n := Ascii.nat_of_ascii c in
  (n =? 9) || (n =? 10) || (n =? 12) || (n =? 13) || (n =? 32).

Fixpoint has_whitespace (s : string) : bool :=
  match s with
  | EmptyString => false
  | String c rest => is_ascii_whitespace c || has_whitespace rest
  end.

(** [element.classList.add(cssClass)]: an empty token is a SyntaxError, a
    token with whitespace an InvalidCharacterError, and both leave the
    class list as it is; any other token is added unless it is there. *)
Definition classList_add (cssClass : string) : Method unit :=
  fun c =>
    if bool_decide (cssClass = "") then (ThrownDOMException SyntaxError, c)
    else if has_whitespace cssClass then (ThrownDOMException InvalidCharacterError, c)
    else
      (Returned tt,
       mkSnackBar (snackBarConfig c)
                  (if bool_decide (cssClass ∈ classList c) then classList c
                   else classList c ++ [cssClass])
                  (_attachedPortal c)).

Fixpoint forEach {X : Type} (xs : list X) (f : X -> Method unit) : Method unit :=
  match xs with
  | [] => ret tt
  | x :: rest => f x >>> forEach rest f
  end.

(** Modelled from the spec: [CdkPortalOutlet] of cdk/portal is not among the
    sources; [hasAttached] tells whether the outlet holds attached content
    and the attach methods make the portal the attached content. *)
Definition hasAttached (c : MatSnackBarContainer) : bool :=
  bool_decide (is_Some (_attachedPortal c)).

Definition outlet_attach (portal : Portal) : Method Portal :=
  fun c => (Returned portal, mkSnackBar (snackBarConfig c) (classList c) (Some portal)).

(** [typeof ngDevMode === 'undefined' || ngDevMode], with [None] for an
    undefined [ngDevMode]. *)
Definition dev_mode (ngDevMode : option bool) : bool := default true ngDevMode.

Definition attach_error : string :=
  "Attempting to attach snack bar content after content is already attached".

Definition _assertNotAttached (ngDevMode : option bool) : Method unit :=
  fun c =>
    if hasAttached c && dev_mode ngDevMode
    then throw attach_error c
    else ret tt c.

Definition _applySnackBarClasses : Method unit :=
  fun c =>
    let panelClasses := panelClass (snackBarConfig c) in
    ((match panelClasses with
      | ManyClasses cssClasses => forEach cssClasses classList_add
      | OneClass cssClass =>
          if bool_decide (cssClass = "") then ret tt else classList_add cssClass
      | NoPanelClass => ret tt
      end) >>>
     (if bool_decide (horizontalPosition (snackBarConfig c) = "center")
      then classList_add "mat-snack-bar-center" else ret tt) >>>
     (if bool_decide (verticalPosition (snackBarConfig c) = "top")
      then classList_add "mat-snack-bar-top" else ret tt)) c.

Definition attachComponentPortal (ngDevMode : option bool) (component : nat)
  : Method Portal :=
  _assertNotAttached ngDevMode >>>
  _applySnackBarClasses >>>
  outlet_attach (ComponentPortal component).

Definition attachTemplatePortal (ngDevMode : option bool) (template : nat)
  : Method Portal :=
  _assertNotAttached ngDevMode >>>
  _applySnackBarClasses >>>
  outlet_attach (TemplatePortal template).

Definition attachDomPortal (ngDevMode : option bool) (element : nat)
  : Method Portal :=
  _assertNotAttached ngDevMode >>>
  _applySnackBarClasses >>>
  outlet_attach (DomPortal element).

Definition sample_config : MatSnackBarConfig :=
  mkConfig (ManyClasses ["warn"; "wide"]) "center" "top".

Definition empty_container : MatSnackBarContainer :=
  mkSnackBar sample_config ["mat-snack-bar-container"] None.

Definition filled_container : MatSnackBarContainer :=
  mkSnackBar sample_config ["mat-snack-bar-container"] (Some (TemplatePortal 1)).

(** The classes the configuration asks for on the host element. *)
Definition configured_classes (cfg : MatSnackBarConfig) : list string :=
  (match panelClass cfg with
   | ManyClasses cssClasses => cssClasses
   | OneClass cssClass => if bool_decide (cssClass = "") then [] else [cssClass]
   | NoPanelClass => []
   end) ++
  (if bool_decide (horizontalPosition cfg = "center") then ["mat-snack-bar-center"] else []) ++
  (if bool_decide (verticalPosition cfg = "top") then ["mat-snack-bar-top"] else []).

(** The ASCII whitespace of the DOM standard: tab, line feed, form feed,
    carriage return and space. *)
Definition ascii_whitespace : list Ascii.ascii :=
  Ascii.ascii_of_nat <$> [9; 10; 12; 13; 32].

(** A token that [classList.add] accepts: it is not empty and none of its
    characters is ASCII whitespace. *)
Definition valid_token (cssClass : string) : Prop :=
  cssClass ≠ "" /\
  forall c, c ∈ String.list_ascii_of_string cssClass -> c ∉ ascii_whitespace.

(** The exception of [classList.add] for a token it does not accept. *)
Definition token_error (cssClass : string) : DOMException :=
  if bool_decide (cssClass = "") then SyntaxError else InvalidCharacterError.

(** A panel class of two names in one string, and an array with an empty
    name. *)
Definition spaced_container : MatSnackBarContainer :=
  mkSnackBar (mkConfig (OneClass "warn wide") "center" "top")
             ["mat-snack-bar-container"] None.

Definition gapped_container : MatSnackBarContainer :=
  mkSnackBar (mkConfig (ManyClasses ["warn"; ""; "wide"]) "center" "top")
             ["mat-snack-bar-container"] None.

(** [c'] is [c] with the classes added to the class list, and nothing else
    changed. *)
Definition adds_classes (classes : list string) (c c' : MatSnackBarContainer) : Prop :=
  snackBarConfig c' = snackBarConfig c /\
  _attachedPortal c' = _attachedPortal c /\
  forall cssClass, cssClass ∈ classList c' <-> cssClass ∈ classList c \/ cssClass ∈ classes.

End SnackBar.

(** * material/datepicker/calendar.ts

    Source: unnamed/part_000, the class [MatCalendar]. *)
Module Calendar.

(** The accessors of [DateAdapter] that ordering dates relies on. *)
Class DateAdapter (D : Type) := {
  getYear : D -> Z;
  getMonth : D -> Z;
  getDate : D -> Z
}.

(** [a || b] on numbers: zero is falsy. *)
Definition num_or (a b : Z) : Z := if (a =? 0)%Z then b else a.

Section WithAdapter.
Context {D : Type} `{DateAdapter D}.

(** Modelled from the spec: [DateAdapter.compareDate] and
    [DateAdapter.clampDate] of material/core/datetime are not among the
    sources. [compareDate] orders dates by year, month and day; [clampDate]
    brings a date into the range from [min] to [max]: it yields [min] for a
    date before [min], else [max] for a date after [max], else the date. *)
Definition compareDate (first second : D) : Z :=
  num_or (num_or (getYear first - getYear second) (getMonth first - getMonth second))
         (getDate first - getDate second).

Definition clampDate (date : D) (min max : option D) : D :=
  match min with
  | Some lo =>
      if (compareDate date lo <? 0)%Z then lo
      else match max with
           | Some hi => if (compareDate date hi >? 0)%Z then hi else date
           | None => date
           end
  | None =>
      match max with
      | Some hi => if (compareDate date hi >? 0)%Z then hi else date
      | None => date
      end
  end.

Record MatCalendar := mkCalendar {
  _minDate : option D;
  _maxDate : option D;
  _clampedActiveDate : D;
  stateChanges : nat;
  markedForCheck : nat
}.

Definition minDate (c : MatCalendar) : option D := _minDate c.
Definition maxDate (c : MatCalendar) : option D := _maxDate c.
Definition activeDate (c : MatCalendar) : D := _clampedActiveDate c.

(** The setters of [minDate] and [maxDate], given the date the adapter made
    of the bound value, or [None] for null and for invalid dates. *)
Definition set_minDate (value : option D) (c : MatCalendar) : MatCalendar :=
  mkCalendar value (_maxDate c) (_clampedActiveDate c) (stateChanges c) (markedForCheck c).

Definition set_maxDate (value : option D) (c : MatCalendar) : MatCalendar :=
  mkCalendar (_minDate c) value (_clampedActiveDate c) (stateChanges c) (markedForCheck c).

(** The setter of [activeDate]. *)
Definition set_activeDate (value : D) (c : MatCalendar) : MatCalendar :=
  mkCalendar (_minDate c) (_maxDate c)
             (clampDate value (minDate c) (maxDate c))
             (S (stateChanges c)) (S (markedForCheck c)).

Definition before (a b : D) : Prop := (compareDate a b < 0)%Z.
Definition after (a b : D) : Prop := (compareDate a b > 0)%Z.

(** The active date lies within the bounds that are set. *)
Definition within_bounds (c : MatCalendar) : Prop :=
  (forall lo, minDate c = Some lo -> ~ before (activeDate c) lo) /\
  (forall hi, maxDate c = Some hi -> ~ after (activeDate c) hi).

(** The bounds are in order when both are set. *)
Definition ordered_bounds (c : MatCalendar) : Prop :=
  forall lo hi, minDate c = Some lo -> maxDate c = Some hi -> ~ after lo hi.

End WithAdapter.
Arguments MatCalendar D : clear implicits.

Record SimpleDate := mkDate {
  year : Z;
  month : Z;
  day : Z
}.

Global Instance SimpleDateAdapter : DateAdapter SimpleDate :=
  {| getYear := year; getMonth := month; getDate := day |}.

Definition inverted_calendar : MatCalendar SimpleDate :=
  mkCalendar (Some (mkDate 2021 5 10)) (Some (mkDate 2021 5 5)) (mkDate 2021 5 7) 0 0.

Definition may_calendar : MatCalendar SimpleDate :=
  mkCalendar (Some (mkDate 2021 5 5)) (Some (mkDate 2021 5 10)) (mkDate 2021 5 7) 0 0.

End Calendar.

(** * ng-update/migrations/input-names.ts: templates

    Source: unnamed/part_002, [InputNamesMigration.visitTemplate]. *)
Module MigrationTemplate.
Import Migration.

(** [limitedTo] of an entry: the attributes and the elements the renamed
    input is limited to, each of them optional. *)
Record LimitedTo := mkLimitedTo {
  attributes : option (list string);
  elements : option (list string)
}.

(** An entry of the [inputNames] upgrade data with its [limitedTo] part. *)
Record LimitedInputName := mkLimited {
  names : InputNameUpgradeData;
  limitedTo : LimitedTo
}.

Section VisitTemplate.

(** [findInputsOnElementWithAttr] and [findInputsOnElementWithTag] of
    ng-update/html-parsing/angular.ts, which is not among the sources: the
    offsets of the input [name] on the elements of [html] that carry one of
    the attributes, or have one of the tag names. *)
Variable findInputsOnElementWithAttr : string -> string -> list string -> list nat.
Variable findInputsOnElementWithTag : string -> string -> list string -> list nat.

(** The offsets collected for one entry: [relativeOffsets] after the two
    pushes. *)
Definition relativeOffsets (template : ResolvedResource) (name : LimitedInputName)
  : list nat :=
  let relativeOffsets := [] in
  let relativeOffsets :=
    match attributes (limitedTo name) with
    | Some attrs =>
        relativeOffsets ++
        findInputsOnElementWithAttr (content template) (replace (names name)) attrs
    | None => relativeOffsets
    end in
  match elements (limitedTo name) with
  | Some tags =>
      relativeOffsets ++
      findInputsOnElementWithTag (content template) (replace (names name)) tags
  | None => relativeOffsets
  end.

Definition visitTemplate (data : list LimitedInputName) (template : ResolvedResource)
  : list Edit :=
  flat_map (fun name =>
    flat_map (fun index =>
                _replaceInputName (filePath template) index
                                  (String.length (replace (names name)))
                                  (replaceWith (names name)))
             (map (fun offset => start template + offset) (relativeOffsets template name)))
    data.

End VisitTemplate.


(** The renaming of the input of [name] found at [off]. *)
Definition renaming (template : ResolvedResource) (name : LimitedInputName) (off : nat)
  : list Edit :=
  [Remove (filePath template) (start template + off)
          (String.length (replace (names name)));
   InsertRight (filePath template) (start template + off) (replaceWith (names name))].

(** Stand-ins for the two searches: the first reports offset 5 for every
    input on elements with attributes, the second offset 5 and offset 20 on
    elements with tag names. *)
Definition attr_search (html name : string) (attrs : list string) : list nat := [5].
Definition tag_search (html name : string) (tags : list string) : list nat := [5; 20].

Definition sample_template : ResolvedResource :=
  mkResource "tabs.html" 100 "<md-tab md-align align=end></md-tab>".

End MigrationTemplate.

(** * fake-events/type-in-element.ts: the value and the events of a call

    Source: src/cdk/testing/testbed/fake-events/type-in-element.ts. *)
Module TypingTrace.
Import Typing.

(** [clearElement] *)
Definition clearElement : list Action :=
  [TriggerFocus; AssignValue ""; FakeEvent "input"].

(** The [value] of an element that keeps what it is assigned, after the
    actions of a trace, starting from [value]. *)
Definition value_after (value : string) (trace : list Action) : string :=
  foldl (fun v a =>
           match a with
           | AssignValue s => s
           | AppendValue c => v +:+ c
           | _ => v
           end) value trace.


Definition is_input_event (a : Action) : bool :=
  match a with
  | FakeEvent type => bool_decide (type = "input")
  | _ => false
  end.


(** The characters among the keys: what the keys that stand for one
    character spell. *)
Definition typed_characters (keys : list Key) : string :=
  typed_value (List.filter single_character keys).

(** The strings of a list, one after the other. *)
Definition joined (parts : list string) : string :=
  foldr (fun part rest => part +:+ rest) "" parts.

Definition text_input : Element := mkElement "INPUT" None.

End TypingTrace.

(** * cdk/overlay/fullscreen-overlay-container.ts: the listener

    Source: the class [FullscreenOverlayContainer], second unit of
    src/material/tooltip/testing/tooltip-harness.ts. *)
Module FullscreenListener.
Import Fullscreen.

(** The document holds no registration of the listener, or exactly one,
    under the event name the container has settled on. *)
Definition one_registration (oc : FullscreenOverlayContainer) : Prop :=
  listeners (_document oc) = [] \/
  exists name, listeners (_document oc) = [name] /\
               _fullScreenEventName oc = Some name /\ _fullScreenListener oc = true.

(** The registration together with what the flag says without it. *)
Definition registration_invariant (oc : FullscreenOverlayContainer) : Prop :=
  one_registration oc /\
  (_fullScreenListener oc = false -> listeners (_document oc) = []).

(** What neither the DOM moves nor the fullscreen state touch. *)
Definition same_registration (oc oc' : FullscreenOverlayContainer) : Prop :=
  listeners (_document oc') = listeners (_document oc) /\
  _fullScreenEventName oc' = _fullScreenEventName oc /\
  _fullScreenListener oc' = _fullScreenListener oc.

(** No vendor variant of the fullscreen API is enabled. *)
Definition no_fullscreen_api (d : Document) : Prop :=
  fullscreenEnabled d = false /\ webkitFullscreenEnabled d = false /\
  mozFullScreenEnabled d = false /\ msFullscreenEnabled d = false.

(** The browser switching the fullscreen API on or off. *)
Definition with_enabled (std webkit moz ms : bool) (d : Document) : Document :=
  mkDocument std webkit moz ms (fullscreenElement d) (webkitFullscreenElement d)
             (mozFullScreenElement d) (msFullscreenElement d) (body d)
             (childNodes d) (listeners d).

End FullscreenListener.

(** * material/snack-bar/snack-bar-container.ts: live region and life cycle

    Source: src/material/snack-bar/snack-bar-container.ts, the constructor,
    [enter], [exit], [onAnimationEnd], [ngOnDestroy], [_completeExit] and
    [_screenReaderAnnounce]. *)
Module SnackBarLife.

(** [AriaLivePoliteness] *)
Inductive Politeness := Off | Polite | Assertive.

Inductive Role := Status | Alert.

Global Instance Politeness_eq_dec : EqDecision Politeness.
Proof. solve_decision. Defined.

(** The part of the configuration the constructor reads. *)
Record AnnouncementConfig := mkAnnouncement {
  politeness : Politeness;
  announcementMessage : option string
}.

(** [!snackBarConfig.announcementMessage] *)
Definition no_message (cfg : AnnouncementConfig) : bool :=
  match announcementMessage cfg with
  | Some m => bool_decide (m = "")
  | None => true
  end.

(** The constructor's choice of [_live]. *)
Definition live_of (cfg : AnnouncementConfig) : Politeness :=
  if bool_decide (politeness cfg = Assertive) && no_message cfg then Assertive
  else if bool_decide (politeness cfg = Off) then Off
  else Polite.

(** The constructor's choice of [_role], given [_platform.FIREFOX]. *)
Definition role_of (firefox : bool) (live : Politeness) : option Role :=
  if firefox then
    let role := None in
    let role := if bool_decide (live = Polite) then Some Status else role in
    let role := if bool_decide (live = Assertive) then Some Alert else role in
    role
  else None.

(** A subject: how often it has emitted and whether it has completed; once
    completed it emits no more. *)
Record Subject := mkSubject {
  emissions : nat;
  completed : bool
}.

Definition next (s : Subject) : Subject :=
  if completed s then s else mkSubject (S (emissions s)) false.

Definition complete (s : Subject) : Subject := mkSubject (emissions s) true.

(** The container over its life, with what it has asked of its surroundings:
    the timers set and not yet fired or cleared, the subscriptions of
    [_completeExit] waiting for the zone's [onMicrotaskEmpty], and whether
    the template still has its [aria-hidden] and [aria-live] elements. *)
Record Container := mkLife {
  _destroyed : bool;
  _animationState : string;
  _announceTimeoutId : option nat;
  mat_exit : bool;
  _onAnnounce : Subject;
  _onExit : Subject;
  _onEnter : Subject;
  nextTimer : nat;
  pendingTimers : list nat;
  exitWaiting : nat;
  inertElement : bool;
  liveElement : bool
}.

(** The container as constructed; timer ids start at 1. *)
Definition created : Container :=
  mkLife false "void" None false (mkSubject 0 false) (mkSubject 0 false)
         (mkSubject 0 false) 1 [] 0 true true.

(** A timer id in a boolean position: [undefined] and 0 are falsy. *)
Definition timer_set (id : option nat) : bool :=
  match id with
  | Some (S _) => true
  | _ => false
  end.

Definition _screenReaderAnnounce (c : Container) : Container :=
  if negb (timer_set (_announceTimeoutId c)) then
    mkLife (_destroyed c) (_animationState c) (Some (nextTimer c)) (mat_exit c)
           (_onAnnounce c) (_onExit c) (_onEnter c)
           (S (nextTimer c)) (pendingTimers c ++ [nextTimer c]) (exitWaiting c)
           (inertElement c) (liveElement c)
  else c.

Definition enter (c : Container) : Container :=
  if negb (_destroyed c) then
    _screenReaderAnnounce
      (mkLife (_destroyed c) "visible" (_announceTimeoutId c) (mat_exit c)
              (_onAnnounce c) (_onExit c) (_onEnter c)
              (nextTimer c) (pendingTimers c) (exitWaiting c)
              (inertElement c) (liveElement c))
  else c.

(** [clearTimeout(id)] *)
Definition clearTimeout (id : option nat) (timers : list nat) : list nat :=
  match id with
  | Some t => filter (fun t' => t' ≠ t) timers
  | None => timers
  end.

Definition exit (c : Container) : Container :=
  mkLife (_destroyed c) "hidden" (_announceTimeoutId c) true
         (_onAnnounce c) (_onExit c) (_onEnter c)
         (nextTimer c) (clearTimeout (_announceTimeoutId c) (pendingTimers c))
         (exitWaiting c) (inertElement c) (liveElement c).

Definition _completeExit (c : Container) : Container :=
  mkLife (_destroyed c) (_animationState c) (_announceTimeoutId c) (mat_exit c)
         (_onAnnounce c) (_onExit c) (_onEnter c)
         (nextTimer c) (pendingTimers c) (S (exitWaiting c))
         (inertElement c) (liveElement c).

Definition ngOnDestroy (c : Container) : Container :=
  _completeExit
    (mkLife true (_animationState c) (_announceTimeoutId c) (mat_exit c)
            (_onAnnounce c) (_onExit c) (_onEnter c)
            (nextTimer c) (pendingTimers c) (exitWaiting c)
            (inertElement c) (liveElement c)).

Definition onAnimationEnd (fromState toState : string) (c : Container) : Container :=
  let c :=
    if (bool_decide (toState = "void") && negb (bool_decide (fromState = "void")))
       || bool_decide (toState = "hidden")
    then _completeExit c else c in
  if bool_decide (toState = "visible") then
    mkLife (_destroyed c) (_animationState c) (_announceTimeoutId c) (mat_exit c)
           (_onAnnounce c) (_onExit c) (complete (next (_onEnter c)))
           (nextTimer c) (pendingTimers c) (exitWaiting c)
           (inertElement c) (liveElement c)
  else c.

(** The callback of the announce timer. *)
Definition announce (c : Container) : Container :=
  if inertElement c && liveElement c then
    mkLife (_destroyed c) (_animationState c) (_announceTimeoutId c) (mat_exit c)
           (complete (next (_onAnnounce c))) (_onExit c) (_onEnter c)
           (nextTimer c) (pendingTimers c) (exitWaiting c)
           false (liveElement c)
  else c.

(** A pending timer fires. *)
Definition timer_fires (t : nat) (c : Container) : Container :=
  if bool_decide (t ∈ pendingTimers c) then
    announce
      (mkLife (_destroyed c) (_animationState c) (_announceTimeoutId c) (mat_exit c)
              (_onAnnounce c) (_onExit c) (_onEnter c)
              (nextTimer c) (filter (fun t' => t' ≠ t) (pendingTimers c))
              (exitWaiting c) (inertElement c) (liveElement c))
  else c.

(** The zone's [onMicrotaskEmpty] emits: every waiting subscription of
    [_completeExit] runs once. *)
Definition microtask_empty (c : Container) : Container :=
  mkLife (_destroyed c) (_animationState c) (_announceTimeoutId c) (mat_exit c)
         (_onAnnounce c)
         (Nat.iter (exitWaiting c) (fun s => complete (next s)) (_onExit c))
         (_onEnter c)
         (nextTimer c) (pendingTimers c) 0 (inertElement c) (liveElement c).

(** What the container's methods do, and what its surroundings do to it. *)
Inductive method : Container -> Container -> Prop :=
| method_enter c : method c (enter c)
| method_exit c : method c (exit c)
| method_animation_end fromState toState c : method c (onAnimationEnd fromState toState c)
| method_destroy c : method c (ngOnDestroy c).

Inductive step : Container -> Container -> Prop :=
| step_method c c' : method c c' -> step c c'
| step_timer t c : step c (timer_fires t c)
| step_microtask c : step c (microtask_empty c).

Inductive steps : Container -> Container -> Prop :=
| steps_refl c : steps c c
| steps_step c c' c'' : steps c c' -> step c' c'' -> steps c c''.

(** A subject that has emitted at most once, and has completed if it did. *)
Definition emitted_once (s : Subject) : Prop :=
  emissions s = 0 \/ (emissions s = 1 /\ completed s = true).

(** The announce timer has been set and is no longer pending. *)
Definition announce_cancelled (c : Container) : Prop :=
  timer_set (_announceTimeoutId c) = true /\ pendingTimers c = [].

(** The only timer pending, if any, is the announce timer. *)
Definition only_announce_timer (c : Container) : Prop :=
  forall t, t ∈ pendingTimers c -> _announceTimeoutId c = Some t.

(** Every notification of the container has been given at most once. *)
Definition notified_once (c : Container) : Prop :=
  emitted_once (_onAnnounce c) /\ emitted_once (_onExit c) /\ emitted_once (_onEnter c).

(** The timers the container has set: ids start at 1, nothing is pending
    before the announce timer is set, and nothing but it afterwards. *)
Definition timers_ok (c : Container) : Prop :=
  1 <= nextTimer c /\
  (timer_set (_announceTimeoutId c) = false -> pendingTimers c = []) /\
  only_announce_timer c.

(** A container whose announce timer is pending. *)
Definition entered : Container := enter created.

End SnackBarLife.

(** * material/datepicker/calendar.ts: views and the header

    Source: unnamed/part_000, the classes [MatCalendar] and
    [MatCalendarHeader]. *)
Module CalendarView.
Import Calendar.

(** [MatCalendarView] *)
Inductive MatCalendarView := Month | Year | MultiYear.

Global Instance MatCalendarView_eq_dec : EqDecision MatCalendarView.
Proof. solve_decision. Defined.

Section WithAdapter.
Context {D : Type} `{DateAdapter D}.

(** [addCalendarMonths], [addCalendarYears] and [today] of the date
    adapter, and [yearsPerPage] and [isSameMultiYearView] of
    multi-year-view.ts, none of them among the sources. *)
Variable addCalendarMonths : D -> Z -> D.
Variable addCalendarYears : D -> Z -> D.
Variable today : D.
Variable yearsPerPage : Z.
Variable isSameMultiYearView : D -> D -> option D -> option D -> bool.

(** The calendar component: the dates (as before), the view, and what it
    has emitted and asked for. [_currentView] is [None] until
    [ngAfterContentInit] has run. *)
Record CalendarComponent := mkComponent {
  dates : MatCalendar D;
  startAt : option D;
  startView : MatCalendarView;
  _currentView : option MatCalendarView;
  _moveFocusOnNextTick : bool;
  viewChanged : list MatCalendarView;
  focusActiveCellCalls : nat
}.

Definition with_dates (d : MatCalendar D) (c : CalendarComponent) : CalendarComponent :=
  mkComponent d (startAt c) (startView c) (_currentView c) (_moveFocusOnNextTick c)
              (viewChanged c) (focusActiveCellCalls c).

(** [_changeDetectorRef.markForCheck()] *)
Definition markForCheck (d : MatCalendar D) : MatCalendar D :=
  mkCalendar (minDate d) (maxDate d) (activeDate d) (stateChanges d) (S (markedForCheck d)).

(** The setter of [currentView]. *)
Definition set_currentView (value : MatCalendarView) (c : CalendarComponent)
  : CalendarComponent :=
  let viewChangedResult :=
    if bool_decide (_currentView c ≠ Some value) then Some value else None in
  mkComponent (markForCheck (dates c)) (startAt c) (startView c) (Some value) true
              (match viewChangedResult with
               | Some v => viewChanged c ++ [v]
               | None => viewChanged c
               end)
              (focusActiveCellCalls c).

Definition ngAfterContentInit (c : CalendarComponent) : CalendarComponent :=
  let c := with_dates (set_activeDate (default today (startAt c)) (dates c)) c in
  mkComponent (dates c) (startAt c) (startView c) (Some (startView c))
              (_moveFocusOnNextTick c) (viewChanged c) (focusActiveCellCalls c).

Definition ngAfterViewChecked (c : CalendarComponent) : CalendarComponent :=
  if _moveFocusOnNextTick c then
    mkComponent (dates c) (startAt c) (startView c) (_currentView c) false
                (viewChanged c) (S (focusActiveCellCalls c))
  else c.

Definition _goToDateInView (date : D) (view : MatCalendarView) (c : CalendarComponent)
  : CalendarComponent :=
  set_currentView view (with_dates (set_activeDate date (dates c)) c).

(** [this.calendar.currentView == 'month'] and the like. *)
Definition view_is (v : MatCalendarView) (c : CalendarComponent) : bool :=
  bool_decide (_currentView c = Some v).

(** The header's [currentPeriodClicked]. *)
Definition currentPeriodClicked (c : CalendarComponent) : CalendarComponent :=
  set_currentView (if view_is Month c then MultiYear else Month) c.

(** The header's [previousClicked] and [nextClicked]. *)
Definition previousClicked (c : CalendarComponent) : CalendarComponent :=
  let date :=
    if view_is Month c then addCalendarMonths (activeDate (dates c)) (-1)
    else addCalendarYears (activeDate (dates c))
                          (if view_is Year c then -1 else - yearsPerPage) in
  with_dates (set_activeDate date (dates c)) c.

Definition nextClicked (c : CalendarComponent) : CalendarComponent :=
  let date :=
    if view_is Month c then addCalendarMonths (activeDate (dates c)) 1
    else addCalendarYears (activeDate (dates c))
                          (if view_is Year c then 1 else yearsPerPage) in
  with_dates (set_activeDate date (dates c)) c.

(** The header's [_isSameView]. *)
Definition _isSameView (c : CalendarComponent) (date1 date2 : D) : bool :=
  if view_is Month c then
    bool_decide (getYear date1 = getYear date2) &&
    bool_decide (getMonth date1 = getMonth date2)
  else if view_is Year c then bool_decide (getYear date1 = getYear date2)
  else isSameMultiYearView date1 date2 (minDate (dates c)) (maxDate (dates c)).

Definition previousEnabled (c : CalendarComponent) : bool :=
  match minDate (dates c) with
  | None => true
  | Some lo => negb (_isSameView c (activeDate (dates c)) lo)
  end.

Definition nextEnabled (c : CalendarComponent) : bool :=
  match maxDate (dates c) with
  | None => true
  | Some hi => negb (_isSameView c (activeDate (dates c)) hi)
  end.

(** What can happen to a calendar once its content is initialised. *)
Inductive action : CalendarComponent -> CalendarComponent -> Prop :=
| act_set_view v c : action c (set_currentView v c)
| act_go_to date v c : action c (_goToDateInView date v c)
| act_view_checked c : action c (ngAfterViewChecked c)
| act_period c : action c (currentPeriodClicked c)
| act_previous c : action c (previousClicked c)
| act_next c : action c (nextClicked c)
| act_min value c : action c (with_dates (set_minDate value (dates c)) c)
| act_max value c : action c (with_dates (set_maxDate value (dates c)) c).

Inductive actions : CalendarComponent -> CalendarComponent -> Prop :=
| actions_refl c : actions c c
| actions_step c c' c'' : actions c c' -> action c' c'' -> actions c c''.

(** No value occurs twice in a row. *)
Fixpoint no_repeat (l : list MatCalendarView) : Prop :=
  match l with
  | a :: (b :: _) as rest => a ≠ b /\ no_repeat rest
  | _ => True
  end.

(** The emitted views do not repeat and end with the current view. *)
Definition views_in_step (c : CalendarComponent) : Prop :=
  no_repeat (viewChanged c) /\
  forall v, last (viewChanged c) = Some v -> _currentView c = Some v.

(** A component as constructed, before its content is initialised. *)
Definition constructed (d : MatCalendar D) (start : option D) (view : MatCalendarView)
  : CalendarComponent :=
  mkComponent d start view None false [] 0.

(** The adapter moves a date forward when it adds months or years to it. *)
Definition moves_forward (date : D) : Prop :=
  after (addCalendarMonths date 1) date /\ after (addCalendarYears date 1) date /\
  after (addCalendarYears date yearsPerPage) date.

(** The adapter moves a date backward when it takes months or years off it. *)
Definition moves_backward (date : D) : Prop :=
  before (addCalendarMonths date (-1)) date /\ before (addCalendarYears date (-1)) date /\
  before (addCalendarYears date (- yearsPerPage)) date.

End WithAdapter.
Arguments CalendarComponent D : clear implicits.

(** Month and year arithmetic on [SimpleDate], months counted from 0. *)
Definition simple_addMonths (d : SimpleDate) (n : Z) : SimpleDate :=
  let total := (year d * 12 + month d + n)%Z in
  mkDate (total / 12) (total mod 12) (day d).

Definition simple_addYears (d : SimpleDate) (n : Z) : SimpleDate :=
  mkDate (year d + n) (month d) (day d).

Definition simple_today : SimpleDate := mkDate 2021 5 7.

Definition simple_sameMultiYear (a b : SimpleDate) (lo hi : option SimpleDate) : bool :=
  bool_decide ((year a / 24)%Z = (year b / 24)%Z).

(** A calendar in month view, on the last selectable day. *)
Definition may_component : CalendarComponent SimpleDate :=
  ngAfterContentInit simple_today
    (constructed (mkCalendar (Some (mkDate 2021 5 5)) (Some (mkDate 2021 5 10))
                             (mkDate 2021 5 7) 0 0)
                 (Some (mkDate 2021 5 10)) Month).

End CalendarView.

(** * material/menu/menu.ts

    Source: the classes [_MatMenuBase] and [MatMenu], second unit of
    src/material/core/common-behaviors/common-module.ts. *)
Module Menu.

(** [_classList], an object used as a map from class names to booleans.
    The keys are kept in the order of their first assignment, which is the
    order [Object.keys] yields for keys that are no array indices; keys that
    are array indices, the integers in decimal, come before all others. *)
Definition ClassList := list (string * bool).

Definition is_digit (c : Ascii.ascii) : bool :=
  let n := Ascii.nat_of_ascii c in (48 <=? n) && (n <=? 57).

(** A prefix that no array index carries: it starts with a character that
    is no digit. The keys with such a prefix are found in the order of their
    first assignment. *)
Definition no_index_prefix (prefix : string) : Prop :=
  match prefix with
  | String c _ => is_digit c = false
  | EmptyString => False
  end.

(** [classList[key] = value] *)
Fixpoint assign (key : string) (value : bool) (classes : ClassList) : ClassList :=
  match classes with
  | [] => [(key, value)]
  | (k, b) :: rest =>
      if decide (k = key) then (k, value) :: rest else (k, b) :: assign key value rest
  end.

(** [classList[key]] *)
Fixpoint class_value (key : string) (classes : ClassList) : option bool :=
  match classes with
  | [] => None
  | (k, b) :: rest => if decide (k = key) then Some b else class_value key rest
  end.

(** [Object.keys(classList).find(className => className.startsWith(prefix))] *)
Fixpoint find_class (prefix : string) (classes : ClassList) : option string :=
  match classes with
  | [] => None
  | (k, _) :: rest => if String.prefix prefix k then Some k else find_class prefix rest
  end.

Record MatMenu := mkMenu {
  _classList : ClassList;
  _xPosition : string;
  _yPosition : string;
  _previousElevation : option string;
  _previousPanelClass : option string;
  hostClassName : string
}.

Definition with_classList (classes : ClassList) (m : MatMenu) : MatMenu :=
  mkMenu classes (_xPosition m) (_yPosition m) (_previousElevation m)
         (_previousPanelClass m) (hostClassName m).

(** Modelled from the spec: [throwMatMenuInvalidPositionX] and
    [throwMatMenuInvalidPositionY] of menu-errors.ts, not among the sources,
    are taken to throw, each an error of its own. *)
Inductive MenuError := InvalidPositionX | InvalidPositionY.

Inductive Result :=
| Done (menu : MatMenu)
| Throws (error : MenuError).

Definition setPositionClasses (posX posY : string) (m : MatMenu) : MatMenu :=
  let classes := _classList m in
  let classes := assign "mat-menu-before" (bool_decide (posX = "before")) classes in
  let classes := assign "mat-menu-after" (bool_decide (posX = "after")) classes in
  let classes := assign "mat-menu-above" (bool_decide (posY = "above")) classes in
  let classes := assign "mat-menu-below" (bool_decide (posY = "below")) classes in
  with_classList classes m.

(** The setter of [xPosition]; [ngDevMode] is [None] when undefined. *)
Definition set_xPosition (ngDevMode : option bool) (value : string) (m : MatMenu) : Result :=
  if negb (bool_decide (value = "before")) && negb (bool_decide (value = "after"))
     && default true ngDevMode
  then Throws InvalidPositionX
  else
    let m := mkMenu (_classList m) value (_yPosition m) (_previousElevation m)
                    (_previousPanelClass m) (hostClassName m) in
    Done (setPositionClasses (_xPosition m) (_yPosition m) m).

(** The setter of [yPosition]. *)
Definition set_yPosition (ngDevMode : option bool) (value : string) (m : MatMenu) : Result :=
  if negb (bool_decide (value = "above")) && negb (bool_decide (value = "below"))
     && default true ngDevMode
  then Throws InvalidPositionY
  else
    let m := mkMenu (_classList m) (_xPosition m) value (_previousElevation m)
                    (_previousPanelClass m) (hostClassName m) in
    Done (setPositionClasses (_xPosition m) (_yPosition m) m).

(** A string in a boolean position. *)
Definition nonempty (s : option string) : bool :=
  match s with
  | Some s => negb (bool_decide (s = ""))
  | None => false
  end.

(** [classes.split(' ')] *)
Fixpoint split_spaces (classes : string) : list string :=
  match classes with
  | EmptyString => [""]
  | String c rest =>
      if Ascii.eqb c Ascii.Space then "" :: split_spaces rest
      else match split_spaces rest with
           | first :: others => String c first :: others
           | [] => [String c ""]
           end
  end.

(** [names.forEach(className => classList[className] = value)] *)
Definition assign_all (names : list string) (value : bool) (classes : ClassList)
  : ClassList :=
  foldl (fun cl className => assign className value cl) classes names.

(** The setter of [panelClass]. *)
Definition set_panelClass (classes : string) (m : MatMenu) : MatMenu :=
  let previousPanelClass := _previousPanelClass m in
  let cl :=
    match previousPanelClass with
    | Some previous =>
        if nonempty (Some previous)
        then assign_all (split_spaces previous) false (_classList m)
        else _classList m
    | None => _classList m
    end in
  if nonempty (Some classes)
  then mkMenu (assign_all (split_spaces classes) true cl) (_xPosition m) (_yPosition m)
              (_previousElevation m) (Some classes) ""
  else mkMenu cl (_xPosition m) (_yPosition m) (_previousElevation m) (Some classes)
              (hostClassName m).

Section Elevation.

(** [_elevationPrefix] and [_baseElevation], which the subclasses set:
    [MatMenu] to 'mat-elevation-z' and 4. *)
Variable _elevationPrefix : string.
Variable _baseElevation : nat.

(** The class name of the elevation at a depth. *)
Definition elevation_class (depth : nat) : string :=
  _elevationPrefix +:+ pretty (Nat.min (_baseElevation + depth) 24).

Definition setElevation (depth : nat) (m : MatMenu) : MatMenu :=
  let newElevation := elevation_class depth in
  let customElevation := find_class _elevationPrefix (_classList m) in
  if negb (nonempty customElevation)
     || bool_decide (customElevation = _previousElevation m)
  then
    let classes :=
      match _previousElevation m with
      | Some previous =>
          if nonempty (Some previous) then assign previous false (_classList m)
          else _classList m
      | None => _classList m
      end in
    mkMenu (assign newElevation true classes) (_xPosition m) (_yPosition m)
           (Some newElevation) (_previousPanelClass m) (hostClassName m)
  else m.

(** No class of the list carries the elevation prefix. *)
Definition no_elevation_class (classes : ClassList) : Prop :=
  find_class _elevationPrefix classes = None.

End Elevation.

(** A menu as constructed with the default options and initialised by
    [ngOnInit]. *)
Definition default_menu : MatMenu :=
  setPositionClasses "after" "below" (mkMenu [] "after" "below" None None "").

(** The class names of a class list, in order. *)
Definition class_names (classes : ClassList) : list string := fst <$> classes.

End Menu.

(** * Properties *)

(** ** Accordion items *)
Section AccordionFacts.
Import Accordion.

Lemma with_expanded_same it : with_expanded (_expanded it) it = it.
Proof. by destruct it. Qed.

Lemma static_put_expanded i it v w :
  items w !! i = Some it -> static (put_item i (with_expanded v it) w) = static w.
Proof.
  intros Hi. unfold static; simpl. f_equal.
  rewrite list_fmap_insert. simpl.
  apply list_insert_id. by rewrite list_lookup_fmap, Hi.
Qed.

Lemma static_emit es w : static (emit es w) = static w.
Proof. done. Qed.

Lemma closes_static w w' it it' s n :
  accordions w = accordions w' -> id it = id it' -> accordion it = accordion it' ->
  closes w it s n = closes w' it' s n.
Proof.
  intros Ha Hi Hc. unfold closes, accordion_of. by rewrite Ha, Hi, Hc.
Qed.

Lemma static_set_expanded_false i w : static (set_expanded_false i w) = static w.
Proof.
  unfold set_expanded_false.
  destruct (items w !! i) as [it|] eqn:Hi; [|done].
  destruct (_expanded it); [|done].
  by rewrite static_emit, static_put_expanded.
Qed.

Lemma items_set_expanded_false i w k it :
  items w !! k = Some it ->
  items (set_expanded_false i w) !! k =
  Some (if bool_decide (k = i) then with_expanded false it else it).
Proof.
  intros Hk. unfold set_expanded_false.
  case_bool_decide as Hki.
  - subst k. rewrite Hk. destruct (_expanded it) eqn:He; simpl.
    + apply list_lookup_insert_eq. by eapply lookup_lt_Some.
    + by rewrite <- He, with_expanded_same.
  - destruct (items w !! i) as [it'|]; [|done].
    destruct (_expanded it'); [|done]. simpl.
    by rewrite list_lookup_insert_ne.
Qed.

Lemma static_listener i s n w : static (listener i s n w) = static w.
Proof.
  unfold listener.
  destruct (items w !! i) as [it|]; [|done].
  destruct (accordion_of w it); [|done].
  case_match; [apply static_set_expanded_false | done].
Qed.

Lemma items_listener i s n w k it :
  items w !! k = Some it ->
  items (listener i s n w) !! k =
  Some (if bool_decide (k = i) && closes w it s n
        then with_expanded false it else it).
Proof.
  intros Hk. unfold listener, closes.
  case_bool_decide as Hki; simpl.
  - subst k. rewrite Hk.
    destruct (accordion_of w it) as [a|]; [|done].
    case_match; [|done].
    rewrite (items_set_expanded_false _ _ _ _ Hk).
    by rewrite bool_decide_eq_true_2.
  - destruct (items w !! i) as [it'|]; [|done].
    destruct (accordion_of w it') as [a|]; [|done].
    case_match; [|done].
    rewrite (items_set_expanded_false _ _ _ _ Hk).
    by rewrite bool_decide_eq_false_2.
Qed.

Lemma closes_with_expanded w it v s n :
  closes w (with_expanded v it) s n = closes w it s n.
Proof. done. Qed.

(** The dispatcher's round over a list of listeners. *)
Lemma items_listeners_fold s n ls : forall w k it,
  items w !! k = Some it ->
  items (foldl (fun w' i => listener i s n w') w ls) !! k =
  Some (if bool_decide (k ∈ ls) && closes w it s n
        then with_expanded false it else it).
Proof.
  induction ls as [|i ls IH]; intros w k it Hk; cbn [foldl].
  - by rewrite bool_decide_eq_false_2 by apply not_elem_of_nil.
  - pose proof (items_listener i s n w k it Hk) as Hl.
    rewrite (IH _ _ _ Hl).
    assert (Hacc : accordions (listener i s n w) = accordions w).
    { pose proof (static_listener i s n w) as Hs. unfold static in Hs. congruence. }
    set (it1 := if bool_decide (k = i) && closes w it s n
                then with_expanded false it else it).
    assert (Hcl : closes (listener i s n w) it1 s n = closes w it s n).
    { apply closes_static; [done | subst it1; by case_match ..]. }
    rewrite Hcl. subst it1. f_equal.
    destruct (closes w it s n); [|by rewrite !andb_false_r].
    rewrite !andb_true_r.
    destruct (decide (k = i)) as [->|Hki].
    + rewrite (bool_decide_eq_true_2 (i = i)) by done.
      rewrite (bool_decide_eq_true_2 (i ∈ i :: ls)) by left.
      destruct (bool_decide (i ∈ ls)); reflexivity.
    + rewrite (bool_decide_eq_false_2 (k = i)) by done.
      apply (f_equal (fun b : bool => if b then with_expanded false it else it)).
      apply bool_decide_ext. rewrite elem_of_cons. intuition congruence.
Qed.

Lemma static_listeners_fold s n ls : forall w,
  static (foldl (fun w' i => listener i s n w') w ls) = static w.
Proof.
  induction ls as [|i ls IH]; intros w; simpl; [done|].
  by rewrite IH, static_listener.
Qed.

Lemma static_set_expanded i v w : static (set_expanded i v w) = static w.
Proof.
  unfold set_expanded.
  destruct (items w !! i) as [it|] eqn:Hi; [|done].
  destruct v; [|apply static_set_expanded_false].
  destruct (_expanded it); [done|]. cbv zeta.
  rewrite static_emit. unfold notify.
  rewrite static_listeners_fold, !static_emit. by apply static_put_expanded.
Qed.

Lemma items_set_expanded_true j jt w k it :
  items w !! j = Some jt -> _expanded jt = false ->
  items w !! k = Some it ->
  items (set_expanded j true w) !! k =
  Some (if bool_decide (k = j) then with_expanded true jt
        else if bool_decide (k ∈ _listeners w)
                && closes w it (id jt) (accordionId_of w jt)
             then with_expanded false it else it).
Proof.
  intros Hj He Hk. unfold set_expanded. rewrite Hj, He. cbv zeta.
  set (w1 := emit _ (put_item j (with_expanded true jt) w)).
  set (it1 := if bool_decide (k = j) then with_expanded true jt else it).
  assert (Hk1 : items w1 !! k = Some it1).
  { subst w1 it1. simpl. case_bool_decide as Hkj.
    - subst k. apply list_lookup_insert_eq. by eapply lookup_lt_Some.
    - by rewrite list_lookup_insert_ne. }
  change (items (emit _ ?x)) with (items x). unfold notify.
  change (_listeners w1) with (_listeners w).
  erewrite items_listeners_fold by exact Hk1. f_equal.
  change (accordion_of w1 jt) with (accordion_of w jt).
  fold (accordionId_of w jt).
  subst it1. case_bool_decide as Hkj.
  - subst k. unfold closes at 1. simpl.
    rewrite (bool_decide_eq_true_2 (id jt = id jt)) by done.
    destruct (accordion_of _ _); by rewrite ?andb_false_r.
  - done.
Qed.

Lemma wf_static w w' : static w = static w' -> wf w -> wf w'.
Proof.
  unfold static. intros Hs [Hn Hid].
  injection Hs as Hn' _ _ _ Hit.
  split.
  - rewrite <- Hn', Hn.
    apply (f_equal length) in Hit. by rewrite !length_fmap in Hit.
  - intros i it Hi.
    apply (f_equal (fun l => l !! i)) in Hit.
    rewrite !list_lookup_fmap, Hi in Hit. simpl in Hit.
    destruct (items w !! i) as [it0|] eqn:Hi0; [|done].
    simpl in Hit. injection Hit as Hid0 _ _. rewrite <- Hid0. by apply Hid.
Qed.

Lemma wf_empty : wf empty_world.
Proof. split; [done|]. intros i it Hi. by destruct i. Qed.

Lemma static_observer i v w : static (openCloseAll_observer i v w) = static w.
Proof.
  unfold openCloseAll_observer.
  destruct (items w !! i) as [it|]; [|done].
  destruct (_disabled it); [done | apply static_set_expanded].
Qed.

Lemma static_openCloseAll a v w : static (openCloseAllActions_next a v w) = static w.
Proof.
  unfold openCloseAllActions_next.
  generalize (_subscribers w). intros ls. revert w.
  induction ls as [|i ls IH]; intros w; cbn [foldl]; [done|].
  rewrite IH.
  destruct (items w !! i) as [it|]; [|done].
  case_bool_decide; [apply static_observer | done].
Qed.

Lemma wf_step w w' : step w w' -> wf w -> wf w'.
Proof.
  intros Hstep Hwf.
  destruct Hstep as [a w|a v w|acc w Hacc|i v w|i v w|i w|i w|i w|a v w|i w].
  - exact Hwf.
  - unfold set_multi. by destruct (accordions w !! a).
  - destruct Hwf as [Hn Hid]. split; simpl.
    + rewrite length_app. simpl. lia.
    + intros i it Hi. apply lookup_app_Some in Hi as [Hi|[Hlen Hi]].
      * by apply Hid.
      * apply list_lookup_singleton_Some in Hi as [Hi <-]. simpl.
        f_equal. lia.
  - eapply wf_static; [symmetry; apply static_set_expanded | done].
  - unfold set_disabled. destruct (items w !! i) as [it|] eqn:Hi; [|done].
    destruct Hwf as [Hn Hid]. split; simpl.
    + by rewrite length_insert.
    + intros k kt Hk. destruct (decide (k = i)) as [->|Hne].
      * rewrite list_lookup_insert_eq in Hk by (by eapply lookup_lt_Some).
        injection Hk as <-. simpl. by apply Hid.
      * rewrite list_lookup_insert_ne in Hk by done. by apply Hid.
  - unfold toggle. destruct (items w !! i) as [it|]; [|done].
    destruct (_disabled it); [done|].
    eapply wf_static; [symmetry; apply static_set_expanded | done].
  - unfold open. destruct (items w !! i) as [it|]; [|done].
    destruct (_disabled it); [done|].
    eapply wf_static; [symmetry; apply static_set_expanded | done].
  - unfold close. destruct (items w !! i) as [it|]; [|done].
    destruct (_disabled it); [done|].
    eapply wf_static; [symmetry; apply static_set_expanded | done].
  - eapply wf_static; [symmetry; apply static_openCloseAll | done].
  - unfold ngOnDestroy. by destruct (items w !! i).
Qed.

Lemma reachable_wf w : reachable w -> wf w.
Proof.
  induction 1 as [|w w' _ IH Hstep]; [apply wf_empty | by eapply wf_step].
Qed.

Lemma item_id_inj : Inj (=) (=) item_id.
Proof.
  intros n m Heq. unfold item_id in Heq.
  apply String.app_inj in Heq. by apply pretty_nat_inj in Heq.
Qed.

Lemma lookup_static w w' k kt :
  static w = static w' -> items w' !! k = Some kt ->
  exists it, items w !! k = Some it /\ id it = id kt /\
             accordion it = accordion kt /\ _disabled it = _disabled kt.
Proof.
  unfold static. intros Hs Hk. injection Hs as _ _ _ _ Hit.
  apply (f_equal (fun l => l !! k)) in Hit.
  rewrite !list_lookup_fmap, Hk in Hit.
  destruct (items w !! k) as [it|]; [|done].
  simpl in Hit. injection Hit as ? ? ?. by exists it.
Qed.

Lemma closes_sibling w a acc it sel_id :
  accordions w !! a = Some acc -> multi acc = false ->
  accordion it = Some a -> id it ≠ sel_id ->
  closes w it sel_id (acc_id acc) = true.
Proof.
  intros Ha Hm Hit Hne. unfold closes, accordion_of.
  rewrite Hit. simpl. rewrite Ha, Hm. simpl.
  by rewrite bool_decide_eq_true_2, bool_decide_eq_false_2.
Qed.

Lemma accordionId_of_hosted w a acc jt :
  accordions w !! a = Some acc -> accordion jt = Some a ->
  accordionId_of w jt = acc_id acc.
Proof.
  intros Ha Hj. unfold accordionId_of, accordion_of. rewrite Hj. simpl. by rewrite Ha.
Qed.

(** An item that becomes expanded collapses every registered sibling of a
    non-multi accordion, whatever the sibling's [disabled] flag. *)
Lemma expand_collapses_sibling w a acc j jt i it :
  accordions w !! a = Some acc -> multi acc = false ->
  items w !! j = Some jt -> accordion jt = Some a -> _expanded jt = false ->
  items w !! i = Some it -> accordion it = Some a -> i ∈ _listeners w ->
  id it ≠ id jt ->
  items (set_expanded j true w) !! i = Some (with_expanded false it).
Proof.
  intros Ha Hm Hj Hja He Hi Hia Hl Hne.
  rewrite (items_set_expanded_true j jt w i it Hj He Hi).
  rewrite bool_decide_eq_false_2 by (intros ->; congruence).
  rewrite (accordionId_of_hosted w a acc jt Ha Hja).
  rewrite (closes_sibling w a acc it (id jt) Ha Hm Hia Hne).
  by rewrite bool_decide_eq_true_2.
Qed.

Lemma disabled_world_unchanged w i it :
  items w !! i = Some it -> _disabled it = true ->
  toggle i w = w /\ open i w = w /\ close i w = w /\
  forall v, openCloseAll_observer i v w = w.
Proof.
  intros Hi Hd. unfold toggle, open, close, openCloseAll_observer.
  by rewrite Hi, Hd.
Qed.

(** C1. Single-selection dispatch: in an accordion whose [multi] flag is
    false, when a registered item [j] becomes expanded, every other
    registered item of that accordion (one with a different id) ends up with
    [expanded = false]; hence after the expansion [j] is the only expanded
    item of the accordion. *)
Theorem single_selection_dispatch w a acc j jt :
  reachable w ->
  accordions w !! a = Some acc -> multi acc = false ->
  live_item_of w a j jt -> _expanded jt = false ->
  let w' := set_expanded j true w in
  (forall i it, live_item_of w a i it -> id it ≠ id jt ->
     exists it', items w' !! i = Some it' /\ _expanded it' = false) /\
  (exists jt', items w' !! j = Some jt' /\ _expanded jt' = true) /\
  (forall k kt, live_item_of w' a k kt -> _expanded kt = true -> k = j).
Proof.
  intros Hr Ha Hm (Hj & Hja & Hjl) He w'. split; [|split].
  - intros i it (Hi & Hia & Hil) Hne.
    exists (with_expanded false it). split; [|done].
    by eapply expand_collapses_sibling.
  - exists (with_expanded true jt). split; [|done]. subst w'.
    rewrite (items_set_expanded_true j jt w j jt Hj He Hj).
    by rewrite bool_decide_eq_true_2.
  - intros k kt (Hk & Hka & Hkl) Hke.
    destruct (decide (k = j)) as [|Hkj]; [done|exfalso].
    pose proof (static_set_expanded j true w) as Hs. fold w' in Hs.
    destruct (lookup_static w w' k kt (eq_sym Hs) Hk) as (it & Hi & Hid & Hacc & _).
    assert (Hl : k ∈ _listeners w).
    { unfold static in Hs. injection Hs as _ _ Hls _ _. by rewrite <- Hls. }
    assert (Hne : id it ≠ id jt).
    { destruct (reachable_wf w Hr) as [_ Hids].
      rewrite (Hids k it Hi), (Hids j jt Hj). intros Heq.
      by apply item_id_inj in Heq. }
    assert (Hc : items w' !! k = Some (with_expanded false it)).
    { eapply expand_collapses_sibling; eauto. congruence. }
    rewrite Hk in Hc. injection Hc as ->. done.
Qed.

Lemma two_item_world_reachable : reachable two_item_world.
Proof.
  unfold two_item_world.
  eapply reach_step; [|apply step_set_expanded].
  eapply reach_step; [|apply step_new_item; intros a [= <-]; simpl; lia].
  eapply reach_step; [|apply step_new_item; intros a [= <-]; simpl; lia].
  eapply reach_step; [apply reach_init | apply step_new_accordion].
Qed.

Lemma single_selection_dispatch_witness :
  let w' := set_expanded 1 true two_item_world in
  (forall i it, live_item_of two_item_world 0 i it ->
     id it ≠ item_id 1 ->
     exists it', items w' !! i = Some it' /\ _expanded it' = false) /\
  (exists jt', items w' !! 1 = Some jt' /\ _expanded jt' = true) /\
  (forall k kt, live_item_of w' 0 k kt -> _expanded kt = true -> k = 1).
Proof.
  apply (single_selection_dispatch two_item_world 0
           (mkAccordion "cdk-accordion-0" false) 1
           (mkItem (item_id 1) (Some 0) false false)).
  - apply two_item_world_reachable.
  - reflexivity.
  - reflexivity.
  - split; [reflexivity|]. split; [reflexivity|].
    vm_compute. apply list_elem_of_further, list_elem_of_here.
  - reflexivity.
Defined.

(** C8. The [disabled] guard covers [toggle], [open], [close] and the
    accordion's open/close-all actions: on a disabled item each of them
    leaves the whole world, the event log included, as it was. The
    dispatcher's listener is not guarded: a sibling of the same non-multi
    accordion that becomes expanded still sets the disabled item's
    [expanded] to false. *)
Theorem disabled_guard_scope w i it :
  items w !! i = Some it -> _disabled it = true ->
  (toggle i w = w /\ open i w = w /\ close i w = w /\
   forall v, openCloseAll_observer i v w = w) /\
  (forall a acc j jt,
     accordions w !! a = Some acc -> multi acc = false ->
     live_item_of w a i it -> live_item_of w a j jt ->
     id jt ≠ id it -> _expanded jt = false ->
     exists it', items (set_expanded j true w) !! i = Some it' /\
                 _disabled it' = true /\ _expanded it' = false).
Proof.
  intros Hi Hd. split; [by apply (disabled_world_unchanged w i it)|].
  intros a acc j jt Ha Hm (_ & Hia & Hil) (Hj & Hja & _) Hne He.
  exists (with_expanded false it). split; [|done].
  eapply expand_collapses_sibling; eauto.
Qed.

Lemma disabled_guard_scope_witness :
  let w := set_disabled 0 true two_item_world in
  let it := mkItem (item_id 0) (Some 0) true true in
  (toggle 0 w = w /\ open 0 w = w /\ close 0 w = w /\
   forall v, openCloseAll_observer 0 v w = w) /\
  (forall a acc j jt,
     accordions w !! a = Some acc -> multi acc = false ->
     live_item_of w a 0 it -> live_item_of w a j jt ->
     id jt ≠ id it -> _expanded jt = false ->
     exists it', items (set_expanded j true w) !! 0 = Some it' /\
                 _disabled it' = true /\ _expanded it' = false).
Proof.
  apply (disabled_guard_scope (set_disabled 0 true two_item_world) 0
           (mkItem (item_id 0) (Some 0) true true)); reflexivity.
Defined.

Example expand_second_item :
  (fun it => (_expanded it, _disabled it)) <$>
    items (set_expanded 1 true (set_disabled 0 true two_item_world))
  = [(false, true); (true, false)].
Proof. reflexivity. Qed.

Example toggle_disabled_item :
  _expanded <$> items (toggle 0 (set_disabled 0 true two_item_world)) = [true; false].
Proof. reflexivity. Qed.

End AccordionFacts.

(** ** Nested tree control *)
Section TreeFacts.
Import Tree.
Context {A K : Type} `{Countable K}.
Implicit Types (n m : DataNode A) (cs ns : list (DataNode A)).

(** Induction over a data node with the hypothesis available for every
    child of the children array. *)
Lemma DataNode_nested_ind (P : DataNode A -> Prop) :
  (forall v, P (Node v None)) ->
  (forall v cs, Forall P cs -> P (Node v (Some cs))) ->
  forall n, P n.
Proof.
  intros Hnone Hsome. fix IH 1. intros [v [cs|]].
  - apply Hsome. induction cs as [|c cs IHcs]; constructor; [apply IH | exact IHcs].
  - apply Hnone.
Qed.

Lemma elem_of_flat_map {B C : Type} (f : B -> list C) (l : list B) (y : C) :
  y ∈ flat_map f l <-> exists x, x ∈ l /\ y ∈ f x.
Proof.
  rewrite list_elem_of_In, in_flat_map.
  split; intros (x & Hx & Hy); exists x; by rewrite ?list_elem_of_In in *.
Qed.

Lemma fold_getDescendants cs :
  Forall (fun c => forall acc, _getDescendants acc c = acc ++ preorder c) cs ->
  forall acc,
    fold_left (fun acc c => _getDescendants acc c) cs acc = acc ++ flat_map preorder cs.
Proof.
  induction 1 as [|c cs Hc _ IH]; intros acc; simpl.
  - by rewrite app_nil_r.
  - by rewrite Hc, IH, app_assoc.
Qed.

(** The accumulator of [_getDescendants] grows by the preorder of the node. *)
Lemma _getDescendants_preorder n :
  forall acc, _getDescendants acc n = acc ++ preorder n.
Proof.
  induction n as [v|v cs IH] using DataNode_nested_ind; intros acc; simpl.
  - done.
  - rewrite (fold_getDescendants cs IH). by rewrite <- app_assoc.
Qed.

Lemma preorder_head n : preorder n = n :: strict_descendants n.
Proof. by destruct n as [v [cs|]]. Qed.

Lemma getDescendants_strict n : getDescendants n = strict_descendants n.
Proof.
  unfold getDescendants. by rewrite _getDescendants_preorder, preorder_head.
Qed.

Lemma elem_of_preorder n : forall m, m ∈ preorder n <-> m = n \/ descendant_of m n.
Proof.
  induction n as [v|v cs IH] using DataNode_nested_ind; intros m.
  - simpl. rewrite list_elem_of_singleton. split; [by left|].
    intros [?|Hd]; [done|]. inversion Hd as [? ? Hk|? c ? Hk _]; simpl in Hk;
      by apply not_elem_of_nil in Hk.
  - rewrite preorder_head, elem_of_cons. unfold strict_descendants. simpl.
    rewrite elem_of_flat_map. rewrite Forall_forall in IH.
    split; (intros [?|Hd]; [by left|right]).
    + destruct Hd as (c & Hc & Hm). apply (IH c Hc) in Hm as [->|Hm].
      * by apply desc_child.
      * by eapply desc_below.
    + inversion Hd as [? ? Hk|? c ? Hk Hm]; subst; simpl in Hk.
      * exists m. split; [done|]. apply (IH m Hk). by left.
      * exists c. split; [done|]. apply (IH c Hk). by right.
Qed.

Lemma elem_of_strict_descendants n m :
  m ∈ strict_descendants n <-> descendant_of m n.
Proof.
  unfold strict_descendants. rewrite elem_of_flat_map. split.
  - intros (c & Hc & Hm). apply elem_of_preorder in Hm as [->|Hm].
    + by apply desc_child.
    + by eapply desc_below.
  - inversion 1 as [? ? Hk|? c ? Hk Hm]; subst.
    + exists m. split; [done|]. apply elem_of_preorder. by left.
    + exists c. split; [done|]. apply elem_of_preorder. by right.
Qed.

Lemma node_count_child c n : c ∈ kids n -> node_count c < node_count n.
Proof.
  destruct n as [v [cs|]]; [|by intros ?%not_elem_of_nil].
  change (kids (Node v (Some cs))) with cs. simpl.
  induction cs as [|c' cs IH]; [by intros ?%not_elem_of_nil|].
  rewrite elem_of_cons. simpl. intros [->|Hc]; [lia|]. specialize (IH Hc). lia.
Qed.

Lemma node_count_descendant m n : descendant_of m n -> node_count m < node_count n.
Proof.
  induction 1 as [m n Hk|m c n Hk _ IH].
  - by apply node_count_child.
  - apply node_count_child in Hk. lia.
Qed.

(** C3. [getDescendants] returns the strict descendants of the node in
    depth-first preorder: prefixed with the node it is the preorder of the
    subtree, its members are exactly the nodes below the node, and the node
    itself is not among them. *)
Theorem getDescendants_strict_preorder n :
  getDescendants n = strict_descendants n /\
  n :: getDescendants n = preorder n /\
  (forall m, m ∈ getDescendants n <-> descendant_of m n) /\
  n ∉ getDescendants n.
Proof.
  rewrite getDescendants_strict. split; [done|]. split; [by rewrite preorder_head|].
  split; [apply elem_of_strict_descendants|].
  intros Hn%elem_of_strict_descendants%node_count_descendant. lia.
Qed.

Lemma select_union (vs : list K) : forall s : gset K, select vs s = s ∪ list_to_set vs.
Proof.
  unfold select. induction vs as [|v vs IH]; intros s; simpl.
  - set_solver.
  - rewrite IH. set_solver.
Qed.

Lemma fold_allNodes ns : forall acc,
  fold_left (fun accumulator d => accumulator ++ getDescendants d ++ [d]) ns acc
  = acc ++ flat_map (fun d => getDescendants d ++ [d]) ns.
Proof.
  induction ns as [|d ns IH]; intros acc; simpl.
  - by rewrite app_nil_r.
  - by rewrite IH, <- !app_assoc.
Qed.

Lemma elem_of_allNodes ns m :
  m ∈ flat_map (fun d => getDescendants d ++ [d]) ns <-> m ∈ flat_map preorder ns.
Proof.
  rewrite !elem_of_flat_map. split; intros (d & Hd & Hm); exists d; (split; [done|]).
  - rewrite preorder_head, <- getDescendants_strict. set_solver.
  - rewrite preorder_head, <- getDescendants_strict in Hm. set_solver.
Qed.

(** C2. After [expandAll] the expansion model holds exactly the track-by
    values of the root nodes in [dataNodes] and of all their descendants;
    what was selected before the call has been cleared and has no influence
    on the outcome. *)
Theorem expandAll_selects_whole_forest (trackBy : DataNode A -> K)
    (roots : list (DataNode A)) (before : gset K) :
  let after := expansionModel (expandAll trackBy (mkControl roots before)) in
  after = list_to_set (trackBy <$> flat_map preorder roots) /\
  (forall k, k ∈ after <->
     exists n, (n ∈ roots \/ exists r, r ∈ roots /\ descendant_of n r) /\ trackBy n = k) /\
  after = expansionModel (expandAll trackBy (mkControl roots ∅)) /\
  dataNodes (expandAll trackBy (mkControl roots before)) = roots.
Proof.
  cbv zeta. unfold expandAll. simpl. unfold clear.
  rewrite (fold_allNodes roots []), select_union. simpl.
  rewrite (left_id_L (∅ : gset K) (∪)).
  assert (Hset : list_to_set (trackBy <$> flat_map (fun d => getDescendants d ++ [d]) roots)
                 =@{gset K} list_to_set (trackBy <$> flat_map preorder roots)).
  { apply set_eq. intros k. rewrite !elem_of_list_to_set, !list_elem_of_fmap.
    split; intros (m & -> & Hm); exists m; (split; [done|]); by apply elem_of_allNodes. }
  rewrite Hset. split; [done|]. split; [|done].
  intros k. rewrite elem_of_list_to_set, list_elem_of_fmap.
  split.
  - intros (m & -> & Hm). exists m. split; [|done].
    apply elem_of_flat_map in Hm as (r & Hr & Hm).
    apply elem_of_preorder in Hm as [->|Hm]; [by left | right; by exists r].
  - intros (m & [Hm|(r & Hr & Hm)] & <-); exists m; (split; [done|]);
      apply elem_of_flat_map.
    + exists m. split; [done|]. apply elem_of_preorder. by left.
    + exists r. split; [done|]. apply elem_of_preorder. by right.
Qed.

End TreeFacts.

Section TreeExamples.
Import Tree.

Example getDescendants_sample :
  node_value <$> getDescendants sample_tree = [2; 3; 4; 5].
Proof. reflexivity. Qed.

Example expandAll_sample :
  expansionModel (expandAll node_value (mkControl [sample_tree; leaf 7] {[ 9; 10 ]}))
  = {[ 1; 2; 3; 4; 5; 7 ]}.
Proof. apply (bool_decide_unpack _). vm_compute. exact I. Qed.

End TreeExamples.

(** ** Input-name migration of stylesheets *)
Section MigrationFacts.
Import Migration.

Lemma prefix_append (p t : string) :
  String.prefix p t = true <-> exists post, t = p +:+ post.
Proof.
  revert t. induction p as [|a p IH]; intros t; simpl.
  - destruct t; (split; [intros _; eexists; reflexivity | done]).
  - destruct t as [|b t]; [split; [done | by intros [? ?]]|].
    simpl. destruct (Ascii.ascii_dec a b) as [Hab|Hab].
    + rewrite IH. split; intros [post Hp]; exists post.
      * subst. reflexivity.
      * change (String a p +:+ post) with (String a (p +:+ post)) in Hp. congruence.
    + split; [done|]. intros [post Hp].
      change (String a p +:+ post) with (String a (p +:+ post)) in Hp. congruence.
Qed.

Lemma occurs_at_nil pat off :
  occurs_at "" pat off <-> pat = "" /\ off = 0.
Proof.
  split.
  - intros (pre & post & Heq & Hlen). destruct pre; [|done].
    destruct pat; [|done]. by simpl in Hlen.
  - intros [-> ->]. by exists "", "".
Qed.

Lemma occurs_at_cons a t pat off :
  occurs_at (String a t) pat off <->
  (off = 0 /\ String.prefix pat (String a t) = true) \/
  (exists off', off = S off' /\ occurs_at t pat off').
Proof.
  split.
  - intros (pre & post & Heq & Hlen). destruct pre as [|b pre].
    + left. split; [done|]. apply prefix_append. exists post. exact Heq.
    + right. exists (String.length pre). split; [by rewrite <- Hlen|].
      change (String a t = String b (pre +:+ pat +:+ post)) in Heq.
      injection Heq as _ Heq. by exists pre, post.
  - intros [[-> Hp]|(off' & -> & pre & post & -> & Hlen)].
    + apply prefix_append in Hp as [post Hp]. by exists "", post.
    + exists (String a pre), post. simpl. by rewrite Hlen.
Qed.

(** The search finds exactly the occurrences. *)
Lemma substring_indices_from_spec search input : forall off i,
  i ∈ substring_indices_from off input search <->
  exists k, i = off + k /\ occurs_at input search k.
Proof.
  induction input as [|a t IH]; intros off i; cbn [substring_indices_from].
  - rewrite app_nil_r. destruct search; simpl.
    + rewrite list_elem_of_singleton. split.
      * intros ->. exists 0. split; [lia|]. by apply occurs_at_nil.
      * intros (k & -> & Hk). apply occurs_at_nil in Hk as [_ ->]. lia.
    + split; [by intros ?%not_elem_of_nil|].
      intros (k & _ & Hk). by apply occurs_at_nil in Hk as [? _].
  - rewrite elem_of_app, IH. split.
    + intros [Hi|(k & -> & Hk)].
      * exists 0. destruct (String.prefix search (String a t)) eqn:Hp.
        -- apply list_elem_of_singleton in Hi as ->. split; [lia|].
           apply occurs_at_cons. by left.
        -- by apply not_elem_of_nil in Hi.
      * exists (S k). split; [lia|]. apply occurs_at_cons. right. by exists k.
    + intros (k & -> & Hk). apply occurs_at_cons in Hk as [[-> Hp]|(k' & -> & Hk)].
      * left. rewrite Hp, Nat.add_0_r. apply list_elem_of_here.
      * right. exists k'. split; [lia | done].
Qed.

Lemma substring_indices_spec : finds_all_occurrences substring_indices.
Proof.
  intros input search i.
  unfold substring_indices. rewrite substring_indices_from_spec.
  split; [by intros (k & -> & Hk) | intros Hk; by exists i].
Qed.

Lemma flat_map_middle {B C : Type} (f : B -> list C) (l : list B) (x : B) :
  x ∈ l -> exists before after, flat_map f l = before ++ f x ++ after.
Proof.
  intros (l1 & l2 & ->)%list_elem_of_split.
  exists (flat_map f l1), (flat_map f l2). by rewrite flat_map_app.
Qed.

Lemma substring_indices_NoDup : finds_each_once substring_indices.
Proof.
  intros input search. unfold substring_indices. generalize 0.
  induction input as [|a t IH]; intros off; cbn [substring_indices_from].
  - rewrite app_nil_r. destruct (String.prefix search ""); [|constructor].
    apply NoDup_singleton.
  - apply NoDup_app. split; [|split; [|apply IH]].
    + destruct (String.prefix search (String a t)); [apply NoDup_singleton | constructor].
    + intros i Hi Hrest.
      apply substring_indices_from_spec in Hrest as (k & -> & _).
      destruct (String.prefix search (String a t)); [|by apply not_elem_of_nil in Hi].
      apply list_elem_of_singleton in Hi. lia.
Qed.

Lemma flat_map_map {B C E : Type} (g : B -> C) (f : C -> list E) (l : list B) :
  flat_map f (map g l) = flat_map (fun x => f (g x)) l.
Proof. induction l as [|x l IH]; simpl; [done | by rewrite IH]. Qed.

(** C4. For every entry of the upgrade data, each occurrence of the
    attribute selector "[" + replace + "]" in the stylesheet content is
    replaced: the recorder receives, next to each other, a removal of the
    length of that selector and an insertion of "[" + replaceWith + "]" at
    the offset of the occurrence in the file. Nothing else is edited: every
    recorded edit belongs to such a replacement. And each occurrence is
    replaced once: the edits are, entry after entry, exactly the
    replacements at the offsets where the selector of the entry occurs,
    every offset taken once. *)
Theorem stylesheet_selectors_replaced (findAllSubstringIndices : string -> string -> list nat)
    (data : list InputNameUpgradeData) (stylesheet : ResolvedResource) :
  finds_all_occurrences findAllSubstringIndices ->
  finds_each_once findAllSubstringIndices ->
  let edits := visitStylesheet findAllSubstringIndices data stylesheet in
  let occurs name off :=
    occurs_at (content stylesheet) ("[" +:+ replace name +:+ "]") off in
  let replaced name off :=
    [Remove (filePath stylesheet) (start stylesheet + off)
            (String.length ("[" +:+ replace name +:+ "]"));
     InsertRight (filePath stylesheet) (start stylesheet + off)
                 ("[" +:+ replaceWith name +:+ "]")] in
  (forall name off,
     name ∈ data -> occurs name off ->
     exists before after, edits = before ++ replaced name off ++ after) /\
  (forall e,
     e ∈ edits ->
     exists name off, name ∈ data /\ occurs name off /\ e ∈ replaced name off) /\
  (exists offsets : InputNameUpgradeData -> list nat,
     (forall name,
        NoDup (offsets name) /\ forall off, off ∈ offsets name <-> occurs name off) /\
     edits = flat_map (fun name => flat_map (replaced name) (offsets name)) data).
Proof.
  intros Hfind Honce. cbv zeta. unfold visitStylesheet.
  change (fun name : string => "[" +:+ name +:+ "]") with selector.
  repeat split.
  - intros name off Hname Hocc.
    apply Hfind in Hocc.
    destruct (flat_map_middle
      (fun index => _replaceInputName (filePath stylesheet) index
         (String.length (selector (replace name))) (selector (replaceWith name)))
      (map (fun offset => start stylesheet + offset)
         (findAllSubstringIndices (content stylesheet) (selector (replace name))))
      (start stylesheet + off)) as (b1 & a1 & Hin).
    { apply list_elem_of_In, in_map, list_elem_of_In, Hocc. }
    apply list_elem_of_split in Hname as (d1 & d2 & ->).
    rewrite flat_map_app. cbn [flat_map]. rewrite Hin.
    set (rest := flat_map _ d2). set (first := flat_map _ d1).
    exists (first ++ b1), (a1 ++ rest). unfold _replaceInputName.
    by rewrite <- !app_assoc.
  - intros e (name & Hname & He)%elem_of_flat_map.
    apply elem_of_flat_map in He as (index & Hindex & He).
    apply list_elem_of_In, in_map_iff in Hindex as (off & <- & Hoff).
    exists name, off. split; [done|]. split; [|done].
    by apply Hfind, list_elem_of_In.
  - exists (fun name =>
              findAllSubstringIndices (content stylesheet) (selector (replace name))).
    split.
    + intros name. split; [apply Honce|]. intros off. apply Hfind.
    + apply flat_map_ext. intros name. by rewrite flat_map_map.
Qed.

Lemma stylesheet_selectors_replaced_witness :
  let data := [mkName "align" "position"] in
  let stylesheet := tabs_stylesheet in
  let edits := visitStylesheet substring_indices data stylesheet in
  let occurs name off :=
    occurs_at (content stylesheet) ("[" +:+ replace name +:+ "]") off in
  let replaced name off :=
    [Remove (filePath stylesheet) (start stylesheet + off)
            (String.length ("[" +:+ replace name +:+ "]"));
     InsertRight (filePath stylesheet) (start stylesheet + off)
                 ("[" +:+ replaceWith name +:+ "]")] in
  (forall name off,
     name ∈ data -> occurs name off ->
     exists before after, edits = before ++ replaced name off ++ after) /\
  (forall e,
     e ∈ edits ->
     exists name off, name ∈ data /\ occurs name off /\ e ∈ replaced name off) /\
  (exists offsets : InputNameUpgradeData -> list nat,
     (forall name,
        NoDup (offsets name) /\ forall off, off ∈ offsets name <-> occurs name off) /\
     edits = flat_map (fun name => flat_map (replaced name) (offsets name)) data).
Proof.
  apply (stylesheet_selectors_replaced substring_indices
           [mkName "align" "position"] tabs_stylesheet).
  - apply substring_indices_spec.
  - apply substring_indices_NoDup.
Defined.


Example overlapping_occurrences :
  substring_indices "[a][a][a]" (selector "a][a") = [0; 3].
Proof. reflexivity. Qed.

End MigrationFacts.

(** ** Typing into an element *)
Section TypingFacts.
Import Typing.
Variable PERIOD : nat.

Lemma append_nil_r (a : string) : a +:+ "" = a.
Proof.
  induction a as [|c a IH]; [done|].
  change (String c a +:+ "") with (String c (a +:+ "")). by rewrite IH.
Qed.

Lemma append_assoc (a b c : string) : (a +:+ b) +:+ c = a +:+ (b +:+ c).
Proof.
  induction a as [|x a IH]; [done|].
  change (String x ((a +:+ b) +:+ c) = String x (a +:+ (b +:+ c))). by rewrite IH.
Qed.

Lemma fold_concat_keys (ls : list (list Key)) : forall acc,
  fold_left (fun arr k => arr ++ k) ls acc = acc ++ concat ls.
Proof.
  induction ls as [|l ls IH]; intros acc; simpl.
  - by rewrite app_nil_r.
  - by rewrite IH, app_assoc.
Qed.

Lemma keys_reduce (rest : list Arg) :
  fold_left (fun arr k => arr ++ k) (map arg_keys rest) [] = keys_of rest.
Proof.
  rewrite fold_concat_keys. unfold keys_of. by rewrite flat_map_concat_map.
Qed.

Lemma str_or_empty (o : option string) : str_or o "" = default "" o.
Proof. destruct o as [v|]; [|done]. unfold str_or. by case_decide. Qed.

Lemma value_reduce (keys : list Key) : forall acc,
  fold_left (fun value k => value +:+ str_or (key k) "") keys acc
  = acc +:+ typed_value keys.
Proof.
  induction keys as [|k keys IH]; intros acc; cbn [fold_left].
  - symmetry. apply append_nil_r.
  - rewrite IH, str_or_empty, append_assoc. reflexivity.
Qed.

Lemma number_not_incremental : "number" ∉ incrementalInputTypes.
Proof. apply (bool_decide_unpack _). by vm_compute. Qed.

Lemma no_period_forallb (keys : list Key) :
  forallb (fun k => negb (bool_decide (key k = Some "."))
                    && negb (bool_decide (keyCode k = Some PERIOD))) keys = true
  <-> Forall (fun k => ~ period_key PERIOD k) keys.
Proof.
  rewrite forallb_forall, Forall_forall. unfold period_key.
  split; intros Hall k Hk.
  - apply list_elem_of_In, Hall in Hk.
    apply andb_true_iff in Hk as [H1 H2].
    apply negb_true_iff, bool_decide_eq_false in H1, H2. tauto.
  - apply list_elem_of_In, Hall in Hk.
    apply andb_true_iff.
    split; apply negb_true_iff, bool_decide_eq_false; tauto.
Qed.

(** The flag computed by the code is the stated condition on the input type
    and the keys. *)
Lemma enterValueIncrementally_condition (inputType : string) (keys : list Key) :
  enterValueIncrementally PERIOD inputType keys = true
  <-> incremental_condition PERIOD inputType keys.
Proof.
  unfold enterValueIncrementally, incremental_condition.
  destruct (decide (inputType = "number")) as [->|Hty].
  - rewrite (bool_decide_eq_true_2 ("number" = "number")) by done.
    destruct keys as [|k keys].
    + change (0 <? length []) with false. cbn [andb].
      rewrite bool_decide_eq_true. split; [by left|].
      intros [?|(_ & ? & _)]; done.
    + change (0 <? length (k :: keys)) with true. cbn [andb].
      rewrite no_period_forallb. split.
      * intros Hall. right. done.
      * intros [Hin|(_ & _ & Hall)]; [by apply number_not_incremental in Hin | done].
  - rewrite (bool_decide_eq_false_2 (inputType = "number")) by done. cbn [andb].
    rewrite bool_decide_eq_true. split; [by left|].
    intros [?|(? & _)]; done.
Qed.

Lemma type_key_incrementally isInput modifiers trace k :
  type_key isInput true modifiers trace k
  = trace ++
    [KeyboardEvent "keydown" (keyCode k) (key k) modifiers;
     KeyboardEvent "keypress" (keyCode k) (key k) modifiers] ++
    (if isInput && single_character k
     then [AppendValue (default "" (key k)); FakeEvent "input"] else []) ++
    [KeyboardEvent "keyup" (keyCode k) (key k) modifiers].
Proof.
  unfold type_key. cbv zeta.
  assert (Hsingle : truthy (key k) && bool_decide (String.length (default "" (key k)) = 1)
                    = single_character k).
  { unfold truthy, single_character. destruct (key k) as [c|]; [|done]. simpl.
    destruct c as [|c0 c]; [done|]. by rewrite bool_decide_eq_false_2. }
  rewrite <- andb_assoc, Hsingle.
  destruct (isInput && single_character k); by rewrite <- !app_assoc.
Qed.

Lemma type_key_whole isInput modifiers trace k :
  type_key isInput false modifiers trace k
  = trace ++
    [KeyboardEvent "keydown" (keyCode k) (key k) modifiers;
     KeyboardEvent "keypress" (keyCode k) (key k) modifiers;
     KeyboardEvent "keyup" (keyCode k) (key k) modifiers].
Proof.
  unfold type_key. cbv zeta. case_match; by rewrite <- !app_assoc.
Qed.

Lemma fold_appending {X Y : Type} (step : list Y -> X -> list Y) (f : X -> list Y)
    (xs : list X) :
  (forall acc x, step acc x = acc ++ f x) ->
  forall acc, fold_left step xs acc = acc ++ flat_map f xs.
Proof.
  intros Hstep. induction xs as [|x xs IH]; intros acc; simpl.
  - by rewrite app_nil_r.
  - by rewrite IH, Hstep, app_assoc.
Qed.

(** What [typeKeys] does, for every element, modifiers and keys. *)
Lemma typeKeys_entry_behaviour element modifiers rest :
  typeKeys PERIOD element modifiers rest
  = entry_behaviour PERIOD element modifiers (keys_of rest).
Proof.
  unfold typeKeys, entry_behaviour. cbv zeta. rewrite keys_reduce.
  pose proof (enterValueIncrementally_condition
                (str_or (type_attribute element) "text") (keys_of rest)) as Hcond.
  destruct (enterValueIncrementally PERIOD _ _) eqn:Hflag; cbn [negb].
  - rewrite decide_True by (by apply Hcond).
    rewrite (fold_appending _ _ _ (type_key_incrementally _ modifiers)).
    reflexivity.
  - rewrite decide_False by (intros Hc; apply Hcond in Hc; congruence).
    rewrite (fold_appending _ _ _ (type_key_whole _ modifiers)).
    rewrite value_reduce. unfold whole_value_entry. reflexivity.
Qed.

(** C5, as amended. [typeInElement] enters the value incrementally exactly
    when the type attribute, taken as 'text' when absent or empty, is one of
    text, email, hidden, password, search, tel, url, or is 'number' with a
    non-empty key list without a '.' key. Entering incrementally means: for
    each key its keydown and keypress, then, on an input or textarea element
    and for a key that is a single character, the character appended and an
    'input' event, then the keyup. In every other case the whole value is
    assigned once before any key event and one 'input' event follows the
    key events. *)
Theorem typeInElement_entry_mode element modifiers rest :
  let keys := keys_of rest in
  typeKeys PERIOD element modifiers rest =
  if decide (incremental_condition PERIOD (str_or (type_attribute element) "text") keys)
  then incremental_entry (isTextInput element) modifiers keys
  else whole_value_entry modifiers keys.
Proof. apply typeKeys_entry_behaviour. Qed.

End TypingFacts.

Section TypingExamples.
Import Typing.

(** C5 as stated fails on an element that is no text input: the type
    attribute is absent, so the stated condition holds, yet nothing is
    appended and no 'input' event is dispatched. *)
Lemma typeInElement_not_a_text_input :
  typeKeys 190 div_element no_modifiers [ArgString "a"]
  ≠ stated_behaviour 190 div_element no_modifiers (keys_of [ArgString "a"]).
Proof. vm_compute. discriminate. Qed.

Example typeInElement_div :
  typeInElement 190 div_element [ArgString "a"]
  = Some [TriggerFocus;
          KeyboardEvent "keydown" (Some 65) (Some "a") no_modifiers;
          KeyboardEvent "keypress" (Some 65) (Some "a") no_modifiers;
          KeyboardEvent "keyup" (Some 65) (Some "a") no_modifiers].
Proof. reflexivity. Qed.

Example typeInElement_empty_type :
  typeInElement 190 untyped_input [ArgString "a"]
  = Some [TriggerFocus;
          KeyboardEvent "keydown" (Some 65) (Some "a") no_modifiers;
          KeyboardEvent "keypress" (Some 65) (Some "a") no_modifiers;
          AppendValue "a"; FakeEvent "input";
          KeyboardEvent "keyup" (Some 65) (Some "a") no_modifiers].
Proof. reflexivity. Qed.

Example typeInElement_decimal_number :
  typeInElement 190 number_input [ArgModifiers no_modifiers; ArgString "1."]
  = Some [TriggerFocus; AssignValue "1.";
          KeyboardEvent "keydown" (Some 49) (Some "1") no_modifiers;
          KeyboardEvent "keypress" (Some 49) (Some "1") no_modifiers;
          KeyboardEvent "keyup" (Some 49) (Some "1") no_modifiers;
          KeyboardEvent "keydown" (Some 46) (Some ".") no_modifiers;
          KeyboardEvent "keypress" (Some 46) (Some ".") no_modifiers;
          KeyboardEvent "keyup" (Some 46) (Some ".") no_modifiers;
          FakeEvent "input"].
Proof. reflexivity. Qed.

Example typeInElement_no_arguments : typeInElement 190 number_input [] = None.
Proof. reflexivity. Qed.

End TypingExamples.

(** ** Fullscreen overlay container *)
Section FullscreenFacts.
Import Fullscreen FullscreenListener.

Lemma getFullscreenElement_first_set (d : Document) :
  getFullscreenElement d =
  first_set [fullscreenElement d; webkitFullscreenElement d;
             mozFullScreenElement d; msFullscreenElement d].
Proof.
  unfold getFullscreenElement.
  by destruct (fullscreenElement d), (webkitFullscreenElement d),
              (mozFullScreenElement d), (msFullscreenElement d).
Qed.

Lemma moved_to_appended (d : Document) (parent container : Element) :
  appended_to (moved_to parent container d) parent container.
Proof.
  unfold appended_to, children_of, moved_to. simpl. split.
  - rewrite lookup_insert_eq. simpl. apply last_snoc.
  - intros other Hne. rewrite lookup_insert_ne by done.
    rewrite lookup_fmap. destruct (childNodes d !! other) as [l|]; simpl.
    + rewrite list_elem_of_filter. tauto.
    + apply not_elem_of_nil.
Qed.

(** *** [contains] finds the descendants *)

Lemma descendants_sound (d : Document) (other : Element) : forall depth node,
  other ∈ inclusive_descendants depth d node -> inclusive_descendant d node other.
Proof.
  induction depth as [|depth IH]; intros node; cbn [inclusive_descendants].
  - intros ->%list_elem_of_singleton. apply rtc_refl.
  - intros [->|Hin]%elem_of_cons; [apply rtc_refl|].
    apply elem_of_flat_map in Hin as (child & Hchild & Hother).
    eapply rtc_l; [exact Hchild | by apply IH].
Qed.

Lemma walk_of_descendant (d : Document) (node other : Element) :
  inclusive_descendant d node other -> exists l, walk d node l other.
Proof.
  induction 1 as [x|x y z Hxy _ [l Hl]].
  - exists []. constructor.
  - exists (x :: l). by econstructor.
Qed.

Lemma walk_app_inv (d : Document) (l1 l2 : list Element) (z : Element) : forall x,
  walk d x (l1 ++ l2) z -> exists y, walk d x l1 y /\ walk d y l2 z.
Proof.
  induction l1 as [|a l1 IH]; intros x Hw.
  - exists x. split; [constructor | done].
  - inversion Hw as [|x' y l' z' Hxy Hrest]; subst.
    destruct (IH y Hrest) as (y' & H1 & H2).
    exists y'. split; [by econstructor | done].
Qed.

Lemma walk_app (d : Document) (l1 l2 : list Element) (y z : Element) : forall x,
  walk d x l1 y -> walk d y l2 z -> walk d x (l1 ++ l2) z.
Proof.
  induction l1 as [|a l1 IH]; intros x H1 H2.
  - by inversion H1; subst.
  - inversion H1 as [|x' y' l' z' Hxy Hrest]; subst.
    simpl. econstructor; [exact Hxy | by apply IH].
Qed.

Lemma walk_head (d : Document) (x a z : Element) (l : list Element) :
  walk d x (a :: l) z -> x = a.
Proof. by inversion 1. Qed.

Lemma walk_leaves_parents (d : Document) (x z : Element) (l : list Element) :
  walk d x l z -> forall a, a ∈ l -> is_Some (childNodes d !! a).
Proof.
  induction 1 as [x|x y l z Hxy _ IH]; intros a Ha.
  - by apply not_elem_of_nil in Ha.
  - apply elem_of_cons in Ha as [->|Ha]; [|by apply IH].
    unfold child_of, children_of in Hxy.
    destruct (childNodes d !! x); [done|]. by apply not_elem_of_nil in Hxy.
Qed.

Lemma repeated_element (l : list Element) :
  ~ NoDup l -> exists l1 a l2 l3, l = l1 ++ a :: l2 ++ a :: l3.
Proof.
  induction l as [|a l IH]; intros Hdup.
  - destruct Hdup. constructor.
  - destruct (decide (a ∈ l)) as [Hin|Hout].
    + apply list_elem_of_split in Hin as (l2 & l3 & ->). by exists [], a, l2, l3.
    + destruct IH as (l1 & b & l2 & l3 & ->).
      { intros Hl. apply Hdup. by constructor. }
      by exists (a :: l1), b, l2, l3.
Qed.

(** A way that leaves a node twice can be cut short. *)
Lemma walk_without_repetition (d : Document) (z : Element) : forall n l x,
  length l <= n -> walk d x l z -> exists l', NoDup l' /\ walk d x l' z.
Proof.
  induction n as [|n IH]; intros l x Hlen Hw.
  - destruct l; [|simpl in Hlen; lia]. exists []. split; [constructor | done].
  - destruct (decide (NoDup l)) as [Hnd|Hdup]; [by exists l|].
    destruct (repeated_element l Hdup) as (l1 & a & l2 & l3 & ->).
    apply walk_app_inv in Hw as (y1 & H1 & Hw).
    pose proof (walk_head _ _ _ _ _ Hw) as ->.
    change (a :: l2 ++ a :: l3) with ((a :: l2) ++ a :: l3) in Hw.
    apply walk_app_inv in Hw as (y2 & _ & H3).
    pose proof (walk_head _ _ _ _ _ H3) as ->.
    apply (IH (l1 ++ a :: l3) x); [|by eapply walk_app].
    rewrite !length_app in *. simpl in *. rewrite length_app in Hlen.
    simpl in Hlen. lia.
Qed.

Lemma walk_length (d : Document) (x z : Element) (l : list Element) :
  NoDup l -> walk d x l z -> length l <= size (childNodes d).
Proof.
  intros Hnd Hw. rewrite <- length_map_to_list.
  rewrite <- (length_fmap fst (map_to_list (childNodes d))).
  apply submseteq_length, NoDup_submseteq; [done|].
  intros a Ha. destruct (walk_leaves_parents d x z l Hw a Ha) as [children Hlook].
  apply list_elem_of_fmap. exists (a, children). split; [done|].
  by apply elem_of_map_to_list.
Qed.

Lemma walk_descendants (d : Document) (z : Element) : forall l depth x,
  length l <= depth -> walk d x l z -> z ∈ inclusive_descendants depth d x.
Proof.
  induction l as [|a l IH]; intros depth x Hlen Hw.
  - inversion Hw; subst. destruct depth; apply list_elem_of_here.
  - destruct depth as [|depth]; [simpl in Hlen; lia|].
    inversion Hw as [|x' y l' z' Hxy Hrest]; subst.
    cbn [inclusive_descendants]. apply list_elem_of_further.
    apply elem_of_flat_map. exists y. split; [exact Hxy|].
    apply IH; [simpl in Hlen; lia | done].
Qed.

(** [contains] tells exactly whether the other node is the node or one of
    its descendants. *)
Lemma contains_spec (d : Document) (node other : Element) :
  contains d node other = true <-> inclusive_descendant d node other.
Proof.
  unfold contains. rewrite bool_decide_eq_true. split.
  - apply descendants_sound.
  - intros (l & Hw)%walk_of_descendant.
    destruct (walk_without_repetition d other (length l) l node (le_n _) Hw)
      as (l' & Hnd & Hw').
    eapply walk_descendants; [|exact Hw']. by eapply walk_length.
Qed.

(** [appendChild] throws exactly when the child is the parent or contains
    it, and moves the child otherwise. *)
Lemma appendChild_cases (parent child : Element) (d : Document) :
  (inclusive_descendant d child parent /\
   appendChild parent child d = inl HierarchyRequestError) \/
  (~ inclusive_descendant d child parent /\
   appendChild parent child d = inr (moved_to parent child d)).
Proof.
  unfold appendChild. destruct (contains d child parent) eqn:Hc.
  - left. split; [by apply contains_spec | done].
  - right. split; [|done]. intros Hin%contains_spec. congruence.
Qed.

(** The two ways the listener can go, and the parent it moves the container
    to. *)
Lemma adjust_cases (oc : FullscreenOverlayContainer) (container : Element) :
  _containerElement oc = Some container ->
  let parent := default (body (_document oc)) (getFullscreenElement (_document oc)) in
  (inclusive_descendant (_document oc) container parent /\
   _adjustParentForFullscreenChange oc = inl HierarchyRequestError) \/
  (~ inclusive_descendant (_document oc) container parent /\
   _adjustParentForFullscreenChange oc
   = inr (set_document (moved_to parent container (_document oc)) oc)).
Proof.
  intros Hc. cbv zeta. unfold _adjustParentForFullscreenChange.
  rewrite Hc. cbv zeta.
  destruct (appendChild_cases
              (default (body (_document oc)) (getFullscreenElement (_document oc)))
              container (_document oc)) as [[Hin ->]|[Hout ->]];
    [by left | by right].
Qed.

Lemma adjust_none (oc : FullscreenOverlayContainer) :
  _containerElement oc = None -> _adjustParentForFullscreenChange oc = inr oc.
Proof. intros Hc. unfold _adjustParentForFullscreenChange. by rewrite Hc. Qed.

Lemma run_listener_same_setting (oc : FullscreenOverlayContainer) :
  same_setting oc (run_listener oc).
Proof.
  unfold run_listener.
  destruct (_containerElement oc) as [container|] eqn:Hc.
  - destruct (adjust_cases oc container Hc) as [[_ ->]|[_ ->]]; [done|].
    unfold same_setting. simpl. by repeat split.
  - by rewrite (adjust_none oc Hc).
Qed.

Lemma run_listener_same_registration (oc : FullscreenOverlayContainer) :
  same_registration oc (run_listener oc).
Proof.
  unfold run_listener.
  destruct (_containerElement oc) as [container|] eqn:Hc.
  - by destruct (adjust_cases oc container Hc) as [[_ ->]|[_ ->]].
  - by rewrite (adjust_none oc Hc).
Qed.

Lemma listener_rounds_same_setting {X : Type} (rounds : list X) : forall oc,
  same_setting oc (foldl (fun oc' _ => run_listener oc') oc rounds).
Proof.
  induction rounds as [|r rounds IH]; intros oc; simpl; [done|].
  destruct (IH (run_listener oc)) as (H1 & H2 & H3 & H4).
  destruct (run_listener_same_setting oc) as (G1 & G2 & G3 & G4).
  unfold same_setting. by rewrite H1, H2, H3, H4.
Qed.

Lemma listener_rounds_same_registration {X : Type} (rounds : list X) : forall oc,
  same_registration oc (foldl (fun oc' _ => run_listener oc') oc rounds).
Proof.
  induction rounds as [|r rounds IH]; intros oc; simpl; [done|].
  destruct (IH (run_listener oc)) as (H1 & H2 & H3).
  destruct (run_listener_same_registration oc) as (G1 & G2 & G3).
  unfold same_registration. by rewrite H1, H2, H3.
Qed.

Lemma script_same (parent child : Element) (oc : FullscreenOverlayContainer) :
  same_setting oc (script_appendChild parent child oc) /\
  same_registration oc (script_appendChild parent child oc).
Proof.
  unfold script_appendChild.
  by destruct (appendChild_cases parent child (_document oc)) as [[_ ->]|[_ ->]].
Qed.

(** *** The created element is new *)

Lemma createElement_fresh (d : Document) (n : Element) :
  n ∈ nodes d -> n < createElement d.
Proof. intros Hn%max_list_elem_of_le. unfold createElement. lia. Qed.

Lemma createElement_not_body (d : Document) : body d ≠ createElement d.
Proof.
  intros Heq.
  assert (Hlt : body d < createElement d).
  { apply createElement_fresh. unfold nodes. apply list_elem_of_here. }
  lia.
Qed.

Lemma fullscreenElement_known (d : Document) (e : Element) :
  getFullscreenElement d = Some e -> e ∈ nodes d.
Proof.
  unfold getFullscreenElement, nodes. intros He. apply list_elem_of_further.
  destruct (fullscreenElement d) as [e1|]; simpl in *.
  { injection He as ->. apply list_elem_of_here. }
  destruct (webkitFullscreenElement d) as [e2|]; simpl in *.
  { injection He as ->. apply list_elem_of_here. }
  destruct (mozFullScreenElement d) as [e3|]; simpl in *.
  { injection He as ->. apply list_elem_of_here. }
  destruct (msFullscreenElement d) as [e4|]; simpl in *; [|done].
  injection He as ->. apply list_elem_of_here.
Qed.

Lemma createElement_not_parent (d : Document) :
  default (body d) (getFullscreenElement d) ≠ createElement d.
Proof.
  destruct (getFullscreenElement d) as [e|] eqn:He.
  - intros Heq. pose proof (createElement_fresh d e (fullscreenElement_known d e He)).
    simpl in Heq. unfold createElement in *. lia.
  - apply createElement_not_body.
Qed.

Lemma createElement_no_children (d : Document) :
  childNodes d !! createElement d = None.
Proof.
  destruct (childNodes d !! createElement d) as [l|] eqn:Hl; [|done].
  pose proof (createElement_fresh d (createElement d)) as Hlt.
  assert (Hin : createElement d ∈ nodes d); [|apply Hlt in Hin; lia].
  unfold nodes. apply list_elem_of_further.
  rewrite !elem_of_app. do 4 right.
  apply elem_of_flat_map. exists (createElement d, l). split.
  - by apply elem_of_map_to_list.
  - apply list_elem_of_here.
Qed.

Lemma childless_descendant (d : Document) (node other : Element) :
  children_of d node = [] -> other ≠ node -> ~ inclusive_descendant d node other.
Proof.
  intros Hnone Hne Hin. destruct Hin as [|x y z Hxy _]; [done|].
  unfold child_of in Hxy. rewrite Hnone in Hxy. by apply not_elem_of_nil in Hxy.
Qed.

Lemma moved_to_childless (d : Document) (parent node : Element) :
  childNodes d !! node = None -> parent ≠ node ->
  children_of (moved_to parent node d) node = [].
Proof.
  intros Hnone Hne. unfold children_of, moved_to. simpl.
  rewrite lookup_insert_ne by done. by rewrite lookup_fmap, Hnone.
Qed.

(** [_createContainer] meets no exception: the element it creates is
    appended to the body and then to the parent the listener would choose,
    and the listener is registered. *)
Lemma createContainer_completes (oc : FullscreenOverlayContainer) :
  let d := _document oc in
  let container := createElement d in
  let parent := default (body d) (getFullscreenElement d) in
  _createContainer oc =
  Completed (_addFullscreenChangeListener
               (mkContainer (moved_to parent container (moved_to (body d) container d))
                            (Some container) (_fullScreenEventName oc)
                            (_fullScreenListener oc))).
Proof.
  cbv zeta. unfold _createContainer, super_createContainer.
  destruct (appendChild_cases (body (_document oc)) (createElement (_document oc))
              (_document oc)) as [[Hin _]|[_ ->]].
  { exfalso. revert Hin. apply childless_descendant.
    - unfold children_of. by rewrite createElement_no_children.
    - apply createElement_not_body. }
  set (oc1 := mkContainer _ _ _ _).
  destruct (adjust_cases oc1 (createElement (_document oc)) eq_refl) as [[Hin _]|[_ ->]];
    [|done].
  exfalso. simpl in Hin.
  change (getFullscreenElement (moved_to _ _ (_document oc)))
    with (getFullscreenElement (_document oc)) in Hin.
  revert Hin. apply childless_descendant.
  - apply moved_to_childless; [apply createElement_no_children|].
    apply createElement_not_body.
  - apply createElement_not_parent.
Qed.

Lemma getEventName_document (oc : FullscreenOverlayContainer) :
  _document (snd (_getEventName oc)) = _document oc /\
  _containerElement (snd (_getEventName oc)) = _containerElement oc /\
  _fullScreenListener (snd (_getEventName oc)) = _fullScreenListener oc /\
  _fullScreenEventName (snd (_getEventName oc)) = fst (_getEventName oc).
Proof.
  unfold _getEventName.
  destruct (_fullScreenEventName oc) eqn:Hn; simpl; repeat split; done.
Qed.

Lemma addListener_container (oc : FullscreenOverlayContainer) :
  _containerElement (_addFullscreenChangeListener oc) = _containerElement oc.
Proof.
  unfold _addFullscreenChangeListener, _getEventName.
  destruct (_fullScreenEventName oc); simpl; [done|].
  by repeat case_match.
Qed.

Lemma addListener_childNodes oc :
  childNodes (_document (_addFullscreenChangeListener oc)) = childNodes (_document oc).
Proof.
  unfold _addFullscreenChangeListener.
  destruct (getEventName_document oc) as (Hd & _).
  destruct (_getEventName oc) as [eventName oc1]. simpl in *.
  destruct eventName; simpl; by rewrite Hd.
Qed.

Lemma createContainer_container (oc : FullscreenOverlayContainer) :
  _containerElement (state_of (_createContainer oc))
  = Some (createElement (_document oc)).
Proof.
  pose proof (createContainer_completes oc) as Hc. cbv zeta in Hc.
  rewrite Hc. simpl. by rewrite addListener_container.
Qed.

Lemma super_ngOnDestroy_same (oc : FullscreenOverlayContainer) :
  _containerElement (super_ngOnDestroy oc) = _containerElement oc /\
  listeners (_document (super_ngOnDestroy oc)) = listeners (_document oc).
Proof. unfold super_ngOnDestroy. by destruct (_containerElement oc) eqn:Hc. Qed.

Lemma container_present_step (oc oc' : FullscreenOverlayContainer) :
  step oc oc' -> container_present oc -> container_present oc'.
Proof.
  intros Hstep Hinv.
  destruct Hstep as [oc|std webkit moz ms oc|name oc|oc|parent child oc].
  - right. by rewrite createContainer_container.
  - exact Hinv.
  - destruct (listener_rounds_same_setting
                (filter (fun l => l = name) (listeners (_document oc))) oc)
      as (H1 & H2 & _).
    unfold container_present, dispatchEvent. by rewrite H1, H2.
  - destruct (super_ngOnDestroy_same oc) as [Hc Hl].
    unfold container_present, ngOnDestroy in *.
    destruct (_fullScreenEventName (super_ngOnDestroy oc)) as [name|];
      [destruct (_fullScreenListener (super_ngOnDestroy oc))|]; simpl;
      rewrite ?Hc, ?Hl; try done.
    destruct Hinv as [->|Hsome]; [by left | by right].
  - destruct (script_same parent child oc) as [(H1 & H2 & _) _].
    unfold container_present. by rewrite H1, H2.
Qed.

Lemma reachable_container_present (oc : FullscreenOverlayContainer) :
  reachable oc -> container_present oc.
Proof.
  induction 1 as [d|oc oc' _ IH Hstep]; [by left | by eapply container_present_step].
Qed.

(** *** The registration of the listener *)

Lemma remove_listener_single (name : string) :
  remove_listener name [name] = [].
Proof. simpl. by rewrite decide_True. Qed.

Lemma addListener_one_registration (oc : FullscreenOverlayContainer) :
  (_fullScreenListener oc = false -> listeners (_document oc) = []) ->
  one_registration oc ->
  one_registration (_addFullscreenChangeListener oc) /\
  (_fullScreenListener (_addFullscreenChangeListener oc) = false ->
   listeners (_document (_addFullscreenChangeListener oc)) = []).
Proof.
  intros Hflag Hone. unfold _addFullscreenChangeListener.
  destruct (getEventName_document oc) as (Hd & _ & Hl & Hn).
  destruct (_getEventName oc) as [eventName oc1] eqn:Hget. simpl in *.
  destruct eventName as [name|].
  - split; [|done]. right. exists name. simpl. split; [|done].
    rewrite Hl, Hd. destruct (_fullScreenListener oc) eqn:Hfl.
    + destruct Hone as [->|(name' & -> & Hname' & _)]; [done|].
      assert (name' = name) as ->.
      { unfold _getEventName in Hget. rewrite Hname' in Hget. congruence. }
      by rewrite remove_listener_single.
    + by rewrite (Hflag eq_refl).
  - split.
    + unfold one_registration. rewrite Hd, Hl, Hn.
      destruct Hone as [?|(name' & ? & Hname' & ?)]; [by left|].
      unfold _getEventName in Hget. rewrite Hname' in Hget. congruence.
    + by rewrite Hd, Hl.
Qed.

Lemma registration_invariant_same oc oc' :
  same_registration oc oc' -> registration_invariant oc -> registration_invariant oc'.
Proof.
  intros (Hl & Hn & Hf) [Hone Hflag].
  unfold registration_invariant, one_registration. by rewrite Hl, Hn, Hf.
Qed.

Lemma super_ngOnDestroy_same_registration oc :
  same_registration oc (super_ngOnDestroy oc).
Proof.
  unfold super_ngOnDestroy, same_registration. by destruct (_containerElement oc).
Qed.

Lemma ngOnDestroy_unregisters oc :
  registration_invariant oc -> listeners (_document (ngOnDestroy oc)) = [].
Proof.
  intros [Hone Hflag]. unfold ngOnDestroy.
  destruct (super_ngOnDestroy_same_registration oc) as (Hl & Hn & Hf).
  rewrite Hn, Hf.
  destruct Hone as [Hnil|(name & Hls & -> & ->)].
  - destruct (_fullScreenEventName oc) as [name|];
      [destruct (_fullScreenListener oc)|]; simpl; rewrite ?Hl, ?Hnil; done.
  - simpl. rewrite Hl, Hls. apply remove_listener_single.
Qed.

Lemma registration_invariant_step oc oc' :
  step oc oc' -> registration_invariant oc -> registration_invariant oc'.
Proof.
  intros Hstep Hinv.
  destruct Hstep as [oc|std webkit moz ms oc|name oc|oc|parent child oc].
  - pose proof (createContainer_completes oc) as Hc. cbv zeta in Hc.
    rewrite Hc. simpl.
    set (oc2 := mkContainer _ _ _ _).
    assert (Hinv2 : registration_invariant oc2).
    { eapply registration_invariant_same; [|exact Hinv]. done. }
    destruct Hinv2 as [Hone Hflag].
    by apply addListener_one_registration.
  - exact Hinv.
  - eapply registration_invariant_same; [|exact Hinv].
    apply listener_rounds_same_registration.
  - pose proof (ngOnDestroy_unregisters oc Hinv) as Hnil.
    split; [by left | done].
  - eapply registration_invariant_same; [|exact Hinv].
    apply script_same.
Qed.

Lemma reachable_registration_invariant oc :
  reachable oc -> registration_invariant oc.
Proof.
  induction 1 as [d|oc oc' _ IH Hstep].
  - split; [by left | done].
  - by eapply registration_invariant_step.
Qed.

(** The one registered listener runs once. *)
Lemma dispatchEvent_registered (oc : FullscreenOverlayContainer) (name : string) :
  reachable oc -> name ∈ listeners (_document oc) ->
  dispatchEvent name oc = run_listener oc.
Proof.
  intros Hr Hname.
  destruct (reachable_registration_invariant oc Hr) as [[Hnil|(name' & Hls & _)] _].
  { rewrite Hnil in Hname. by apply not_elem_of_nil in Hname. }
  unfold dispatchEvent. rewrite Hls in *.
  apply list_elem_of_singleton in Hname as ->.
  cbn. by rewrite decide_True.
Qed.

(** C6. [getFullscreenElement] yields the first property that is set among
    fullscreenElement and its webkit, moz and ms variants, in that order,
    and null when none is. On a fullscreen-change event that reaches the
    container's listener, the parent is the fullscreen element when there
    is one and document.body otherwise; when the overlay container element
    neither is this parent nor contains it, the container becomes the last
    child of the parent and is a child of no other node; when it is the
    parent or contains it, appendChild throws a HierarchyRequestError and
    the event leaves everything as it was. *)
Theorem fullscreen_change_reparents (oc : FullscreenOverlayContainer) (name : string) :
  reachable oc ->
  name ∈ listeners (_document oc) ->
  getFullscreenElement (_document oc) =
    first_set [fullscreenElement (_document oc); webkitFullscreenElement (_document oc);
               mozFullScreenElement (_document oc); msFullscreenElement (_document oc)] /\
  exists container,
    _containerElement oc = Some container /\
    let parent := default (body (_document oc)) (getFullscreenElement (_document oc)) in
    (inclusive_descendant (_document oc) container parent ->
     _adjustParentForFullscreenChange oc = inl HierarchyRequestError /\
     dispatchEvent name oc = oc) /\
    (~ inclusive_descendant (_document oc) container parent ->
     _adjustParentForFullscreenChange oc = inr (dispatchEvent name oc) /\
     appended_to (_document (dispatchEvent name oc)) parent container).
Proof.
  intros Hr Hname. split; [apply getFullscreenElement_first_set|].
  destruct (reachable_container_present oc Hr) as [Hnil|[container Hc]].
  { rewrite Hnil in Hname. by apply not_elem_of_nil in Hname. }
  exists container. split; [done|]. cbv zeta.
  rewrite (dispatchEvent_registered oc name Hr Hname). unfold run_listener.
  destruct (adjust_cases oc container Hc) as [[Hin ->]|[Hout ->]].
  - split; [done | by intros Hout].
  - split; [by intros Hin|]. intros _. split; [done|]. apply moved_to_appended.
Qed.

Lemma sample_container_reachable : reachable sample_container.
Proof.
  unfold sample_container. cbv zeta.
  eapply reach_step; [|apply step_fullscreen].
  eapply reach_step; [apply reach_initial | apply step_create].
Qed.

Lemma fullscreen_change_reparents_witness :
  getFullscreenElement (_document sample_container) =
    first_set [fullscreenElement (_document sample_container);
               webkitFullscreenElement (_document sample_container);
               mozFullScreenElement (_document sample_container);
               msFullscreenElement (_document sample_container)] /\
  exists container,
    _containerElement sample_container = Some container /\
    let parent := default (body (_document sample_container))
                          (getFullscreenElement (_document sample_container)) in
    (inclusive_descendant (_document sample_container) container parent ->
     _adjustParentForFullscreenChange sample_container = inl HierarchyRequestError /\
     dispatchEvent "fullscreenchange" sample_container = sample_container) /\
    (~ inclusive_descendant (_document sample_container) container parent ->
     _adjustParentForFullscreenChange sample_container
     = inr (dispatchEvent "fullscreenchange" sample_container) /\
     appended_to (_document (dispatchEvent "fullscreenchange" sample_container))
                 parent container).
Proof.
  apply (fullscreen_change_reparents sample_container "fullscreenchange").
  - apply sample_container_reachable.
  - vm_compute. apply list_elem_of_here.
Defined.

Lemma pane_in_fullscreen_reachable : reachable pane_in_fullscreen.
Proof.
  unfold pane_in_fullscreen. cbv zeta.
  eapply reach_step; [|apply step_fullscreen].
  eapply reach_step; [|apply step_script].
  eapply reach_step; [apply reach_initial | apply step_create].
Qed.

(** C6 as stated fails when the fullscreen element lies inside the overlay
    container: the listener is registered and the event reaches it, but
    appendChild throws and the container does not become a child of the
    fullscreen element. *)
Lemma fullscreen_inside_the_container :
  reachable pane_in_fullscreen /\
  "fullscreenchange" ∈ listeners (_document pane_in_fullscreen) /\
  ~ reparented "fullscreenchange" pane_in_fullscreen.
Proof.
  split; [apply pane_in_fullscreen_reachable|].
  split; [vm_compute; apply list_elem_of_here|].
  intros (container & _ & Hlast & _).
  vm_compute in Hlast. discriminate.
Qed.

Example container_in_body_before_event :
  _containerElement sample_container = Some 3 /\
  children_of (_document sample_container) 0 = [1; 2; 3].
Proof. split; reflexivity. Qed.

Example container_in_fullscreen_element_after_event :
  let d := _document (dispatchEvent "fullscreenchange" sample_container) in
  children_of d 0 = [1; 2] /\ children_of d 2 = [3].
Proof. split; reflexivity. Qed.

Example pane_inside_the_container :
  inclusive_descendant (_document pane_in_fullscreen) 3 4 /\
  ~ inclusive_descendant (_document sample_container) 3 2.
Proof. split; [by apply contains_spec | by intros ?%contains_spec]. Qed.

Example pane_in_fullscreen_listener_throws :
  _containerElement pane_in_fullscreen = Some 3 /\
  getFullscreenElement (_document pane_in_fullscreen) = Some 4 /\
  children_of (_document pane_in_fullscreen) 3 = [4] /\
  _adjustParentForFullscreenChange pane_in_fullscreen = inl HierarchyRequestError /\
  dispatchEvent "fullscreenchange" pane_in_fullscreen = pane_in_fullscreen.
Proof. repeat split; reflexivity. Qed.

End FullscreenFacts.

(** ** Snack-bar container *)
Section SnackBarFacts.
Import SnackBar.

Lemma assertNotAttached_throws ngDevMode c :
  hasAttached c = true -> dev_mode ngDevMode = true ->
  _assertNotAttached ngDevMode c = (Thrown attach_error, c).
Proof. intros Ha Hd. unfold _assertNotAttached. by rewrite Ha, Hd. Qed.

Lemma assertNotAttached_passes ngDevMode c :
  hasAttached c && dev_mode ngDevMode = false ->
  _assertNotAttached ngDevMode c = (Returned tt, c).
Proof. intros Hc. unfold _assertNotAttached. by rewrite Hc. Qed.

(** A throwing first step ends the method with the container as it was. *)
Lemma bind_thrown {A B : Type} (m : Method A) (k : A -> Method B) message c c' :
  m c = (Thrown message, c') -> bind m k c = (Thrown message, c').
Proof. intros Hm. unfold bind. by rewrite Hm. Qed.

(** C9. With content already attached to the portal outlet, in dev mode,
    each of the three attach methods throws the error "Attempting to attach
    snack bar content after content is already attached" and leaves the
    container as it was: the attached content is the old one and the class
    list of the host element is unchanged. *)
Theorem attach_twice_throws ngDevMode (c : MatSnackBarContainer) (content : nat) :
  hasAttached c = true -> dev_mode ngDevMode = true ->
  attachComponentPortal ngDevMode content c = (Thrown attach_error, c) /\
  attachTemplatePortal ngDevMode content c = (Thrown attach_error, c) /\
  attachDomPortal ngDevMode content c = (Thrown attach_error, c) /\
  attach_error = "Attempting to attach snack bar content after content is already attached".
Proof.
  intros Ha Hd.
  pose proof (assertNotAttached_throws ngDevMode c Ha Hd) as Hthrow.
  unfold attachComponentPortal, attachTemplatePortal, attachDomPortal.
  repeat split; by apply bind_thrown.
Qed.

Lemma attach_twice_throws_witness :
  attachComponentPortal None 2 filled_container = (Thrown attach_error, filled_container) /\
  attachTemplatePortal None 2 filled_container = (Thrown attach_error, filled_container) /\
  attachDomPortal None 2 filled_container = (Thrown attach_error, filled_container) /\
  attach_error = "Attempting to attach snack bar content after content is already attached".
Proof. apply (attach_twice_throws None filled_container 2); reflexivity. Defined.

Example attach_first_time :
  attachTemplatePortal None 1 empty_container
  = (Returned (TemplatePortal 1),
     mkSnackBar sample_config
       ["mat-snack-bar-container"; "warn"; "wide"; "mat-snack-bar-center";
        "mat-snack-bar-top"]
       (Some (TemplatePortal 1))).
Proof. reflexivity. Qed.

Example attach_twice_in_production :
  snd (attachDomPortal (Some false) 2 filled_container)
  = mkSnackBar sample_config
      ["mat-snack-bar-container"; "warn"; "wide"; "mat-snack-bar-center";
       "mat-snack-bar-top"]
      (Some (DomPortal 2)).
Proof. reflexivity. Qed.

End SnackBarFacts.

(** ** Calendar *)
Section CalendarFacts.
Import Calendar.
Context {D : Type} `{DateAdapter D}.
Implicit Types (a b : D) (c : MatCalendar D).
Local Open Scope Z_scope.

Lemma num_or_opp x y : num_or (- x) (- y) = - num_or x y.
Proof. unfold num_or. destruct (Z.eqb_spec x 0), (Z.eqb_spec (- x) 0); lia. Qed.

Lemma compareDate_swap a b : compareDate b a = - compareDate a b.
Proof.
  unfold compareDate. rewrite <- !num_or_opp. f_equal; [f_equal|]; lia.
Qed.

Lemma compareDate_same a : compareDate a a = 0.
Proof. unfold compareDate. by rewrite !Z.sub_diag. Qed.

Lemma set_activeDate_stores value c :
  activeDate (set_activeDate value c) = clampDate value (minDate c) (maxDate c).
Proof. done. Qed.

(** With the bounds in order, clamping lands within them. *)
Lemma clampDate_within value (lo hi : option D) :
  (forall l h, lo = Some l -> hi = Some h -> compareDate l h <= 0) ->
  (forall l, lo = Some l -> 0 <= compareDate (clampDate value lo hi) l) /\
  (forall h, hi = Some h -> compareDate (clampDate value lo hi) h <= 0).
Proof.
  intros Hord. unfold clampDate.
  destruct lo as [l|], hi as [h|]; (split; [intros ? [= <-] | intros ? [= <-]]);
    try specialize (Hord l h eq_refl eq_refl);
    repeat match goal with
    | |- context [(?x <? ?y)] => destruct (Z.ltb_spec x y)
    | |- context [(?x >? ?y)] => rewrite (Z.gtb_ltb x y); destruct (Z.ltb_spec y x)
    end;
    rewrite ?compareDate_same; try lia.
  rewrite compareDate_swap. lia.
Qed.

(** C10, as amended. Every assignment to [activeDate] stores
    [clampDate(value, minDate, maxDate)]; when [minDate] is not after
    [maxDate] (or one of them is not set), the stored date is then neither
    before [minDate] nor after [maxDate]. *)
Theorem activeDate_clamped value c :
  ordered_bounds c ->
  activeDate (set_activeDate value c) = clampDate value (minDate c) (maxDate c) /\
  minDate (set_activeDate value c) = minDate c /\
  maxDate (set_activeDate value c) = maxDate c /\
  within_bounds (set_activeDate value c).
Proof.
  intros Hord. split; [done|]. split; [done|]. split; [done|].
  destruct (clampDate_within value (minDate c) (maxDate c)) as [Hlo Hhi].
  { intros l h Hl Hh. specialize (Hord l h Hl Hh). unfold after in Hord. lia. }
  unfold within_bounds, before, after. rewrite set_activeDate_stores. split.
  - intros lo Hmin. specialize (Hlo lo Hmin). lia.
  - intros hi Hmax. specialize (Hhi hi Hmax). lia.
Qed.

(** When [minDate] is after [maxDate] no date at all lies within the bounds. *)
Lemma inverted_bounds_unreachable c lo hi :
  minDate c = Some lo -> maxDate c = Some hi -> after lo hi ->
  (forall x y z : D, compareDate x y <= 0 -> compareDate y z <= 0 -> compareDate x z <= 0) ->
  ~ within_bounds c.
Proof.
  intros Hmin Hmax Hinv Htrans [Hlo Hhi].
  specialize (Hlo lo Hmin). specialize (Hhi hi Hmax).
  unfold before, after in *.
  pose proof (Htrans lo (activeDate c) hi) as Ht.
  rewrite (compareDate_swap (activeDate c) lo) in Ht. lia.
Qed.

End CalendarFacts.

Section CalendarExamples.
Import Calendar.

(** C10 as stated fails when [minDate] is after [maxDate]: a date before
    both is clamped to [minDate], which is after [maxDate]. *)
Lemma activeDate_after_maxDate :
  ~ within_bounds (set_activeDate (mkDate 2021 5 3) inverted_calendar).
Proof.
  intros [_ Hhi]. apply (Hhi (mkDate 2021 5 5)); [reflexivity|].
  unfold after. vm_compute. reflexivity.
Qed.

Lemma activeDate_clamped_witness :
  activeDate (set_activeDate (mkDate 2021 5 3) may_calendar)
    = clampDate (mkDate 2021 5 3) (minDate may_calendar) (maxDate may_calendar) /\
  minDate (set_activeDate (mkDate 2021 5 3) may_calendar) = minDate may_calendar /\
  maxDate (set_activeDate (mkDate 2021 5 3) may_calendar) = maxDate may_calendar /\
  within_bounds (set_activeDate (mkDate 2021 5 3) may_calendar).
Proof.
  apply (activeDate_clamped (mkDate 2021 5 3) may_calendar).
  intros lo hi [= <-] [= <-]. unfold after. vm_compute. discriminate.
Defined.

Example clamp_to_minDate :
  activeDate (set_activeDate (mkDate 2021 5 3) may_calendar) = mkDate 2021 5 5.
Proof. reflexivity. Qed.

Example clamp_inverted :
  activeDate (set_activeDate (mkDate 2021 5 12) inverted_calendar) = mkDate 2021 5 5.
Proof. reflexivity. Qed.

End CalendarExamples.

(** ** Accordion items: the setter, the guards and the open/close-all actions *)
Section AccordionMore.
Import Accordion.

Lemma item_after_set_expanded i v w it :
  items w !! i = Some it ->
  items (set_expanded i v w) !! i = Some (with_expanded v it).
Proof.
  intros Hi. destruct v.
  - destruct (_expanded it) eqn:He.
    + unfold set_expanded. rewrite Hi, He. by rewrite <- He, with_expanded_same.
    + rewrite (items_set_expanded_true i it w i it Hi He Hi).
      by rewrite bool_decide_eq_true_2.
  - unfold set_expanded. rewrite Hi.
    rewrite (items_set_expanded_false i w i it Hi).
    by rewrite bool_decide_eq_true_2.
Qed.

(** What an assignment to [expanded] of item [j] does to another item. *)
Lemma other_item_after_set_expanded i j v w it jt :
  i ≠ j -> items w !! i = Some it -> items w !! j = Some jt ->
  items (set_expanded j v w) !! i =
  Some (if v && negb (_expanded jt) && bool_decide (i ∈ _listeners w)
           && closes w it (id jt) (accordionId_of w jt)
        then with_expanded false it else it).
Proof.
  intros Hne Hi Hj. destruct v; cbn [andb].
  - destruct (_expanded jt) eqn:He; cbn [negb andb].
    + unfold set_expanded. by rewrite Hj, He.
    + rewrite (items_set_expanded_true j jt w i it Hj He Hi).
      by rewrite bool_decide_eq_false_2.
  - unfold set_expanded. rewrite Hj.
    rewrite (items_set_expanded_false j w i it Hi).
    by rewrite bool_decide_eq_false_2.
Qed.

(** X1. The setter of [expanded] stores the value it is given, whether the
    item is disabled or not, and leaves [id], [accordion] and [disabled] of
    the item alone. *)
Theorem expanded_set_then_get i v w it :
  items w !! i = Some it ->
  exists it', items (set_expanded i v w) !! i = Some it' /\
              _expanded it' = v /\ id it' = id it /\
              accordion it' = accordion it /\ _disabled it' = _disabled it.
Proof.
  intros Hi. exists (with_expanded v it).
  split; [by apply item_after_set_expanded | done].
Qed.

Lemma expanded_set_then_get_witness :
  exists it', items (set_expanded 1 true two_item_world) !! 1 = Some it' /\
              _expanded it' = true /\ id it' = item_id 1 /\
              accordion it' = Some 0 /\ _disabled it' = false.
Proof.
  apply (expanded_set_then_get 1 true two_item_world
           (mkItem (item_id 1) (Some 0) false false)).
  reflexivity.
Defined.

(** X2. Assigning [expanded] the value it already has changes nothing: no
    event is emitted and the dispatcher is not notified, so an assignment
    repeated is the assignment made once. *)
Theorem set_expanded_idempotent i v w :
  set_expanded i v (set_expanded i v w) = set_expanded i v w.
Proof.
  destruct (items w !! i) as [it|] eqn:Hi.
  - pose proof (item_after_set_expanded i v w it Hi) as Hi'.
    set (w' := set_expanded i v w) in *.
    unfold set_expanded at 1. rewrite Hi'. destruct v; simpl; [done|].
    unfold set_expanded_false. by rewrite Hi'.
  - unfold set_expanded at 2. rewrite Hi. unfold set_expanded. by rewrite Hi.
Qed.

(** [toggle] on an enabled item flips its [expanded] flag, and a second
    [toggle] brings the flag back. *)
Theorem toggle_flips i w it :
  items w !! i = Some it -> _disabled it = false ->
  items (toggle i w) !! i = Some (with_expanded (negb (_expanded it)) it) /\
  items (toggle i (toggle i w)) !! i = Some it.
Proof.
  intros Hi Hd.
  assert (H1 : items (toggle i w) !! i = Some (with_expanded (negb (_expanded it)) it)).
  { unfold toggle. rewrite Hi, Hd. by apply item_after_set_expanded. }
  split; [done|].
  unfold toggle at 1. rewrite H1. simpl. rewrite Hd.
  rewrite (item_after_set_expanded _ _ _ _ H1). simpl.
  rewrite negb_involutive. by destruct it.
Qed.

Lemma toggle_flips_witness :
  items (toggle 1 two_item_world) !! 1
    = Some (with_expanded true (mkItem (item_id 1) (Some 0) false false)) /\
  items (toggle 1 (toggle 1 two_item_world)) !! 1
    = Some (mkItem (item_id 1) (Some 0) false false).
Proof.
  apply (toggle_flips 1 two_item_world (mkItem (item_id 1) (Some 0) false false));
    reflexivity.
Defined.

(** X3. In an accordion whose [multi] flag is true an assignment to
    [expanded] of one item leaves every other item of the accordion as it
    was: several items can be expanded at once. *)
Theorem multi_accordion_keeps_siblings i j v w it jt acc :
  i ≠ j -> items w !! i = Some it -> items w !! j = Some jt ->
  accordion_of w it = Some acc -> multi acc = true ->
  items (set_expanded j v w) !! i = Some it.
Proof.
  intros Hne Hi Hj Hacc Hm.
  rewrite (other_item_after_set_expanded i j v w it jt Hne Hi Hj).
  unfold closes. rewrite Hacc, Hm. simpl. by rewrite !andb_false_r.
Qed.

Lemma multi_accordion_keeps_siblings_witness :
  items (set_expanded 1 true multi_world) !! 0
  = Some (mkItem (item_id 0) (Some 0) true false).
Proof.
  apply (multi_accordion_keeps_siblings 0 1 true multi_world
           (mkItem (item_id 0) (Some 0) true false)
           (mkItem (item_id 1) (Some 0) false false)
           (mkAccordion "cdk-accordion-0" true)); (done || reflexivity).
Defined.

(** X4. The dispatcher never touches an item that is hosted in no accordion,
    nor an item whose accordion has another id than the one the notifying
    item sends: an assignment to [expanded] of another item leaves it as it
    was. *)
Theorem dispatch_isolation i j v w it jt :
  i ≠ j -> items w !! i = Some it -> items w !! j = Some jt ->
  (accordion_of w it = None \/
   exists acc, accordion_of w it = Some acc /\ acc_id acc ≠ accordionId_of w jt) ->
  items (set_expanded j v w) !! i = Some it.
Proof.
  intros Hne Hi Hj Hiso.
  rewrite (other_item_after_set_expanded i j v w it jt Hne Hi Hj).
  unfold closes. destruct Hiso as [->|(acc & -> & Hid)].
  - by rewrite !andb_false_r.
  - rewrite (bool_decide_eq_false_2 _ Hid). simpl. by rewrite !andb_false_r.
Qed.

Lemma dispatch_isolation_witness :
  items (set_expanded 1 true standalone_world) !! 0
  = Some (mkItem (item_id 0) None true false).
Proof.
  apply (dispatch_isolation 0 1 true standalone_world
           (mkItem (item_id 0) None true false)
           (mkItem (item_id 1) (Some 0) false false));
    [done | reflexivity | reflexivity | by left].
Defined.

(** X5. [ngOnDestroy] takes the item's listener off the dispatcher: a
    destroyed item is no longer collapsed when another item becomes
    expanded. *)
Theorem destroyed_item_not_collapsed i j v w it :
  i ≠ j -> items w !! i = Some it ->
  (i ∉ _listeners (ngOnDestroy i w)) /\
  items (set_expanded j v (ngOnDestroy i w)) !! i = Some it.
Proof.
  intros Hne Hi.
  assert (Hitems : items (ngOnDestroy i w) = items w).
  { unfold ngOnDestroy. by rewrite Hi. }
  assert (Hl : i ∉ _listeners (ngOnDestroy i w)).
  { unfold ngOnDestroy. rewrite Hi. simpl. rewrite list_elem_of_filter. tauto. }
  split; [done|].
  destruct (items w !! j) as [jt|] eqn:Hj.
  - rewrite (other_item_after_set_expanded i j v (ngOnDestroy i w) it jt Hne);
      [|by rewrite Hitems..].
    rewrite (bool_decide_eq_false_2 _ Hl). by rewrite andb_false_r.
  - unfold set_expanded. by rewrite Hitems, Hj, Hitems.
Qed.

Lemma destroyed_item_not_collapsed_witness :
  (0 ∉ _listeners (ngOnDestroy 0 two_item_world)) /\
  items (set_expanded 1 true (ngOnDestroy 0 two_item_world)) !! 0
  = Some (mkItem (item_id 0) (Some 0) true false).
Proof.
  apply (destroyed_item_not_collapsed 0 1 true two_item_world
           (mkItem (item_id 0) (Some 0) true false)); [done | reflexivity].
Defined.

(** X6. Item ids are unique: in every world reached through the item API the
    item constructed as the [n]-th has the id "cdk-accordion-child-n", so
    two different items never share an id. *)
Theorem item_ids_unique w i j it jt :
  reachable w -> items w !! i = Some it -> items w !! j = Some jt ->
  id it = "cdk-accordion-child-" +:+ pretty i /\ (id it = id jt -> i = j).
Proof.
  intros Hr Hi Hj. destruct (reachable_wf w Hr) as [_ Hids].
  split; [by apply Hids|].
  rewrite (Hids i it Hi), (Hids j jt Hj). apply item_id_inj.
Qed.

Lemma item_ids_unique_witness :
  id (mkItem (item_id 1) (Some 0) false false) = "cdk-accordion-child-" +:+ pretty 1 /\
  (id (mkItem (item_id 1) (Some 0) false false)
   = id (mkItem (item_id 0) (Some 0) true false) -> 1 = 0).
Proof.
  apply (item_ids_unique two_item_world 1 0
           (mkItem (item_id 1) (Some 0) false false)
           (mkItem (item_id 0) (Some 0) true false)).
  - apply two_item_world_reachable.
  - reflexivity.
  - reflexivity.
Defined.

(** One observer of the open/close-all actions at work. *)
Lemma item_after_observer a v i w k it :
  items w !! k = Some it ->
  (v = true -> k ≠ i -> forall jt, items w !! i = Some jt ->
     closes w it (id jt) (accordionId_of w jt) = false) ->
  items (match items w !! i with
         | Some it' =>
             if bool_decide (accordion it' = Some a)
             then openCloseAll_observer i v w else w
         | None => w
         end) !! k =
  Some (if bool_decide (k = i) && bool_decide (accordion it = Some a)
           && negb (_disabled it)
        then with_expanded v it else it).
Proof.
  intros Hk Hcl. destruct (decide (k = i)) as [->|Hne].
  - rewrite Hk, (bool_decide_eq_true_2 (i = i)) by done. cbn [andb].
    case_bool_decide; cbn [andb]; [|done].
    unfold openCloseAll_observer. rewrite Hk.
    destruct (_disabled it); [done|]. by apply item_after_set_expanded.
  - rewrite (bool_decide_eq_false_2 (k = i)) by done. cbn [andb].
    destruct (items w !! i) as [jt|] eqn:Hi; [|done].
    case_bool_decide; [|done].
    unfold openCloseAll_observer. rewrite Hi.
    destruct (_disabled jt); [done|].
    rewrite (other_item_after_set_expanded k i v w it jt Hne Hk Hi).
    destruct v; [|done].
    by rewrite (Hcl eq_refl Hne jt eq_refl), andb_false_r.
Qed.

Lemma static_observer_step a v i w :
  static (match items w !! i with
          | Some it' =>
              if bool_decide (accordion it' = Some a)
              then openCloseAll_observer i v w else w
          | None => w
          end) = static w.
Proof.
  destruct (items w !! i); [|done]. case_bool_decide; [apply static_observer | done].
Qed.

(** The open/close-all round over a list of subscribers, for an item that
    no expansion of the round collapses. *)
Lemma item_after_observers a v subs : forall w k it,
  items w !! k = Some it ->
  (v = true -> forall sel name, closes w it sel name = false) ->
  items (foldl (fun w' i =>
                  match items w' !! i with
                  | Some it' =>
                      if bool_decide (accordion it' = Some a)
                      then openCloseAll_observer i v w' else w'
                  | None => w'
                  end) w subs) !! k =
  Some (if bool_decide (k ∈ subs) && bool_decide (accordion it = Some a)
           && negb (_disabled it)
        then with_expanded v it else it).
Proof.
  induction subs as [|i subs IH]; intros w k it Hk Hcl; cbn [foldl].
  - by rewrite bool_decide_eq_false_2 by apply not_elem_of_nil.
  - pose proof (item_after_observer a v i w k it Hk
                  (fun Hv _ jt _ => Hcl Hv (id jt) (accordionId_of w jt))) as Hstep.
    pose proof (static_observer_step a v i w) as Hs.
    set (w1 := match items w !! i with
               | Some it' => if bool_decide (accordion it' = Some a)
                             then openCloseAll_observer i v w else w
               | None => w
               end) in *.
    set (it1 := if bool_decide (k = i) && bool_decide (accordion it = Some a)
                   && negb (_disabled it)
                then with_expanded v it else it) in *.
    assert (Hsame : id it1 = id it /\ accordion it1 = accordion it /\
                    _disabled it1 = _disabled it).
    { subst it1. by case_match. }
    destruct Hsame as (Hid & Hacc & Hdis).
    rewrite (IH w1 k it1 Hstep).
    + rewrite Hacc, Hdis. f_equal. subst it1.
      destruct (bool_decide (accordion it = Some a) && negb (_disabled it)) eqn:Hc.
      * rewrite <- !andb_assoc, Hc, !andb_true_r.
        destruct (decide (k = i)) as [->|Hne].
        -- rewrite (bool_decide_eq_true_2 (i = i)) by done.
           rewrite (bool_decide_eq_true_2 (i ∈ i :: subs)) by left.
           destruct (bool_decide (i ∈ subs)); reflexivity.
        -- rewrite (bool_decide_eq_false_2 (k = i)) by done.
           apply (f_equal (fun b : bool => if b then with_expanded v it else it)).
           apply bool_decide_ext. rewrite elem_of_cons. intuition congruence.
      * by rewrite <- !andb_assoc, Hc, !andb_false_r.
    + intros Hv sel name. rewrite <- (Hcl Hv sel name).
      apply closes_static; [|done..].
      unfold static in Hs. by injection Hs as _ -> _ _ _.
Qed.

(** X7. Closing all: after [_openCloseAllActions] emits [false] for an
    accordion, every subscribed item of the accordion that is not disabled
    is collapsed, and every other item (disabled, unsubscribed, or of
    another accordion) is as it was. *)
Theorem close_all_closes_enabled_items a w k it :
  items w !! k = Some it ->
  items (openCloseAllActions_next a false w) !! k =
  Some (if bool_decide (k ∈ _subscribers w) && bool_decide (accordion it = Some a)
           && negb (_disabled it)
        then with_expanded false it else it).
Proof.
  intros Hk. unfold openCloseAllActions_next.
  by apply item_after_observers.
Qed.

Lemma close_all_closes_enabled_items_witness :
  items (openCloseAllActions_next 0 false multi_world) !! 0
  = Some (mkItem (item_id 0) (Some 0) false false).
Proof.
  apply (close_all_closes_enabled_items 0 multi_world 0
           (mkItem (item_id 0) (Some 0) true false)).
  reflexivity.
Defined.

(** X8. Opening all in an accordion whose [multi] flag is true: after
    [_openCloseAllActions] emits [true], every subscribed item of the
    accordion that is not disabled is expanded and the disabled ones are as
    they were; none of the expansions collapses an item of the accordion. *)
Theorem open_all_opens_enabled_items a acc w k it :
  accordions w !! a = Some acc -> multi acc = true ->
  items w !! k = Some it -> accordion it = Some a ->
  items (openCloseAllActions_next a true w) !! k =
  Some (if bool_decide (k ∈ _subscribers w) && negb (_disabled it)
        then with_expanded true it else it).
Proof.
  intros Ha Hm Hk Hacc. unfold openCloseAllActions_next.
  rewrite (item_after_observers a true (_subscribers w) w k it Hk).
  - by rewrite Hacc, (bool_decide_eq_true_2 (Some a = Some a)), andb_true_r.
  - intros _ sel name. unfold closes, accordion_of.
    rewrite Hacc. simpl. by rewrite Ha, Hm.
Qed.

Lemma open_all_opens_enabled_items_witness :
  items (openCloseAllActions_next 0 true multi_world) !! 1
  = Some (mkItem (item_id 1) (Some 0) true false).
Proof.
  apply (open_all_opens_enabled_items 0 (mkAccordion "cdk-accordion-0" true)
           multi_world 1 (mkItem (item_id 1) (Some 0) false false)); reflexivity.
Defined.

End AccordionMore.

(** ** Nested tree control: size, leaves and subtrees *)
Section TreeMore.
Import Tree.
Context {A : Type}.
Implicit Types (n m c : DataNode A) (cs : list (DataNode A)).

Lemma length_preorder n : length (preorder n) = node_count n.
Proof.
  induction n as [v|v cs IH] using DataNode_nested_ind; [done|].
  simpl. f_equal. induction IH as [|c cs Hc _ IHcs]; [done|].
  simpl. by rewrite length_app, Hc, IHcs.
Qed.

(** X9. [getDescendants] returns one node less than the subtree holds:
    every node of the subtree once, except the root. *)
Theorem getDescendants_length n :
  S (length (getDescendants n)) = node_count n.
Proof.
  rewrite getDescendants_strict, <- length_preorder, preorder_head. done.
Qed.

(** [getDescendants] is empty exactly for a node without children,
    whether [getChildren] gives an empty array or nothing. *)
Theorem getDescendants_empty n :
  getDescendants n = [] <-> kids n = [].
Proof.
  rewrite getDescendants_strict. unfold strict_descendants.
  destruct (kids n) as [|c cs]; [done|].
  simpl. rewrite preorder_head. done.
Qed.

(** X10. The descendants of a child sit together in the descendants of its
    parent, right behind the child. *)
Theorem getDescendants_subtree n c :
  c ∈ kids n ->
  exists front back,
    getDescendants n = front ++ c :: getDescendants c ++ back.
Proof.
  intros Hc. rewrite !getDescendants_strict.
  destruct (flat_map_middle preorder (kids n) c Hc) as (front & back & Heq).
  exists front, back. unfold strict_descendants at 1.
  by rewrite Heq, preorder_head.
Qed.

Lemma descendant_of_trans m c n :
  descendant_of m c -> descendant_of c n -> descendant_of m n.
Proof.
  intros Hm Hc. induction Hc as [c n Hk|c c' n Hk _ IH].
  - by eapply desc_below.
  - eapply desc_below; [done|]. by apply IH.
Qed.

(** Descendants of a descendant are descendants: whatever
    [getDescendants] returns for a node it returned for the node is also
    returned for the node itself. *)
Theorem getDescendants_transitive m c n :
  m ∈ getDescendants c -> c ∈ getDescendants n -> m ∈ getDescendants n.
Proof.
  rewrite !getDescendants_strict, !elem_of_strict_descendants.
  apply descendant_of_trans.
Qed.

End TreeMore.

Section TreeMoreExamples.
Import Tree.

Lemma getDescendants_subtree_witness :
  exists front back,
    getDescendants sample_tree
    = front ++ Node 2 (Some [leaf 3; Node 4 None])
        :: getDescendants (Node 2 (Some [leaf 3; Node 4 None])) ++ back.
Proof.
  apply (getDescendants_subtree sample_tree (Node 2 (Some [leaf 3; Node 4 None]))).
  apply list_elem_of_here.
Defined.

Lemma getDescendants_transitive_witness :
  leaf 3 ∈ getDescendants sample_tree.
Proof.
  apply (getDescendants_transitive (leaf 3) (Node 2 (Some [leaf 3; Node 4 None]))
           sample_tree).
  - apply list_elem_of_here.
  - apply list_elem_of_here.
Defined.

End TreeMoreExamples.

(** ** Input-name migration: the span of the edits, and templates *)
Section MigrationMore.
Import Migration MigrationTemplate.





(** X12. Templates: every edit [visitTemplate] records belongs to the
    renaming of an entry at an offset one of the two searches reported for
    it, the attribute search only for an entry limited to attributes and the
    element search only for one limited to elements; and each reported
    offset is renamed: the old name's length is removed and the new name
    inserted at that offset of the file. *)
Theorem template_inputs_renamed
    (byAttr byTag : string -> string -> list string -> list nat)
    (data : list LimitedInputName) (template : ResolvedResource) :
  let edits := visitTemplate byAttr byTag data template in
  let reported name off :=
    (exists attrs, attributes (limitedTo name) = Some attrs /\
                   off ∈ byAttr (content template) (replace (names name)) attrs) \/
    (exists tags, elements (limitedTo name) = Some tags /\
                  off ∈ byTag (content template) (replace (names name)) tags) in
  (forall name off, name ∈ data -> reported name off ->
     exists before after, edits = before ++ renaming template name off ++ after) /\
  (forall e, e ∈ edits ->
     exists name off, name ∈ data /\ reported name off /\ e ∈ renaming template name off).
Proof.
  cbv zeta.
  assert (Hrep : forall name off,
    off ∈ relativeOffsets byAttr byTag template name <->
    (exists attrs, attributes (limitedTo name) = Some attrs /\
                   off ∈ byAttr (content template) (replace (names name)) attrs) \/
    (exists tags, elements (limitedTo name) = Some tags /\
                  off ∈ byTag (content template) (replace (names name)) tags)).
  { intros name off. unfold relativeOffsets.
    destruct (attributes (limitedTo name)) as [attrs|],
             (elements (limitedTo name)) as [tags|];
      cbn [app]; rewrite ?elem_of_app; split.
    - intros [Hin|Hin]; [left; by exists attrs | right; by exists tags].
    - intros [(? & [= <-] & ?)|(? & [= <-] & ?)]; auto.
    - intros Hin. left. by exists attrs.
    - intros [(? & [= <-] & ?)|(? & [=] & _)]; auto.
    - intros Hin. right. by exists tags.
    - intros [(? & [=] & _)|(? & [= <-] & ?)]; auto.
    - by intros ?%not_elem_of_nil.
    - intros [(? & [=] & _)|(? & [=] & _)]. }
  unfold visitTemplate. split.
  - intros name off Hname Hoff. apply Hrep in Hoff.
    destruct (flat_map_middle
      (fun index => _replaceInputName (filePath template) index
         (String.length (replace (names name))) (replaceWith (names name)))
      (map (fun offset => start template + offset)
         (relativeOffsets byAttr byTag template name))
      (start template + off)) as (b1 & a1 & Hin).
    { by apply list_elem_of_In, in_map, list_elem_of_In. }
    apply list_elem_of_split in Hname as (d1 & d2 & ->).
    rewrite flat_map_app. cbn [flat_map]. rewrite Hin.
    set (rest := flat_map _ d2). set (first := flat_map _ d1).
    exists (first ++ b1), (a1 ++ rest). unfold renaming, _replaceInputName.
    by rewrite <- !app_assoc.
  - intros e (name & Hname & He)%elem_of_flat_map.
    apply elem_of_flat_map in He as (index & Hindex & He).
    apply list_elem_of_In, in_map_iff in Hindex as (off & <- & Hoff).
    exists name, off. split; [done|]. split; [|done].
    by apply Hrep, list_elem_of_In.
Qed.

(** X13. [visitTemplate] does not merge the offsets of the two searches: an
    input that both of them report for an entry is renamed twice at the same
    offset. *)
Theorem template_input_renamed_twice
    (byAttr byTag : string -> string -> list string -> list nat)
    (name : LimitedInputName) (template : ResolvedResource)
    (attrs tags : list string) (off : nat) :
  attributes (limitedTo name) = Some attrs ->
  elements (limitedTo name) = Some tags ->
  off ∈ byAttr (content template) (replace (names name)) attrs ->
  off ∈ byTag (content template) (replace (names name)) tags ->
  exists before between after,
    visitTemplate byAttr byTag [name] template
    = before ++ renaming template name off ++ between
        ++ renaming template name off ++ after.
Proof.
  intros Ha He Hattr Htag.
  unfold visitTemplate. cbn [flat_map]. rewrite app_nil_r.
  unfold relativeOffsets. rewrite Ha, He. simpl. rewrite map_app, flat_map_app.
  set (f := fun index => _replaceInputName (filePath template) index
                 (String.length (replace (names name))) (replaceWith (names name))).
  destruct (flat_map_middle f
    (map (fun offset => start template + offset)
         (byAttr (content template) (replace (names name)) attrs))
    (start template + off)) as (b1 & a1 & H1).
  { by apply list_elem_of_In, in_map, list_elem_of_In. }
  destruct (flat_map_middle f
    (map (fun offset => start template + offset)
         (byTag (content template) (replace (names name)) tags))
    (start template + off)) as (b2 & a2 & H2).
  { by apply list_elem_of_In, in_map, list_elem_of_In. }
  rewrite H1, H2. exists b1, (a1 ++ b2), a2.
  unfold renaming, f, _replaceInputName. by rewrite <- !app_assoc.
Qed.

Lemma template_input_renamed_twice_witness :
  exists before between after,
    visitTemplate attr_search tag_search
      [mkLimited (mkName "align" "position")
                 (mkLimitedTo (Some ["md-align"]) (Some ["md-tab"]))]
      sample_template
    = before ++ renaming sample_template
                  (mkLimited (mkName "align" "position")
                             (mkLimitedTo (Some ["md-align"]) (Some ["md-tab"]))) 5
        ++ between
        ++ renaming sample_template
             (mkLimited (mkName "align" "position")
                        (mkLimitedTo (Some ["md-align"]) (Some ["md-tab"]))) 5
        ++ after.
Proof.
  apply (template_input_renamed_twice attr_search tag_search
           (mkLimited (mkName "align" "position")
                      (mkLimitedTo (Some ["md-align"]) (Some ["md-tab"])))
           sample_template ["md-align"] ["md-tab"] 5).
  - reflexivity.
  - reflexivity.
  - apply list_elem_of_here.
  - apply list_elem_of_here.
Defined.

End MigrationMore.

(** ** Typing into an element: events and value *)
Section TypingMore.
Import Typing TypingTrace.
Variable PERIOD : nat.

Lemma filter_flat_map {X Y : Type} (p : Y -> bool) (f : X -> list Y) (xs : list X) :
  List.filter p (flat_map f xs) = flat_map (fun x => List.filter p (f x)) xs.
Proof.
  induction xs as [|x xs IH]; [done|]. simpl. by rewrite List.filter_app, IH.
Qed.


Lemma value_after_app v t1 t2 :
  value_after v (t1 ++ t2) = value_after (value_after v t1) t2.
Proof. unfold value_after. by rewrite foldl_app. Qed.

Lemma value_after_incremental appends modifiers (keys : list Key) : forall v,
  value_after v
    (flat_map (fun k =>
       [KeyboardEvent "keydown" (keyCode k) (key k) modifiers;
        KeyboardEvent "keypress" (keyCode k) (key k) modifiers] ++
       (if appends && single_character k
        then [AppendValue (default "" (key k)); FakeEvent "input"] else []) ++
       [KeyboardEvent "keyup" (keyCode k) (key k) modifiers]) keys)
  = if appends then v +:+ typed_characters keys else v.
Proof.
  unfold typed_characters.
  induction keys as [|k keys IH]; intros v.
  - destruct appends; [|done]. symmetry. apply append_nil_r.
  - cbn [flat_map]. rewrite value_after_app, IH.
    destruct appends; [|done]. cbn [andb List.filter].
    destruct (single_character k); cbn [app value_after foldl].
    + by rewrite append_assoc.
    + done.
Qed.

Lemma value_after_key_events modifiers (keys : list Key) : forall v,
  value_after v
    (flat_map (fun k =>
       [KeyboardEvent "keydown" (keyCode k) (key k) modifiers;
        KeyboardEvent "keypress" (keyCode k) (key k) modifiers;
        KeyboardEvent "keyup" (keyCode k) (key k) modifiers]) keys) = v.
Proof.
  induction keys as [|k keys IH]; intros v; [done|].
  cbn [flat_map]. by rewrite value_after_app, IH.
Qed.

(** The value an element holds after a call. *)
Lemma value_after_typeKeys element modifiers rest v :
  value_after v (typeKeys PERIOD element modifiers rest) =
  if decide (incremental_condition PERIOD (str_or (type_attribute element) "text")
                                   (keys_of rest))
  then if isTextInput element then v +:+ typed_characters (keys_of rest) else v
  else typed_value (keys_of rest).
Proof.
  rewrite typeKeys_entry_behaviour. unfold entry_behaviour.
  case_decide.
  - unfold incremental_entry.
    change (value_after v (TriggerFocus :: ?t)) with (value_after v t).
    apply value_after_incremental.
  - unfold whole_value_entry.
    change (value_after v (TriggerFocus :: AssignValue ?s :: ?t)) with (value_after s t).
    rewrite value_after_app, value_after_key_events. done.
Qed.

(** X15. The two ways of entering treat the element's value differently.
    Entering incrementally appends to the value the element has: on an
    input or textarea it ends up as the old value followed by the characters
    of the keys that stand for one character, on any other element the
    value is untouched. Otherwise the old value is replaced by what all the
    keys spell, keys of several characters included. *)
Theorem typeKeys_final_value element modifiers rest v :
  value_after v (typeKeys PERIOD element modifiers rest) =
  if decide (incremental_condition PERIOD (str_or (type_attribute element) "text")
                                   (keys_of rest))
  then if isTextInput element then v +:+ typed_characters (keys_of rest) else v
  else typed_value (keys_of rest).
Proof. apply value_after_typeKeys. Qed.

Lemma typed_value_split_keys (s : string) (rest : string) :
  foldr (fun k value => default "" (key k) +:+ value) rest (split_keys s) = s +:+ rest.
Proof.
  induction s as [|c s IH]; [done|]. simpl. by rewrite IH.
Qed.

Lemma split_keys_single (s : string) :
  List.filter single_character (split_keys s) = split_keys s.
Proof. induction s as [|c s IH]; [done|]. simpl. by rewrite IH. Qed.

Lemma keys_of_strings_single (parts : list string) :
  List.filter single_character (keys_of (map ArgString parts))
  = keys_of (map ArgString parts).
Proof.
  unfold keys_of. induction parts as [|s parts IH]; [done|].
  simpl. by rewrite List.filter_app, split_keys_single, IH.
Qed.

Lemma typed_value_strings (parts : list string) :
  typed_value (keys_of (map ArgString parts)) = joined parts.
Proof.
  unfold typed_value, keys_of. induction parts as [|s parts IH]; [done|].
  simpl. rewrite foldr_app, IH. apply typed_value_split_keys.
Qed.

(** X16. Clearing and typing is a round trip: after [clearElement] and then
    [typeInElement] with strings as keys, an input or textarea holds exactly
    the strings typed, one after the other, whichever way the value was
    entered and whatever it was before. *)
Theorem clear_then_type_round_trip element modifiers (parts : list string) v :
  isTextInput element = true ->
  value_after v (clearElement ++ typeKeys PERIOD element modifiers (map ArgString parts))
  = joined parts.
Proof.
  intros Hinput. rewrite value_after_app.
  change (value_after v clearElement) with "".
  rewrite value_after_typeKeys, Hinput.
  unfold typed_characters. rewrite keys_of_strings_single, typed_value_strings.
  by case_decide.
Qed.

Lemma flat_map_constant_nil {X Y : Type} (xs : list X) :
  flat_map (fun _ : X => @nil Y) xs = [].
Proof. induction xs as [|x xs IH]; [done|]. exact IH. Qed.

Lemma count_input_incremental appends modifiers (keys : list Key) :
  length (List.filter is_input_event
    (flat_map (fun k =>
       [KeyboardEvent "keydown" (keyCode k) (key k) modifiers;
        KeyboardEvent "keypress" (keyCode k) (key k) modifiers] ++
       (if appends && single_character k
        then [AppendValue (default "" (key k)); FakeEvent "input"] else []) ++
       [KeyboardEvent "keyup" (keyCode k) (key k) modifiers]) keys))
  = if appends then length (List.filter single_character keys) else 0.
Proof.
  induction keys as [|k keys IH]; [by destruct appends|].
  cbn [flat_map]. rewrite List.filter_app, length_app, IH.
  destruct appends; [|done]. cbn [andb List.filter].
  by destruct (single_character k).
Qed.

(** X17. The 'input' events of a call: when the value is entered
    incrementally, one for each key that stands for one character on an
    input or textarea, and none at all on any other element; otherwise
    exactly one. *)
Theorem typeKeys_input_events element modifiers rest :
  length (List.filter is_input_event (typeKeys PERIOD element modifiers rest)) =
  if decide (incremental_condition PERIOD (str_or (type_attribute element) "text")
                                   (keys_of rest))
  then if isTextInput element
       then length (List.filter single_character (keys_of rest)) else 0
  else 1.
Proof.
  rewrite typeKeys_entry_behaviour. unfold entry_behaviour.
  case_decide.
  - unfold incremental_entry. cbn [List.filter is_input_event].
    apply count_input_incremental.
  - unfold whole_value_entry. cbn [List.filter is_input_event].
    rewrite List.filter_app, length_app, filter_flat_map. simpl.
    by rewrite flat_map_constant_nil.
Qed.

End TypingMore.

Section TypingMoreExamples.
Import Typing TypingTrace.

Lemma clear_then_type_round_trip_witness :
  value_after "old"
    (clearElement ++ typeKeys 190 text_input no_modifiers (map ArgString ["ab"; "1.5"]))
  = joined ["ab"; "1.5"].
Proof.
  apply (clear_then_type_round_trip 190 text_input no_modifiers ["ab"; "1.5"] "old").
  reflexivity.
Defined.

Example typing_appends_to_text :
  value_after "old" (typeKeys 190 text_input no_modifiers [ArgString "ab"]) = "oldab".
Proof. reflexivity. Qed.

Example typing_replaces_decimal_number :
  value_after "7" (typeKeys 190 number_input no_modifiers [ArgString "1.5"]) = "1.5".
Proof. reflexivity. Qed.

End TypingMoreExamples.

(** ** Fullscreen overlay container: the listener and its registration *)
Section FullscreenMore.
Import Fullscreen FullscreenListener.

(** X18. However often the container is created, destroyed and created
    again, and whatever the browser does in between, the document never
    holds more than one registration of the fullscreen listener: the old
    listener is removed before a new one is added. *)
Theorem fullscreen_listener_registered_once oc :
  reachable oc -> length (listeners (_document oc)) <= 1.
Proof.
  intros Hr. destruct (reachable_registration_invariant oc Hr) as [Hone _].
  destruct Hone as [->|(name & -> & _)]; simpl; lia.
Qed.

(** X19. [ngOnDestroy] leaves no fullscreen listener behind on the
    document. *)
Theorem ngOnDestroy_removes_listener oc :
  reachable oc -> listeners (_document (ngOnDestroy oc)) = [].
Proof.
  intros Hr. by apply ngOnDestroy_unregisters, reachable_registration_invariant.
Qed.

(** X20. [_createContainer] does not wait for an event and meets no
    exception: as soon as it returns, the container element it has created
    is the last child of the fullscreen element when the document is in
    fullscreen, of the body otherwise, and a child of no other node. *)
Theorem createContainer_parents_container oc :
  exists oc',
    _createContainer oc = Completed oc' /\
    _containerElement oc' = Some (createElement (_document oc)) /\
    appended_to (_document oc')
                (default (body (_document oc)) (getFullscreenElement (_document oc)))
                (createElement (_document oc)).
Proof.
  pose proof (createContainer_completes oc) as Hc. cbv zeta in Hc.
  eexists. split; [exact Hc|]. split; [by rewrite addListener_container|].
  unfold appended_to, children_of. rewrite addListener_childNodes.
  apply moved_to_appended.
Qed.

(** X21. The event name is settled once. Without a settled name,
    [_getEventName] finds none exactly when no variant of the fullscreen API
    is enabled; and a name once found is returned ever after, whatever
    happens to the document. *)
Theorem fullscreen_event_name_settled oc :
  _fullScreenEventName oc = None ->
  (fst (_getEventName oc) = None <-> no_fullscreen_api (_document oc)) /\
  (forall name d,
     fst (_getEventName oc) = Some name ->
     fst (_getEventName (set_document d (snd (_getEventName oc)))) = Some name).
Proof.
  intros Hnone. split.
  - unfold _getEventName, no_fullscreen_api. rewrite Hnone. simpl.
    destruct (fullscreenEnabled _), (webkitFullscreenEnabled _),
             (mozFullScreenEnabled _), (msFullscreenEnabled _);
      split; (done || by intros (? & ? & ? & ?)).
  - intros name d Hname.
    destruct (getEventName_document oc) as (_ & _ & _ & Hcached).
    unfold _getEventName at 1. simpl. by rewrite Hcached, Hname.
Qed.

Lemma fullscreen_listener_registered_once_witness :
  length (listeners (_document sample_container)) <= 1.
Proof.
  apply (fullscreen_listener_registered_once sample_container).
  apply sample_container_reachable.
Defined.

Lemma ngOnDestroy_removes_listener_witness :
  listeners (_document (ngOnDestroy sample_container)) = [].
Proof.
  apply (ngOnDestroy_removes_listener sample_container).
  apply sample_container_reachable.
Defined.

Lemma fullscreen_event_name_settled_witness :
  (fst (_getEventName (initial sample_document)) = None
   <-> no_fullscreen_api (_document (initial sample_document))) /\
  (forall name d,
     fst (_getEventName (initial sample_document)) = Some name ->
     fst (_getEventName (set_document d (snd (_getEventName (initial sample_document)))))
     = Some name).
Proof.
  apply (fullscreen_event_name_settled (initial sample_document)). reflexivity.
Defined.

Example event_name_survives_api_change :
  fst (_getEventName
         (set_document (with_enabled false true false false sample_document)
                       (snd (_getEventName (initial sample_document)))))
  = Some "fullscreenchange".
Proof. reflexivity. Qed.

Example createContainer_in_fullscreen :
  let oc := set_document (with_fullscreen None None (Some 1) None sample_document)
                         (initial sample_document) in
  children_of (_document (state_of (_createContainer oc))) 1 = [3].
Proof. reflexivity. Qed.

End FullscreenMore.

(** ** Snack-bar container: live region and life cycle *)
Section SnackBarLifeFacts.
Import SnackBarLife.

(** X22. The role follows the live region: role "alert" is only ever set
    together with aria-live "assertive" and role "status" only with
    "polite", no role is set outside Firefox or for a live region that is
    off, and a snack bar that has an announcement message is never
    assertive. *)
Theorem role_follows_live (firefox : bool) (cfg : AnnouncementConfig) :
  let live := live_of cfg in
  let role := role_of firefox live in
  (role = Some Alert <-> firefox = true /\ live = Assertive) /\
  (role = Some Status <-> firefox = true /\ live = Polite) /\
  (role = None <-> firefox = false \/ live = Off) /\
  (live = Assertive <-> politeness cfg = Assertive /\ no_message cfg = true) /\
  (live = Off <-> politeness cfg = Off).
Proof.
  cbv zeta. unfold role_of, live_of.
  destruct firefox, (politeness cfg), (no_message cfg); simpl;
    repeat split; (done || tauto || (intros [? ?]; done) || (intros [?|?]; done) || auto).
Qed.

Lemma emitted_once_next_complete s :
  emitted_once s -> emitted_once (complete (next s)).
Proof.
  unfold emitted_once, complete, next.
  destruct s as [n [|]]; simpl; intros [->|[-> ?]]; simplify_eq; auto.
Qed.

Lemma emitted_once_rounds n s :
  emitted_once s -> emitted_once (Nat.iter n (fun s => complete (next s)) s).
Proof.
  intros Hs. induction n as [|n IH]; [done|]. simpl.
  by apply emitted_once_next_complete.
Qed.

Lemma notified_once_step c c' : step c c' -> notified_once c -> notified_once c'.
Proof.
  intros Hstep (Ha & Hx & He).
  destruct Hstep as [c0 c0' Hm|t c|c]; [destruct Hm as [c|c|fromState toState c|c]|..].
  - unfold enter, _screenReaderAnnounce. by repeat case_match.
  - done.
  - unfold onAnimationEnd, _completeExit. repeat case_match; simpl;
      repeat split; try done; by apply emitted_once_next_complete.
  - done.
  - unfold timer_fires, announce. repeat case_match; simpl;
      repeat split; try done; by apply emitted_once_next_complete.
  - repeat split; try done. by apply emitted_once_rounds.
Qed.

(** During the life of a container each of its notifications, that it
    has entered, that it has exited and that it has been announced, is
    given at most once, and the subject has completed when it was. *)
Theorem notifications_at_most_once c :
  steps created c ->
  emitted_once (_onAnnounce c) /\ emitted_once (_onExit c) /\ emitted_once (_onEnter c).
Proof.
  intros Hs. change (notified_once c).
  remember created as c0 eqn:Hc0.
  induction Hs as [c|c c' c'' _ IH Hstep]; subst.
  - repeat split; by left.
  - eapply notified_once_step; [done | by apply IH].
Qed.

Lemma timers_ok_step c c' : step c c' -> timers_ok c -> timers_ok c'.
Proof.
  intros Hstep (Hnext & Hnone & Honly).
  destruct Hstep as [c0 c0' Hm|t c|c]; [destruct Hm as [c|c|fromState toState c|c]|..].
  - unfold enter. destruct (_destroyed c); [done|]. simpl.
    unfold _screenReaderAnnounce. simpl.
    destruct (timer_set (_announceTimeoutId c)) eqn:Hset; simpl;
      [split; [done|split; [simpl; intros ?; congruence | exact Honly]]|].
    unfold timers_ok, only_announce_timer. simpl.
    rewrite (Hnone eq_refl). simpl. split; [lia|]. split.
    + destruct (nextTimer c); [lia | done].
    + by intros t ->%list_elem_of_singleton.
  - unfold timers_ok, only_announce_timer, exit. simpl. split; [done|]. split.
    + intros Hset. rewrite (Hnone Hset). by destruct (_announceTimeoutId c).
    + intros t Ht. apply Honly. unfold clearTimeout in Ht.
      destruct (_announceTimeoutId c); [|done].
      by apply list_elem_of_filter in Ht as [_ Ht].
  - unfold onAnimationEnd, _completeExit. by repeat case_match.
  - done.
  - unfold timer_fires. case_bool_decide; [|done].
    unfold announce, timers_ok, only_announce_timer. simpl.
    assert (Hfilter : forall x, x ∈ filter (fun t' => t' ≠ t) (pendingTimers c) ->
                                _announceTimeoutId c = Some x).
    { intros x Hx. apply Honly. by apply list_elem_of_filter in Hx as [_ Hx]. }
    assert (Hnone' : timer_set (_announceTimeoutId c) = false ->
                     filter (fun t' => t' ≠ t) (pendingTimers c) = []).
    { intros Hset. by rewrite (Hnone Hset). }
    by case_match.
  - done.
Qed.

Lemma steps_timers_ok c : steps created c -> timers_ok c.
Proof.
  intros Hs. remember created as c0 eqn:Hc0.
  induction Hs as [c|c c' c'' _ IH Hstep]; subst.
  - split; [done|]. split; [done|]. by intros t ?%not_elem_of_nil.
  - eapply timers_ok_step; [done | by apply IH].
Qed.

Lemma announce_cancelled_step c c' :
  step c c' -> announce_cancelled c ->
  announce_cancelled c' /\ _onAnnounce c' = _onAnnounce c.
Proof.
  intros Hstep [Hset Hnil].
  destruct Hstep as [c0 c0' Hm|t c|c]; [destruct Hm as [c|c|fromState toState c|c]|..].
  - unfold enter. destruct (_destroyed c); [done|]. simpl.
    unfold _screenReaderAnnounce. simpl. by rewrite Hset.
  - unfold announce_cancelled, exit. simpl. rewrite Hnil.
    by destruct (_announceTimeoutId c).
  - unfold onAnimationEnd, _completeExit. by repeat case_match.
  - done.
  - unfold timer_fires. rewrite Hnil.
    by rewrite bool_decide_eq_false_2 by apply not_elem_of_nil.
  - done.
Qed.

Lemma exit_cancels c :
  timers_ok c -> timer_set (_announceTimeoutId c) = true ->
  announce_cancelled (exit c).
Proof.
  intros (_ & _ & Honly) Hset. split; [done|]. unfold exit. simpl.
  destruct (_announceTimeoutId c) as [t|] eqn:Hid; [|done]. simpl.
  destruct (filter (fun t' => t' ≠ t) (pendingTimers c)) as [|x rest] eqn:Hf; [done|].
  assert (Hx : x ∈ filter (fun t' => t' ≠ t) (pendingTimers c)).
  { rewrite Hf. apply list_elem_of_here. }
  apply list_elem_of_filter in Hx as [Hne Hx].
  apply Honly in Hx. congruence.
Qed.

(** X23. A snack bar dismissed before it was announced is never announced:
    once the announce timer has been set, [exit] clears it, a later [enter]
    does not set it again, and so whatever happens after [exit] the
    announcement subject stays as it was. *)
Theorem dismissed_before_announced c c' :
  steps created c -> timer_set (_announceTimeoutId c) = true ->
  steps (exit c) c' ->
  _onAnnounce c' = _onAnnounce c.
Proof.
  intros Hc Hset Hsteps.
  pose proof (exit_cancels c (steps_timers_ok c Hc) Hset) as Hcancel.
  enough (announce_cancelled c' /\ _onAnnounce c' = _onAnnounce (exit c)) as [_ ->]
    by done.
  remember (exit c) as c0 eqn:Hc0.
  induction Hsteps as [c1|c1 c2 c3 _ IH Hstep]; [done|].
  destruct (IH Hc0 Hcancel) as [Hcan Heq].
  destruct (announce_cancelled_step c2 c3 Hstep Hcan) as [Hcan' Heq'].
  split; [done | congruence].
Qed.

Lemma dismissed_before_announced_witness :
  _onAnnounce (timer_fires 1 (enter (exit entered))) = _onAnnounce entered.
Proof.
  apply (dismissed_before_announced entered (timer_fires 1 (enter (exit entered)))).
  - eapply steps_step; [apply steps_refl | apply step_method, method_enter].
  - reflexivity.
  - eapply steps_step; [|apply step_timer].
    eapply steps_step; [apply steps_refl | apply step_method, method_enter].
Defined.

Example announced_when_not_dismissed :
  _onAnnounce (timer_fires 1 entered) = mkSubject 1 true.
Proof. reflexivity. Qed.

Lemma exit_rounds n s :
  Nat.iter (S n) (fun s => complete (next s)) s = complete (next s).
Proof.
  induction n as [|n IH]; [done|].
  change (Nat.iter (S (S n)) ?f s) with (f (Nat.iter (S n) f s)). rewrite IH.
  by destruct s as [k [|]].
Qed.

(** X24. The exit notification waits for the zone: neither [ngOnDestroy]
    nor the end of the exit animation touches [_onExit], and at the next
    [onMicrotaskEmpty] it emits, unless it has completed before, and
    completes. A destroyed container does not enter again. *)
Theorem exit_completes_when_zone_settles c (fromState : string) :
  _onExit (ngOnDestroy c) = _onExit c /\
  _onExit (microtask_empty (ngOnDestroy c)) = complete (next (_onExit c)) /\
  _onExit (onAnimationEnd fromState "hidden" c) = _onExit c /\
  _onExit (microtask_empty (onAnimationEnd fromState "hidden" c))
    = complete (next (_onExit c)) /\
  enter (ngOnDestroy c) = ngOnDestroy c.
Proof.
  split; [done|]. split; [apply exit_rounds|]. split; [done|].
  split; [apply exit_rounds | done].
Qed.

End SnackBarLifeFacts.

(** ** Snack-bar container: attaching content *)
Section SnackBarAttach.
Import SnackBar.

Lemma adds_classes_refl c : adds_classes [] c c.
Proof.
  split; [done|]. split; [done|]. intros x. split; [by left|].
  intros [?|?%not_elem_of_nil]; done.
Qed.

Lemma adds_classes_trans l1 l2 c c1 c2 :
  adds_classes l1 c c1 -> adds_classes l2 c1 c2 -> adds_classes (l1 ++ l2) c c2.
Proof.
  intros (Hc1 & Hp1 & Hl1) (Hc2 & Hp2 & Hl2). split; [congruence|].
  split; [congruence|]. intros x. rewrite Hl2, Hl1, elem_of_app. tauto.
Qed.

Lemma is_ascii_whitespace_spec (c : Ascii.ascii) :
  is_ascii_whitespace c = bool_decide (c ∈ ascii_whitespace).
Proof. by destruct c as [[] [] [] [] [] [] [] []]. Qed.

Lemma has_whitespace_spec (s : string) :
  has_whitespace s = false <->
  forall c, c ∈ String.list_ascii_of_string s -> c ∉ ascii_whitespace.
Proof.
  induction s as [|a s IH]; cbn [has_whitespace String.list_ascii_of_string].
  - split; [|done]. by intros _ c ?%not_elem_of_nil.
  - rewrite orb_false_iff, IH, is_ascii_whitespace_spec, bool_decide_eq_false.
    split.
    + intros [Ha Hs] c [->|Hc]%elem_of_cons; [done | by apply Hs].
    + intros Hall. split; [apply Hall, list_elem_of_here|].
      intros c Hc. by apply Hall, list_elem_of_further.
Qed.

Lemma valid_token_spec (cssClass : string) :
  valid_token cssClass <-> cssClass ≠ "" /\ has_whitespace cssClass = false.
Proof. unfold valid_token. by rewrite has_whitespace_spec. Qed.

Lemma classList_add_adds cssClass c :
  valid_token cssClass ->
  exists c', classList_add cssClass c = (Returned tt, c') /\ adds_classes [cssClass] c c'.
Proof.
  intros [Hne Hws]%valid_token_spec. unfold classList_add.
  rewrite (bool_decide_eq_false_2 _ Hne), Hws.
  eexists. split; [reflexivity|]. split; [done|]. split; [done|]. simpl.
  intros x. rewrite list_elem_of_singleton. case_bool_decide as Hin.
  - split; [by left|]. intros [?|Heq]; [done | by subst].
  - by rewrite elem_of_app, list_elem_of_singleton.
Qed.

Lemma classList_add_throws cssClass c :
  ~ valid_token cssClass ->
  classList_add cssClass c = (ThrownDOMException (token_error cssClass), c).
Proof.
  intros Hbad. unfold classList_add, token_error.
  case_bool_decide as Hempty; [done|].
  destruct (has_whitespace cssClass) eqn:Hws; [done|].
  destruct Hbad. by apply valid_token_spec.
Qed.

Lemma forEach_add_adds cssClasses : forall c,
  Forall valid_token cssClasses ->
  exists c', forEach cssClasses classList_add c = (Returned tt, c') /\
             adds_classes cssClasses c c'.
Proof.
  induction cssClasses as [|x xs IH]; intros c Hvalid.
  - exists c. split; [done | apply adds_classes_refl].
  - apply Forall_cons in Hvalid as [Hx Hxs].
    destruct (classList_add_adds x c Hx) as (c1 & H1 & Ha1).
    destruct (IH c1 Hxs) as (c2 & H2 & Ha2).
    exists c2. split.
    + cbn [forEach]. unfold bind. by rewrite H1.
    + apply (adds_classes_trans [x] xs c c1 c2 Ha1 Ha2).
Qed.

(** The first token that is not accepted ends the loop: the tokens before
    it have been added, those behind it are not looked at. *)
Lemma forEach_add_throws good bad rest : forall c,
  Forall valid_token good -> ~ valid_token bad ->
  exists c', forEach (good ++ bad :: rest) classList_add c
             = (ThrownDOMException (token_error bad), c') /\
             adds_classes good c c'.
Proof.
  induction good as [|x xs IH]; intros c Hvalid Hbad.
  - exists c. split; [|apply adds_classes_refl].
    cbn [app forEach]. unfold bind. by rewrite (classList_add_throws bad c Hbad).
  - apply Forall_cons in Hvalid as [Hx Hxs].
    destruct (classList_add_adds x c Hx) as (c1 & H1 & Ha1).
    destruct (IH c1 Hxs Hbad) as (c2 & H2 & Ha2).
    exists c2. split.
    + change ((x :: xs) ++ bad :: rest) with (x :: (xs ++ bad :: rest)).
      cbn [forEach]. unfold bind. by rewrite H1.
    + apply (adds_classes_trans [x] xs c c1 c2 Ha1 Ha2).
Qed.

Lemma forEach_app {X : Type} (f : X -> Method unit) (l1 l2 : list X) : forall c,
  forEach (l1 ++ l2) f c = (forEach l1 f >>> forEach l2 f) c.
Proof.
  induction l1 as [|x l1 IH]; intros c; [done|].
  cbn [app forEach]. unfold bind.
  destruct (f x c) as [[[]| |] c1]; [|done..]. rewrite IH. done.
Qed.

Lemma forEach_single (cssClass : string) c :
  forEach [cssClass] classList_add c = classList_add cssClass c.
Proof.
  cbn [forEach]. unfold bind. by destruct (classList_add cssClass c) as [[[]| |] c1].
Qed.

Lemma optional_add (wanted : bool) cssClass c :
  (if wanted then classList_add cssClass else ret tt) c
  = forEach (if wanted then [cssClass] else []) classList_add c.
Proof. destruct wanted; [by rewrite forEach_single | done]. Qed.

(** [_applySnackBarClasses] is one loop over the configured classes. *)
Lemma applySnackBarClasses_forEach c :
  _applySnackBarClasses c
  = forEach (configured_classes (snackBarConfig c)) classList_add c.
Proof.
  unfold _applySnackBarClasses, configured_classes.
  set (cfg := snackBarConfig c).
  rewrite forEach_app. unfold bind at 1 3.
  assert (Hpanel :
    (match panelClass cfg with
     | ManyClasses cssClasses => forEach cssClasses classList_add
     | OneClass cssClass =>
         if bool_decide (cssClass = "") then ret tt else classList_add cssClass
     | NoPanelClass => ret tt
     end) c
    = forEach (match panelClass cfg with
               | ManyClasses cssClasses => cssClasses
               | OneClass cssClass =>
                   if bool_decide (cssClass = "") then [] else [cssClass]
               | NoPanelClass => []
               end) classList_add c).
  { destruct (panelClass cfg) as [|cssClass|cssClasses]; [done| |done].
    case_bool_decide; [done | by rewrite forEach_single]. }
  rewrite Hpanel.
  destruct (forEach _ classList_add c) as [[[]| |] c1]; [|done..].
  rewrite forEach_app. unfold bind. rewrite optional_add.
  destruct (forEach _ classList_add c1) as [[[]| |] c2]; [|done..].
  apply optional_add.
Qed.

(** X25. Attaching for the first time, or in production mode: when
    [classList.add] accepts every class the configuration asks for (the
    panel classes, "mat-snack-bar-center" for a centered and
    "mat-snack-bar-top" for a top snack bar), the method returns the
    portal, the outlet holds it, and the class list of the host element is
    the old one extended by exactly these classes. When one of the classes
    is empty or holds whitespace, the method throws the exception of
    [classList.add] for the first such class: nothing is attached, and the
    classes before that one have been added. *)
Theorem attach_applies_configured_classes ngDevMode (c : MatSnackBarContainer)
    (template : nat) :
  hasAttached c && dev_mode ngDevMode = false ->
  let classes := configured_classes (snackBarConfig c) in
  (Forall valid_token classes ->
   exists c',
     attachTemplatePortal ngDevMode template c = (Returned (TemplatePortal template), c') /\
     _attachedPortal c' = Some (TemplatePortal template) /\
     snackBarConfig c' = snackBarConfig c /\
     forall cssClass,
       cssClass ∈ classList c' <-> cssClass ∈ classList c \/ cssClass ∈ classes) /\
  (forall good bad rest,
     classes = good ++ bad :: rest -> Forall valid_token good -> ~ valid_token bad ->
     exists c',
       attachTemplatePortal ngDevMode template c
         = (ThrownDOMException (token_error bad), c') /\
       _attachedPortal c' = _attachedPortal c /\
       snackBarConfig c' = snackBarConfig c /\
       forall cssClass,
         cssClass ∈ classList c' <-> cssClass ∈ classList c \/ cssClass ∈ good).
Proof.
  intros Hfree. cbv zeta. split.
  - intros Hvalid.
    destruct (forEach_add_adds _ c Hvalid) as (c1 & H1 & Hc1 & Hp1 & Hl1).
    exists (mkSnackBar (snackBarConfig c1) (classList c1)
                       (Some (TemplatePortal template))).
    split; [|by split].
    unfold attachTemplatePortal, bind.
    by rewrite (assertNotAttached_passes ngDevMode c Hfree),
               applySnackBarClasses_forEach, H1.
  - intros good bad rest Hsplit Hgood Hbad.
    destruct (forEach_add_throws good bad rest c Hgood Hbad)
      as (c1 & H1 & Hc1 & Hp1 & Hl1).
    exists c1. split; [|by split].
    unfold attachTemplatePortal, bind.
    by rewrite (assertNotAttached_passes ngDevMode c Hfree),
               applySnackBarClasses_forEach, Hsplit, H1.
Qed.

Lemma attach_applies_configured_classes_witness :
  let classes := configured_classes (snackBarConfig filled_container) in
  (Forall valid_token classes ->
   exists c',
     attachTemplatePortal (Some false) 3 filled_container
       = (Returned (TemplatePortal 3), c') /\
     _attachedPortal c' = Some (TemplatePortal 3) /\
     snackBarConfig c' = snackBarConfig filled_container /\
     forall cssClass,
       cssClass ∈ classList c' <->
       cssClass ∈ classList filled_container \/ cssClass ∈ classes) /\
  (forall good bad rest,
     classes = good ++ bad :: rest -> Forall valid_token good -> ~ valid_token bad ->
     exists c',
       attachTemplatePortal (Some false) 3 filled_container
         = (ThrownDOMException (token_error bad), c') /\
       _attachedPortal c' = _attachedPortal filled_container /\
       snackBarConfig c' = snackBarConfig filled_container /\
       forall cssClass,
         cssClass ∈ classList c' <-> cssClass ∈ classList filled_container \/ cssClass ∈ good).
Proof.
  apply (attach_applies_configured_classes (Some false) filled_container 3).
  reflexivity.
Defined.

Example configured_classes_accepted :
  Forall valid_token (configured_classes (snackBarConfig filled_container)).
Proof. repeat (constructor; [by apply valid_token_spec|]). constructor. Qed.

Example attach_panel_class_of_two_names :
  attachTemplatePortal None 1 spaced_container
  = (ThrownDOMException InvalidCharacterError, spaced_container).
Proof. reflexivity. Qed.

Example attach_panel_class_with_empty_name :
  attachTemplatePortal None 1 gapped_container
  = (ThrownDOMException SyntaxError,
     mkSnackBar (snackBarConfig gapped_container) ["mat-snack-bar-container"; "warn"]
                None).
Proof. reflexivity. Qed.

End SnackBarAttach.

(** ** Calendar: views and navigation *)
Section CalendarViewFacts.
Import Calendar CalendarView.
Context {D : Type} `{DateAdapter D}.
Variable addCalendarMonths : D -> Z -> D.
Variable addCalendarYears : D -> Z -> D.
Variable today : D.
Variable yearsPerPage : Z.
Variable isSameMultiYearView : D -> D -> option D -> option D -> bool.
Local Open Scope Z_scope.

Lemma no_repeat_snoc (l : list MatCalendarView) (v : MatCalendarView) :
  no_repeat l -> (forall u, last l = Some u -> u ≠ v) -> no_repeat (l ++ [v]).
Proof.
  induction l as [|a l IH]; [done|].
  destruct l as [|b l]; intros Hl Hlast.
  - simpl. split; [|done]. by apply Hlast.
  - destruct Hl as [Hab Hl]. split; [done|]. apply IH; [done|].
    intros u Hu. by apply Hlast.
Qed.

Lemma views_in_step_set_view v (c : CalendarComponent D) :
  views_in_step c -> views_in_step (set_currentView v c).
Proof.
  intros [Hrep Hlast]. unfold views_in_step, set_currentView. simpl.
  case_bool_decide as Hne; simpl.
  - split.
    + apply no_repeat_snoc; [done|]. intros u Hu ->. by apply Hne, Hlast.
    + intros u. rewrite last_snoc. congruence.
  - split; [done|]. intros u Hu. apply Hlast in Hu. congruence.
Qed.

Lemma views_in_step_action (c c' : CalendarComponent D) :
  action addCalendarMonths addCalendarYears yearsPerPage c c' ->
  views_in_step c -> views_in_step c'.
Proof.
  intros Hact Hinv. destruct Hact; try done.
  - by apply views_in_step_set_view.
  - by apply views_in_step_set_view.
  - unfold ngAfterViewChecked. by case_match.
  - by apply views_in_step_set_view.
Qed.

(** X26. [viewChanged] reports changes only: from the initialisation of the
    calendar on, whatever is assigned to [currentView] and whatever the
    header does, the views emitted never contain the same view twice in a
    row, and the last one emitted is the current view. Initialising the
    calendar emits nothing. *)
Theorem viewChanged_reports_changes_only (d : MatCalendar D) (start : option D)
    (view : MatCalendarView) (c : CalendarComponent D) :
  actions addCalendarMonths addCalendarYears yearsPerPage
          (ngAfterContentInit today (constructed d start view)) c ->
  viewChanged (ngAfterContentInit today (constructed d start view)) = [] /\
  no_repeat (viewChanged c) /\
  (forall v, last (viewChanged c) = Some v -> _currentView c = Some v).
Proof.
  intros Hacts. split; [done|]. change (views_in_step c).
  remember (ngAfterContentInit today (constructed d start view)) as c0 eqn:Hc0.
  induction Hacts as [c|c c' c'' _ IH Hact]; subst.
  - split; [done|]. by intros v.
  - eapply views_in_step_action; [done | by apply IH].
Qed.

Lemma compareDate_trans (a b c : D) :
  compareDate a b <= 0 -> compareDate b c < 0 -> compareDate a c < 0.
Proof.
  unfold compareDate, num_or.
  repeat match goal with
  | |- context [(?x - ?y =? 0)] => destruct (Z.eqb_spec (x - y) 0); cbv iota
  end; lia.
Qed.

(** Assigning a date beyond [maxDate] stores [maxDate]. *)
Lemma set_activeDate_overshoot value (cal : MatCalendar D) hi :
  ordered_bounds cal -> maxDate cal = Some hi -> after value hi ->
  activeDate (set_activeDate value cal) = hi.
Proof.
  intros Hord Hmax Hafter. rewrite set_activeDate_stores, Hmax.
  unfold clampDate, after in *.
  destruct (minDate cal) as [lo|] eqn:Hmin.
  - assert (Hlo : compareDate lo hi <= 0).
    { specialize (Hord lo hi Hmin Hmax). unfold after in Hord. lia. }
    assert (compareDate lo value < 0).
    { eapply compareDate_trans; [exact Hlo|]. rewrite compareDate_swap. lia. }
    rewrite (compareDate_swap lo value).
    destruct (Z.ltb_spec (- compareDate lo value) 0); [lia|].
    rewrite Z.gtb_ltb. by destruct (Z.ltb_spec 0 (compareDate value hi)); [|lia].
  - rewrite Z.gtb_ltb. by destruct (Z.ltb_spec 0 (compareDate value hi)); [|lia].
Qed.

(** Assigning a date short of [minDate] stores [minDate]. *)
Lemma set_activeDate_undershoot value (cal : MatCalendar D) lo :
  minDate cal = Some lo -> before value lo ->
  activeDate (set_activeDate value cal) = lo.
Proof.
  intros Hmin Hbefore. rewrite set_activeDate_stores, Hmin.
  unfold clampDate, before in *.
  by destruct (Z.ltb_spec (compareDate value lo) 0); [|lia].
Qed.

(** X27. The header cannot leave the selectable range: with the active date
    on [maxDate], [nextClicked] leaves it there in every view, and with the
    active date on [minDate], [previousClicked] leaves it there, for a date
    adapter that moves dates forward when it adds and backward when it
    takes off, and bounds that are in order. *)
Theorem navigation_stops_at_bounds (c : CalendarComponent D) :
  ordered_bounds (dates c) -> 0 < yearsPerPage ->
  (forall hi, maxDate (dates c) = Some hi -> activeDate (dates c) = hi ->
     moves_forward addCalendarMonths addCalendarYears yearsPerPage hi ->
     activeDate (dates (nextClicked addCalendarMonths addCalendarYears yearsPerPage c))
     = hi) /\
  (forall lo, minDate (dates c) = Some lo -> activeDate (dates c) = lo ->
     moves_backward addCalendarMonths addCalendarYears yearsPerPage lo ->
     activeDate (dates (previousClicked addCalendarMonths addCalendarYears yearsPerPage c))
     = lo).
Proof.
  intros Hord Hpage. split.
  - intros hi Hmax Hact (Hm & Hy & Hp). unfold nextClicked. simpl.
    apply set_activeDate_overshoot; [done..|]. rewrite Hact.
    by repeat case_match.
  - intros lo Hmin Hact (Hm & Hy & Hp). unfold previousClicked. simpl.
    apply set_activeDate_undershoot; [done|]. rewrite Hact.
    by repeat case_match.
Qed.

End CalendarViewFacts.

Section CalendarViewExamples.
Import Calendar CalendarView.
Local Open Scope Z_scope.

Lemma viewChanged_reports_changes_only_witness :
  viewChanged may_component = [] /\
  no_repeat (viewChanged
    (set_currentView Year (set_currentView Year (set_currentView Month may_component)))) /\
  (forall v,
     last (viewChanged
       (set_currentView Year (set_currentView Year (set_currentView Month may_component))))
     = Some v ->
     _currentView
       (set_currentView Year (set_currentView Year (set_currentView Month may_component)))
     = Some v).
Proof.
  apply (viewChanged_reports_changes_only simple_addMonths simple_addYears simple_today 24
           (mkCalendar (Some (mkDate 2021 5 5)) (Some (mkDate 2021 5 10))
                       (mkDate 2021 5 7) 0 0)
           (Some (mkDate 2021 5 10)) Month).
  eapply actions_step; [|apply act_set_view].
  eapply actions_step; [|apply act_set_view].
  eapply actions_step; [apply actions_refl | apply act_set_view].
Defined.

Lemma navigation_stops_at_bounds_witness :
  (forall hi, maxDate (dates may_component) = Some hi ->
     activeDate (dates may_component) = hi ->
     moves_forward simple_addMonths simple_addYears 24 hi ->
     activeDate (dates (nextClicked simple_addMonths simple_addYears 24 may_component))
     = hi) /\
  (forall lo, minDate (dates may_component) = Some lo ->
     activeDate (dates may_component) = lo ->
     moves_backward simple_addMonths simple_addYears 24 lo ->
     activeDate (dates (previousClicked simple_addMonths simple_addYears 24 may_component))
     = lo).
Proof.
  apply (navigation_stops_at_bounds simple_addMonths simple_addYears 24 may_component).
  - intros lo hi [= <-] [= <-]. unfold after. vm_compute. discriminate.
  - lia.
Defined.

Example next_at_maxDate :
  activeDate (dates (nextClicked simple_addMonths simple_addYears 24 may_component))
  = mkDate 2021 5 10.
Proof. reflexivity. Qed.

Example views_emitted :
  viewChanged
    (set_currentView Year (set_currentView Year (set_currentView Month may_component)))
  = [Year].
Proof. reflexivity. Qed.

End CalendarViewExamples.

(** ** Menu: position and elevation classes *)
Section MenuFacts.
Import Menu.

Lemma class_value_assign_eq key value classes :
  class_value key (assign key value classes) = Some value.
Proof.
  induction classes as [|[k b] rest IH]; simpl.
  - by rewrite decide_True.
  - destruct (decide (k = key)) as [->|Hne]; simpl.
    + by rewrite decide_True.
    + by rewrite decide_False.
Qed.

Lemma class_value_assign_ne key key' value classes :
  key ≠ key' ->
  class_value key' (assign key value classes) = class_value key' classes.
Proof.
  intros Hne. induction classes as [|[k b] rest IH]; simpl.
  - by rewrite decide_False.
  - destruct (decide (k = key)) as [->|Hk]; simpl.
    + by rewrite !decide_False.
    + destruct (decide (k = key')); [done | exact IH].
Qed.

(** X28. The position classes exclude each other. In dev mode the setter of
    [xPosition] throws for a value other than 'before' and 'after' and
    otherwise turns on exactly one of "mat-menu-before" and
    "mat-menu-after"; in production an invalid value is stored and turns both
    off. Never are both on. *)
Theorem xPosition_classes ngDevMode value (m : MatMenu) :
  match set_xPosition ngDevMode value m with
  | Throws error =>
      error = InvalidPositionX /\ default true ngDevMode = true /\
      value ≠ "before" /\ value ≠ "after"
  | Done m' =>
      _xPosition m' = value /\
      class_value "mat-menu-before" (_classList m') = Some (bool_decide (value = "before")) /\
      class_value "mat-menu-after" (_classList m') = Some (bool_decide (value = "after")) /\
      ~ (class_value "mat-menu-before" (_classList m') = Some true /\
         class_value "mat-menu-after" (_classList m') = Some true) /\
      (default true ngDevMode = true ->
       class_value "mat-menu-before" (_classList m')
       ≠ class_value "mat-menu-after" (_classList m'))
  end.
Proof.
  unfold set_xPosition.
  destruct (decide (value = "before")) as [Hb|Hb], (decide (value = "after")) as [Ha|Ha];
    try (subst; discriminate);
    rewrite ?(bool_decide_eq_true_2 _ Hb), ?(bool_decide_eq_false_2 _ Hb),
            ?(bool_decide_eq_true_2 _ Ha), ?(bool_decide_eq_false_2 _ Ha); cbn [negb andb].
  - simpl. rewrite !class_value_assign_ne, class_value_assign_eq by done.
    rewrite !class_value_assign_ne, class_value_assign_eq by done.
    rewrite (bool_decide_eq_true_2 _ Hb), (bool_decide_eq_false_2 _ Ha).
    repeat split; try done. by intros [_ ?].
  - simpl. rewrite !class_value_assign_ne, class_value_assign_eq by done.
    rewrite !class_value_assign_ne, class_value_assign_eq by done.
    rewrite (bool_decide_eq_false_2 _ Hb), (bool_decide_eq_true_2 _ Ha).
    repeat split; try done. by intros [? _].
  - destruct (default true ngDevMode) eqn:Hdev; [done|]. simpl.
    rewrite !class_value_assign_ne, class_value_assign_eq by done.
    rewrite !class_value_assign_ne, class_value_assign_eq by done.
    rewrite (bool_decide_eq_false_2 _ Hb), (bool_decide_eq_false_2 _ Ha).
    repeat split; try done. by intros [? _].
Qed.

Section ElevationFacts.
Variable _elevationPrefix : string.
Variable _baseElevation : nat.
Hypothesis prefix_no_index : no_index_prefix _elevationPrefix.

Lemma prefix_nonempty : _elevationPrefix ≠ "".
Proof using prefix_no_index. intros Heq. by rewrite Heq in prefix_no_index. Qed.

Lemma find_class_assign_new key value classes :
  find_class _elevationPrefix classes = None ->
  String.prefix _elevationPrefix key = true ->
  find_class _elevationPrefix (assign key value classes) = Some key.
Proof.
  intros Hnone Hkey. induction classes as [|[k b] rest IH]; simpl.
  - by rewrite Hkey.
  - simpl in Hnone. destruct (String.prefix _elevationPrefix k) eqn:Hk; [done|].
    destruct (decide (k = key)) as [->|Hne]; [congruence|].
    simpl. rewrite Hk. by apply IH.
Qed.

Lemma find_class_assign_found key value classes found :
  find_class _elevationPrefix classes = Some found ->
  find_class _elevationPrefix (assign key value classes) = Some found.
Proof.
  induction classes as [|[k b] rest IH]; [done|]. simpl.
  destruct (String.prefix _elevationPrefix k) eqn:Hk.
  - intros [= <-]. destruct (decide (k = key)) as [->|Hne]; simpl; by rewrite Hk.
  - intros Hrest. destruct (decide (k = key)) as [->|Hne]; simpl; rewrite Hk;
      [done | by apply IH].
Qed.

Lemma find_class_has_prefix classes found :
  find_class _elevationPrefix classes = Some found ->
  String.prefix _elevationPrefix found = true /\ found ≠ "".
Proof using prefix_no_index.
  induction classes as [|[k b] rest IH]; [done|]. simpl.
  destruct (String.prefix _elevationPrefix k) eqn:Hk; [|exact IH].
  intros [= <-]. split; [done|]. intros ->.
  by destruct _elevationPrefix.
Qed.

Lemma elevation_class_has_prefix depth :
  String.prefix _elevationPrefix (elevation_class _elevationPrefix _baseElevation depth)
  = true.
Proof. apply prefix_append. by eexists. Qed.

Lemma elevation_class_nonempty depth :
  nonempty (Some (elevation_class _elevationPrefix _baseElevation depth)) = true.
Proof using prefix_no_index.
  unfold nonempty, elevation_class. rewrite bool_decide_eq_false_2; [done|].
  by destruct _elevationPrefix.
Qed.

(** X29. The elevation class follows the depth once only, for an elevation
    prefix that starts with no digit. On a menu without an elevation class
    the first [setElevation] turns on the class of the depth (capped at 24),
    and a second call for another elevation turns that class off and the new
    one on; but from then on the class list holds a stale elevation class in
    front of the current one, and every further [setElevation] changes
    nothing. *)
Theorem elevation_follows_depth_once (m : MatMenu) (d1 d2 d3 : nat) :
  no_elevation_class _elevationPrefix (_classList m) ->
  _previousElevation m = None ->
  Nat.min (_baseElevation + d1) 24 ≠ Nat.min (_baseElevation + d2) 24 ->
  let elevation := elevation_class _elevationPrefix _baseElevation in
  let m1 := setElevation _elevationPrefix _baseElevation d1 m in
  let m2 := setElevation _elevationPrefix _baseElevation d2 m1 in
  class_value (elevation d1) (_classList m1) = Some true /\
  class_value (elevation d1) (_classList m2) = Some false /\
  class_value (elevation d2) (_classList m2) = Some true /\
  setElevation _elevationPrefix _baseElevation d3 m2 = m2.
Proof using prefix_no_index.
  intros Hnone Hprev Hdiff. cbv zeta.
  set (e1 := elevation_class _elevationPrefix _baseElevation d1).
  set (e2 := elevation_class _elevationPrefix _baseElevation d2).
  assert (Hne : e1 ≠ e2).
  { unfold e1, e2, elevation_class. intros Heq.
    apply String.app_inj in Heq. by apply pretty_nat_inj in Heq. }
  assert (Hm1 : setElevation _elevationPrefix _baseElevation d1 m
                = mkMenu (assign e1 true (_classList m)) (_xPosition m) (_yPosition m)
                         (Some e1) (_previousPanelClass m) (hostClassName m)).
  { unfold setElevation. unfold no_elevation_class in Hnone.
    by rewrite Hnone, Hprev. }
  rewrite Hm1.
  pose proof (elevation_class_nonempty d1) as Hn1. fold e1 in Hn1.
  assert (Hfind1 : find_class _elevationPrefix (assign e1 true (_classList m)) = Some e1).
  { apply find_class_assign_new; [done | apply elevation_class_has_prefix]. }
  set (m1 := mkMenu (assign e1 true (_classList m)) (_xPosition m) (_yPosition m)
                    (Some e1) (_previousPanelClass m) (hostClassName m)).
  assert (Hm2 : setElevation _elevationPrefix _baseElevation d2 m1
                = mkMenu (assign e2 true (assign e1 false (assign e1 true (_classList m))))
                         (_xPosition m) (_yPosition m) (Some e2)
                         (_previousPanelClass m) (hostClassName m)).
  { unfold setElevation. simpl. rewrite Hfind1, Hn1. fold e2.
    unfold nonempty in Hn1. rewrite Hn1. simpl.
    by rewrite bool_decide_eq_true_2. }
  rewrite Hm2. simpl.
  split; [apply class_value_assign_eq|].
  split; [by rewrite class_value_assign_ne, class_value_assign_eq|].
  split; [apply class_value_assign_eq|].
  unfold setElevation. simpl.
  rewrite (find_class_assign_found _ _ _ e1
             (find_class_assign_found _ _ _ e1 Hfind1)).
  rewrite Hn1. simpl.
  rewrite bool_decide_eq_false_2; [done|]. congruence.
Qed.

Lemma find_class_assign_all names value : forall classes,
  (exists name, name ∈ names /\ String.prefix _elevationPrefix name = true) ->
  is_Some (find_class _elevationPrefix (assign_all names value classes)).
Proof.
  unfold assign_all.
  assert (Hkeep : forall ns cl, is_Some (find_class _elevationPrefix cl) ->
            is_Some (find_class _elevationPrefix
                        (foldl (fun cl className => assign className value cl) cl ns))).
  { induction ns as [|n ns IH]; intros cl Hcl; [done|]. simpl. apply IH.
    destruct Hcl as [found Hfound]. exists found.
    by apply find_class_assign_found. }
  induction names as [|n names IH]; intros classes (name & Hin & Hname).
  - by apply not_elem_of_nil in Hin.
  - simpl. apply elem_of_cons in Hin as [->|Hin].
    + apply Hkeep.
      destruct (find_class _elevationPrefix classes) as [found|] eqn:Hfind.
      * exists found. by apply find_class_assign_found.
      * exists n. by apply find_class_assign_new.
    + apply IH. by exists name.
Qed.

(** X30. An elevation of the consumer's own is never overridden: when the
    panel class of a menu that has no elevation yet names a class with the
    elevation prefix (a prefix that starts with no digit), [setElevation]
    leaves the menu as it is, at every depth. *)
Theorem custom_elevation_kept (m : MatMenu) (classes : string) (depth : nat) :
  _previousElevation m = None ->
  classes ≠ "" ->
  (exists name, name ∈ split_spaces classes /\
                String.prefix _elevationPrefix name = true) ->
  setElevation _elevationPrefix _baseElevation depth (set_panelClass classes m)
  = set_panelClass classes m.
Proof using prefix_no_index.
  intros Hprev Hclasses Hcustom.
  unfold set_panelClass. simpl.
  rewrite (bool_decide_eq_false_2 _ Hclasses). simpl.
  set (cl := match _previousPanelClass m with
             | Some previous =>
                 if negb (bool_decide (previous = ""))
                 then assign_all (split_spaces previous) false (_classList m)
                 else _classList m
             | None => _classList m
             end).
  destruct (find_class_assign_all (split_spaces classes) true cl Hcustom)
    as [found Hfound].
  destruct (find_class_has_prefix _ _ Hfound) as [_ Hne].
  unfold setElevation. simpl. rewrite Hfound, Hprev. simpl.
  by rewrite (bool_decide_eq_false_2 _ Hne).
Qed.

End ElevationFacts.

Lemma elevation_follows_depth_once_witness :
  let elevation := elevation_class "mat-elevation-z" 4 in
  let m1 := setElevation "mat-elevation-z" 4 0 default_menu in
  let m2 := setElevation "mat-elevation-z" 4 1 m1 in
  class_value (elevation 0) (_classList m1) = Some true /\
  class_value (elevation 0) (_classList m2) = Some false /\
  class_value (elevation 1) (_classList m2) = Some true /\
  setElevation "mat-elevation-z" 4 2 m2 = m2.
Proof.
  apply (elevation_follows_depth_once "mat-elevation-z" 4 eq_refl default_menu 0 1 2).
  - reflexivity.
  - reflexivity.
  - simpl. lia.
Defined.

Lemma custom_elevation_kept_witness :
  setElevation "mat-elevation-z" 4 2 (set_panelClass "wide mat-elevation-z8" default_menu)
  = set_panelClass "wide mat-elevation-z8" default_menu.
Proof.
  apply (custom_elevation_kept "mat-elevation-z" 4 eq_refl default_menu
           "wide mat-elevation-z8" 2).
  - reflexivity.
  - done.
  - exists "mat-elevation-z8". split; [|reflexivity].
    apply list_elem_of_further, list_elem_of_here.
Defined.

Example elevation_classes_after_three_depths :
  List.filter (fun kv => String.prefix "mat-elevation-z" (fst kv))
    (_classList (setElevation "mat-elevation-z" 4 2
                   (setElevation "mat-elevation-z" 4 1
                      (setElevation "mat-elevation-z" 4 0 default_menu))))
  = [("mat-elevation-z4", false); ("mat-elevation-z5", true)].
Proof. reflexivity. Qed.

Example elevation_capped :
  _previousElevation (setElevation "mat-elevation-z" 4 30 default_menu)
  = Some "mat-elevation-z24".
Proof. reflexivity. Qed.

End MenuFacts.
